(** * Memory game (Colegio Guadalupe): the game-state machine of [App],
      the card server and the catalog

    A shallow embedding of the React component [App] of the client
    (card deck construction in [initGame], the click handler
    [handleCardClick], the click guard of the [Card] component and the
    three [setTimeout] callbacks), followed by the properties of the
    matching game that the specification states.

    Conventions of the embedding.
    - Every [useState] cell of [App] that the modelled functions read or
      write is a field of [State]; [setX v] and [setX (prev => ...)] are
      the setters [setX] below, applied in program order.
    - A handler runs against the last committed render, so the values it
      closes over are the fields of the state it is applied to.  A timer
      callback keeps the values its closure captured when it was
      scheduled; they are the arguments of the constructors of
      [Callback].
    - [setTimeout] and the passing of time are explicit: a [World] is the
      component state, the queue of pending timers with their due time
      in milliseconds, and a clock.
    - JavaScript numbers that hold counters, identifiers and points are
      integers ([Z]).
    - Rendering is not modelled beyond what decides which clicks reach
      [handleCardClick]: the grid of [Card]s exists in the game view
      only, and each [Card] guards its own click.

    The development then covers what surrounds the game: the three
    routes of the card server over its table, the catalog as the
    client loads it from Appwrite or from the card server, the uploads
    of the admin panel and of the student dialog, and the pages of
    [App] with the password form of the admin panel.  There,
    - an awaited call is a [Promise]: it resolves or it rejects; what
      the network and the database do to a request is given with it;
    - an [async] handler runs to its end before the next action: the
      component is not acted upon while a fetch is in flight;
    - [alert]s are kept where a property speaks of them and dropped
      elsewhere; [console] output is not kept. *)

From stdpp Require Import base decidable option numbers strings sorting list.

Local Open Scope Z_scope.

(** ** Data model *)

Inductive CardType := image | text.

Inductive Mode := solo | multiplayer.

Inductive Player := Player1 | Player2.

Inductive View := menu | game | admin.

Global Instance CardType_eq_dec : EqDecision CardType.
Proof. solve_decision. Defined.

Global Instance Mode_eq_dec : EqDecision Mode.
Proof. solve_decision. Defined.

Global Instance Player_eq_dec : EqDecision Player.
Proof. solve_decision. Defined.

Global Instance View_eq_dec : EqDecision View.
Proof. solve_decision. Defined.

(** [interface CardData]; the field [id] of the source is [cardId] here
    ([id] is the identity function of the libraries).  An optional field
    is an [option]: [None] is an absent ([undefined]) or [null] field. *)
Record CardData := {
  cardId : string;
  image_data : string;
  points : option Z;
  author : option string;
  appwriteId : option string;
  fileId : option string
}.

(** [interface GameCard extends CardData]. *)
Record GameCard := {
  data : CardData;
  uniqueId : Z;
  isFlipped : bool;
  isMatched : bool;
  isHighlighting : option bool;
  cardType : CardType
}.

Record Scores := { p1 : Z; p2 : Z }.

(** The [useState] cells of [App]. *)
Record State := {
  view : View;
  gameMode : Mode;
  currentPlayer : Player;
  scores : Scores;
  cards : list GameCard;
  flippedCards : list Z;
  matches : Z;
  moves : Z;
  isWon : bool;
  isAdminAuth : bool;
  showPassModal : bool;
  matchedCardId : option string
}.

(** The closures handed to [setTimeout] by [handleCardClick], each with
    the variables it captured. *)
Inductive Callback :=
| HighlightCb (firstId secondId : Z) (firstCard : GameCard)
              (gameMode : Mode) (currentPlayer : Player) (matches : Z)
| MatchCb (firstCard : GameCard)
          (gameMode : Mode) (currentPlayer : Player) (matches : Z)
| NoMatchCb (newFlipped : list Z) (gameMode : Mode).

Record World := {
  app : State;
  pending : list (N * Callback);
  clock : N
}.

(** A handler either returns or throws a [TypeError]; the state updates
    it queued before throwing are committed all the same. *)
Inductive Outcome := Done (w : World) | TypeError (w : World).

Definition world_of (o : Outcome) : World :=
  match o with Done w => w | TypeError w => w end.

(** ** Record updates *)

Definition withIsFlipped (b : bool) (c : GameCard) : GameCard :=
  {| data := data c; uniqueId := uniqueId c; isFlipped := b;
     isMatched := isMatched c; isHighlighting := isHighlighting c;
     cardType := cardType c |}.

Definition withIsHighlighting (b : bool) (c : GameCard) : GameCard :=
  {| data := data c; uniqueId := uniqueId c; isFlipped := isFlipped c;
     isMatched := isMatched c; isHighlighting := Some b;
     cardType := cardType c |}.

Definition withMatched (c : GameCard) : GameCard :=
  {| data := data c; uniqueId := uniqueId c; isFlipped := isFlipped c;
     isMatched := true; isHighlighting := Some false;
     cardType := cardType c |}.

Definition withUniqueId (u : Z) (c : GameCard) : GameCard :=
  {| data := data c; uniqueId := u; isFlipped := isFlipped c;
     isMatched := isMatched c; isHighlighting := isHighlighting c;
     cardType := cardType c |}.

Definition setView (v : View) (s : State) : State :=
  {| view := v; gameMode := gameMode s; currentPlayer := currentPlayer s;
     scores := scores s; cards := cards s; flippedCards := flippedCards s;
     matches := matches s; moves := moves s; isWon := isWon s;
     isAdminAuth := isAdminAuth s; showPassModal := showPassModal s;
     matchedCardId := matchedCardId s |}.

Definition setGameMode (m : Mode) (s : State) : State :=
  {| view := view s; gameMode := m; currentPlayer := currentPlayer s;
     scores := scores s; cards := cards s; flippedCards := flippedCards s;
     matches := matches s; moves := moves s; isWon := isWon s;
     isAdminAuth := isAdminAuth s; showPassModal := showPassModal s;
     matchedCardId := matchedCardId s |}.

Definition setCurrentPlayer (f : Player → Player) (s : State) : State :=
  {| view := view s; gameMode := gameMode s;
     currentPlayer := f (currentPlayer s);
     scores := scores s; cards := cards s; flippedCards := flippedCards s;
     matches := matches s; moves := moves s; isWon := isWon s;
     isAdminAuth := isAdminAuth s; showPassModal := showPassModal s;
     matchedCardId := matchedCardId s |}.

Definition setScores (f : Scores → Scores) (s : State) : State :=
  {| view := view s; gameMode := gameMode s; currentPlayer := currentPlayer s;
     scores := f (scores s); cards := cards s; flippedCards := flippedCards s;
     matches := matches s; moves := moves s; isWon := isWon s;
     isAdminAuth := isAdminAuth s; showPassModal := showPassModal s;
     matchedCardId := matchedCardId s |}.

Definition setCards (f : list GameCard → list GameCard) (s : State) : State :=
  {| view := view s; gameMode := gameMode s; currentPlayer := currentPlayer s;
     scores := scores s; cards := f (cards s); flippedCards := flippedCards s;
     matches := matches s; moves := moves s; isWon := isWon s;
     isAdminAuth := isAdminAuth s; showPassModal := showPassModal s;
     matchedCardId := matchedCardId s |}.

Definition setFlippedCards (l : list Z) (s : State) : State :=
  {| view := view s; gameMode := gameMode s; currentPlayer := currentPlayer s;
     scores := scores s; cards := cards s; flippedCards := l;
     matches := matches s; moves := moves s; isWon := isWon s;
     isAdminAuth := isAdminAuth s; showPassModal := showPassModal s;
     matchedCardId := matchedCardId s |}.

Definition setMatches (f : Z → Z) (s : State) : State :=
  {| view := view s; gameMode := gameMode s; currentPlayer := currentPlayer s;
     scores := scores s; cards := cards s; flippedCards := flippedCards s;
     matches := f (matches s); moves := moves s; isWon := isWon s;
     isAdminAuth := isAdminAuth s; showPassModal := showPassModal s;
     matchedCardId := matchedCardId s |}.

Definition setMoves (f : Z → Z) (s : State) : State :=
  {| view := view s; gameMode := gameMode s; currentPlayer := currentPlayer s;
     scores := scores s; cards := cards s; flippedCards := flippedCards s;
     matches := matches s; moves := f (moves s); isWon := isWon s;
     isAdminAuth := isAdminAuth s; showPassModal := showPassModal s;
     matchedCardId := matchedCardId s |}.

Definition setIsWon (b : bool) (s : State) : State :=
  {| view := view s; gameMode := gameMode s; currentPlayer := currentPlayer s;
     scores := scores s; cards := cards s; flippedCards := flippedCards s;
     matches := matches s; moves := moves s; isWon := b;
     isAdminAuth := isAdminAuth s; showPassModal := showPassModal s;
     matchedCardId := matchedCardId s |}.

Definition setShowPassModal (b : bool) (s : State) : State :=
  {| view := view s; gameMode := gameMode s; currentPlayer := currentPlayer s;
     scores := scores s; cards := cards s; flippedCards := flippedCards s;
     matches := matches s; moves := moves s; isWon := isWon s;
     isAdminAuth := isAdminAuth s; showPassModal := b;
     matchedCardId := matchedCardId s |}.

Definition setMatchedCardId (o : option string) (s : State) : State :=
  {| view := view s; gameMode := gameMode s; currentPlayer := currentPlayer s;
     scores := scores s; cards := cards s; flippedCards := flippedCards s;
     matches := matches s; moves := moves s; isWon := isWon s;
     isAdminAuth := isAdminAuth s; showPassModal := showPassModal s;
     matchedCardId := o |}.

Definition withApp (s : State) (w : World) : World :=
  {| app := s; pending := pending w; clock := clock w |}.

(** [setTimeout(cb, delay)]: the callback becomes due [delay] ms from now. *)
Definition setTimeout (cb : Callback) (delay : N) (w : World) : World :=
  {| app := app w;
     pending := pending w ++ [((clock w + delay)%N, cb)];
     clock := clock w |}.

(** ** Array helpers of the source *)

(** [arr.findIndex(c => c.uniqueId === u)]; [None] is the source's -1. *)
Definition findIndex (u : Z) (l : list GameCard) : option nat :=
  fst <$> list_find (λ c, uniqueId c = u) l.

(** [arr.find(c => c.uniqueId === u)]; [None] is [undefined]. *)
Definition find (u : Z) (l : list GameCard) : option GameCard :=
  snd <$> list_find (λ c, uniqueId c = u) l.

(** ** [handleCardClick] *)

(** [firstCard.points || 10]: an absent, null or zero [points] gives 10. *)
Definition cardPoints (firstCard : GameCard) : Z :=
  match points (data firstCard) with
  | Some p => if bool_decide (p = 0) then 10 else p
  | None => 10
  end.

(** The two [setScores] branches of the match callback. *)
Definition creditScore (gameMode : Mode) (currentPlayer : Player)
    (cardPoints : Z) (prev : Scores) : Scores :=
  match gameMode with
  | solo => {| p1 := p1 prev + cardPoints; p2 := p2 prev |}
  | multiplayer =>
      match currentPlayer with
      | Player1 => {| p1 := p1 prev + cardPoints; p2 := p2 prev |}
      | Player2 => {| p1 := p1 prev; p2 := p2 prev + cardPoints |}
      end
  end.

Definition togglePlayer (prev : Player) : Player :=
  match prev with Player1 => Player2 | Player2 => Player1 end.

(** [handleCardClick(uniqueId)].  [newCards] is a shallow copy of
    [cards], so [newCards[cardIndex].isFlipped = true] writes the card
    object that both arrays share; the later [cards.find] therefore sees
    the written objects and is taken on [newCards].  With [cardIndex]
    = -1 the element is [undefined] and the assignment throws before any
    state update.  [firstCard] stays an alias of a deck object; the
    callbacks read its [id] and [points] only, which nothing writes. *)
Definition handleCardClick (uniqueId : Z) (w : World) : Outcome :=
  let s := app w in
  if bool_decide (length (flippedCards s) = 2%nat) then Done w else
  match findIndex uniqueId (cards s) with
  | None => TypeError w
  | Some cardIndex =>
    let newCards := alter (withIsFlipped true) cardIndex (cards s) in
    let newFlipped := flippedCards s ++ [uniqueId] in
    let s1 := setFlippedCards newFlipped (setCards (λ _, newCards) s) in
    match newFlipped with
    | [firstId; secondId] =>               (* newFlipped.length === 2 *)
      let s2 := setMoves (λ m, m + 1) s1 in
      match find firstId newCards, find secondId newCards with
      | Some firstCard, Some secondCard =>
        if bool_decide (cardId (data firstCard) = cardId (data secondCard))
        then Done (setTimeout
                     (HighlightCb firstId secondId firstCard
                        (gameMode s) (currentPlayer s) (matches s))
                     600 (withApp s2 w))
        else Done (setTimeout (NoMatchCb newFlipped (gameMode s))
                     1000 (withApp s2 w))
      | _, _ => TypeError (withApp s2 w)
      end
    | _ => Done (withApp s1 w)
    end
  end.

(** The three [prev.map(c => ...)] updaters of the callbacks. *)
Definition highlightPair (firstId secondId : Z) (c : GameCard) : GameCard :=
  if bool_decide (uniqueId c = firstId) || bool_decide (uniqueId c = secondId)
  then withIsHighlighting true c else c.

Definition markMatched (firstCard : GameCard) (c : GameCard) : GameCard :=
  if bool_decide (cardId (data c) = cardId (data firstCard))
  then withMatched c else c.

Definition flipBack (newFlipped : list Z) (c : GameCard) : GameCard :=
  if bool_decide (uniqueId c ∈ newFlipped) then withIsFlipped false c else c.

(** The body of a timer callback. *)
Definition runCallback (cb : Callback) (w : World) : World :=
  match cb with
  | HighlightCb firstId secondId firstCard gm cp m =>
    let s1 := setCards (fmap (highlightPair firstId secondId)) (app w) in
    let s2 := setMatchedCardId (Some (cardId (data firstCard))) s1 in
    setTimeout (MatchCb firstCard gm cp m) 2000 (withApp s2 w)
  | MatchCb firstCard gm cp m =>
    let cardPoints := cardPoints firstCard in
    let s1 := setCards (fmap (markMatched firstCard)) (app w) in
    let s2 := setMatches (λ m, m + 1) s1 in
    let s3 := setMatchedCardId None s2 in
    let s4 := setScores (creditScore gm cp cardPoints) s3 in
    let s5 := setFlippedCards [] s4 in
    let s6 := if bool_decide (m + 1 = 6) then setIsWon true s5 else s5 in
    withApp s6 w
  | NoMatchCb newFlipped gm =>
    let s1 := setCards (fmap (flipBack newFlipped)) (app w) in
    let s2 := setFlippedCards [] s1 in
    let s3 := match gm with
              | multiplayer => setCurrentPlayer togglePlayer s2
              | solo => s2
              end in
    withApp s3 w
  end.

(** One millisecond passes: the timers that are due run in the order
    they were scheduled. *)
Definition tick (w : World) : World :=
  let t := (clock w + 1)%N in
  foldl (λ w' p, runCallback p.2 w')
        {| app := app w;
           pending := filter (λ p, ¬ (p.1 ≤ t)%N) (pending w);
           clock := t |}
        (filter (λ p, (p.1 ≤ t)%N) (pending w)).

Definition advance (ms : nat) (w : World) : World := Nat.iter ms tick w.

(** ** The [Card] component and the rendered grid *)

(** [onClick={() => !disabled && !card.isFlipped && !card.isMatched && onClick()}] *)
Definition Card_onClick (card : GameCard) (disabled : bool)
    (onClick : World → Outcome) (w : World) : Outcome :=
  if negb disabled && negb (isFlipped card) && negb (isMatched card)
  then onClick w else Done w.

(** A click on the [k]-th [Card] of the grid
    [cards.map(card => <Card card={card}
       onClick={() => handleCardClick(card.uniqueId)}
       disabled={flippedCards.length === 2} />)],
    which is rendered in the game view only. *)
Definition clickCard (k : nat) (w : World) : Outcome :=
  match view (app w), cards (app w) !! k with
  | game, Some card =>
    Card_onClick card
      (bool_decide (length (flippedCards (app w)) = 2%nat))
      (handleCardClick (uniqueId card)) w
  | _, _ => Done w
  end.

(** The flip action on the piece whose [uniqueId] is [u]: a click on the
    card of the grid that carries this identifier. *)
Definition flip (u : Z) (w : World) : Outcome :=
  match findIndex u (cards (app w)) with
  | Some k => clickCard k w
  | None => Done w
  end.

(** ** [initGame] *)

(** [arr.sort(() => Math.random() - 0.5)]: the engine's sort run with a
    random comparator returns the elements in some order.  [initGame]
    sorts twice, the fetched cards and the twelve pieces; the two
    outcomes are independent. *)
Record RandomSort := {
  sortPool : list CardData → list CardData;
  sortPool_perm : ∀ l, sortPool l ≡ₚ l;
  sortDeck : list GameCard → list GameCard;
  sortDeck_perm : ∀ l, sortDeck l ≡ₚ l
}.

Definition handleAdminAccess (s : State) : State :=
  if isAdminAuth s then setView admin s else setShowPassModal true s.

(** [initGame] either alerts that six cards are needed and returns, or
    starts a game. *)
Inductive InitOutcome := NeedSixCards (w : World) | Started (w : World).

Definition newGameCard (card : CardData) (t : CardType) : GameCard :=
  {| data := card; uniqueId := 0; isFlipped := false; isMatched := false;
     isHighlighting := None; cardType := t |}.

(** The deck of [initGame]: [selected], [gamePool] and [finalPool].  The
    temporary [uniqueId: Math.random()] of a pushed card is overwritten
    by the final [map] before anything reads it. *)
Definition buildDeck (rnd : RandomSort) (allCards : list CardData)
    : list GameCard :=
  let shuffledPool := sortPool rnd allCards in
  let selected := take 6 shuffledPool in
  let gamePool :=
    selected ≫= (λ card, [newGameCard card image; newGameCard card text]) in
  imap (λ index card, withUniqueId (Z.of_nat index) card)
       (sortDeck rnd gamePool).

(** [initGame(mode)], from the point where [allCards] has been fetched. *)
Definition initGame (rnd : RandomSort) (mode : Mode)
    (allCards : list CardData) (w : World) : InitOutcome :=
  if bool_decide (length allCards < 6)%nat
  then NeedSixCards (withApp (handleAdminAccess (app w)) w)
  else
    let s1 := setGameMode mode (app w) in
    let s2 := setCurrentPlayer (λ _, Player1) s1 in
    let s3 := setScores (λ _, {| p1 := 0; p2 := 0 |}) s2 in
    let finalPool := buildDeck rnd allCards in
    let s4 := setCards (λ _, finalPool) s3 in
    let s5 := setFlippedCards [] s4 in
    let s6 := setMatches (λ _, 0) s5 in
    let s7 := setMoves (λ _, 0) s6 in
    let s8 := setIsWon false s7 in
    Started (withApp (setView game s8) w).

Definition init_world (o : InitOutcome) : World :=
  match o with NeedSixCards w => w | Started w => w end.

(** The state of [App] when it is mounted. *)
Definition initialState : State :=
  {| view := menu; gameMode := solo; currentPlayer := Player1;
     scores := {| p1 := 0; p2 := 0 |}; cards := []; flippedCards := [];
     matches := 0; moves := 0; isWon := false; isAdminAuth := false;
     showPassModal := false; matchedCardId := None |}.

Definition initialWorld : World :=
  {| app := initialState; pending := []; clock := 0 |}.

(** ** Runs *)

Inductive Event := Click (k : nat) | Elapse (ms : nat).

Definition step (e : Event) (w : World) : Outcome :=
  match e with
  | Click k => clickCard k w
  | Elapse ms => Done (advance ms w)
  end.

Definition run (es : list Event) (w : World) : World :=
  foldl (λ w' e, world_of (step e w')) w es.

(** The menu buttons [initGame('solo')] and [initGame('multiplayer')]
    pressed on the mounted component. *)
Definition newGame (rnd : RandomSort) (mode : Mode)
    (allCards : list CardData) : World :=
  init_world (initGame rnd mode allCards initialWorld).

(** The buttons "Reiniciar" and "Jogar Novamente": [initGame()] with the
    default [mode = gameMode]. *)
Definition restart (rnd : RandomSort) (allCards : list CardData)
    (w : World) : World :=
  init_world (initGame rnd (gameMode (app w)) allCards w).

(** ** Sample data *)

Definition keepOrder : RandomSort :=
  {| sortPool := λ l, l; sortPool_perm := λ l, reflexivity l;
     sortDeck := λ l, l; sortDeck_perm := λ l, reflexivity l |}.

Definition reverseOrder : RandomSort :=
  {| sortPool := reverse; sortPool_perm := reverse_Permutation;
     sortDeck := reverse; sortDeck_perm := reverse_Permutation |}.

Definition sampleCard (name : string) (pts : option Z) : CardData :=
  {| cardId := name; image_data := "data:image/png;base64,AAAA";
     points := pts; author := None; appwriteId := None; fileId := None |}.

Definition sampleCatalog : list CardData :=
  [ sampleCard "leao" (Some 20); sampleCard "gato" None;
    sampleCard "pato" (Some 0); sampleCard "rato" (Some 10);
    sampleCard "lobo" (Some 10); sampleCard "urso" (Some 10);
    sampleCard "foca" (Some 10); sampleCard "sapo" (Some 10) ].

Arguments advance : simpl never.

(** * Vocabulary of the properties *)

(** ** Steps of a move *)

(** The world [w] with only its clock moved to [t]. *)
Definition atClock (t : N) (w : World) : World :=
  {| app := app w; pending := pending w; clock := t |}.

(** [newCards] of [handleCardClick]: the deck with its [j]-th card
    turned face up. *)
Definition flipAt (j : nat) (l : list GameCard) : list GameCard :=
  alter (withIsFlipped true) j l.

(** The callback and the delay that the second click of a move schedules. *)
Definition secondCallback (s : State) (a u : Z) (firstCard : GameCard)
    (same : bool) : Callback * N :=
  if same
  then (HighlightCb a u firstCard (gameMode s) (currentPlayer s) (matches s),
        600%N)
  else (NoMatchCb [a; u] (gameMode s), 1000%N).

(** The state committed by the second click of a move. *)
Definition afterSecond (w : World) (j : nat) (a u : Z) : World :=
  withApp (setMoves (λ m, m + 1)
             (setFlippedCards [a; u]
                (setCards (λ _, flipAt j (cards (app w))) (app w)))) w.

(** [w'] is [w] after a move that selected [a] then [u], two pieces of
    one identity, and after both of its timers have run. *)
Record Resolution (w w' : World) (c1 : GameCard) (j : nat) (a u : Z) : Prop := {
  res_matches : matches (app w') = matches (app w) + 1;
  res_moves : moves (app w') = moves (app w) + 1;
  res_scores :
    scores (app w') =
    creditScore (gameMode (app w)) (currentPlayer (app w)) (cardPoints c1)
      (scores (app w));
  res_player : currentPlayer (app w') = currentPlayer (app w);
  res_mode : gameMode (app w') = gameMode (app w);
  res_view : view (app w') = view (app w);
  res_flipped : flippedCards (app w') = [];
  res_pending : pending w' = [];
  res_clock : clock w' = (clock w + 2600)%N;
  res_isWon :
    isWon (app w') = bool_decide (matches (app w) + 1 = 6) || isWon (app w);
  res_cards :
    cards (app w') =
    markMatched c1 <$> (highlightPair a u <$> flipAt j (cards (app w)))
}.

(** The same for two pieces that differ, after the single timer. *)
Record Mismatch (w w' : World) (j : nat) (a u : Z) : Prop := {
  mis_matches : matches (app w') = matches (app w);
  mis_moves : moves (app w') = moves (app w) + 1;
  mis_scores : scores (app w') = scores (app w);
  mis_player :
    currentPlayer (app w') =
    match gameMode (app w) with
    | multiplayer => togglePlayer (currentPlayer (app w))
    | solo => currentPlayer (app w)
    end;
  mis_mode : gameMode (app w') = gameMode (app w);
  mis_view : view (app w') = view (app w);
  mis_flipped : flippedCards (app w') = [];
  mis_pending : pending w' = [];
  mis_clock : clock w' = (clock w + 1000)%N;
  mis_isWon : isWon (app w') = isWon (app w);
  mis_cards :
    cards (app w') = flipBack [a; u] <$> flipAt j (cards (app w))
}.

(** ** Decks *)

(** The identity of a piece, and the identity with the face it shows. *)
Definition identity (c : GameCard) : string := cardId (data c).

Definition pieceKey (c : GameCard) : string * CardType :=
  (identity c, cardType c).

(** [selected] and [gamePool] of [initGame]. *)
Definition selectedOf (rnd : RandomSort) (allCards : list CardData)
    : list CardData :=
  take 6 (sortPool rnd allCards).

Definition gamePoolOf (selected : list CardData) : list GameCard :=
  selected ≫= (λ card, [newGameCard card image; newGameCard card text]).

(** The part of [State] that belongs to one play-through. *)
Definition session (s : State)
    : Mode * Player * Scores * list GameCard * list Z * Z * Z * bool :=
  (gameMode s, currentPlayer s, scores s, cards s, flippedCards s,
   matches s, moves s, isWon s).

(** ** States of a play-through *)

(** What a pending callback must have captured, for the selection
    [a; b] it belongs to. *)
Definition capturedFrom (s : State) (a b : Z) (cb : Callback) : Prop :=
  match cb with
  | HighlightCb firstId secondId firstCard gm cp m =>
      firstId = a ∧ secondId = b ∧
      gm = gameMode s ∧ cp = currentPlayer s ∧ m = matches s ∧
      ∀ c, c ∈ cards s → uniqueId c ∈ [a; b] → identity c = identity firstCard
  | MatchCb firstCard gm cp m =>
      gm = gameMode s ∧ cp = currentPlayer s ∧ m = matches s ∧
      ∀ c, c ∈ cards s → uniqueId c ∈ [a; b] → identity c = identity firstCard
  | NoMatchCb newFlipped gm =>
      newFlipped = [a; b] ∧ gm = gameMode s
  end.

(** No timer is pending while fewer than two pieces are selected; one
    is, with the right captures, while two are. *)
Definition timersFor (w : World) : Prop :=
  match flippedCards (app w) with
  | [] | [_] => pending w = []
  | [a; b] =>
      ∃ t cb, pending w = [(t, cb)] ∧ (clock w < t)%N ∧
              capturedFrom (app w) a b cb
  | _ => False
  end.

(** A piece that is face up and not yet resolved. *)
Definition faceUp (c : GameCard) : Prop :=
  isFlipped c = true ∧ isMatched c = false.

Global Instance faceUp_dec c : Decision (faceUp c).
Proof. unfold faceUp. apply _. Defined.

(** The invariant: the game view is shown, identifiers are distinct,
    the pieces face up and unresolved are exactly the selected ones, and
    the pending timers are those of the selection. *)
Record Inv (w : World) : Prop := {
  inv_view : view (app w) = game;
  inv_uids : NoDup (uniqueId <$> cards (app w));
  inv_up : ∀ c, c ∈ cards (app w) → faceUp c →
                uniqueId c ∈ flippedCards (app w);
  inv_sel : ∀ u, u ∈ flippedCards (app w) →
                 ∃ c, c ∈ cards (app w) ∧ uniqueId c = u ∧ faceUp c;
  inv_nodup : NoDup (flippedCards (app w));
  inv_timers : timersFor w
}.

(** What a click on the [k]-th card does in a state of a play-through. *)
Inductive ClickEffect (k : nat) (w : World) : World → Prop :=
| click_ignored : ClickEffect k w w
| click_first c :
    cards (app w) !! k = Some c →
    isFlipped c = false → isMatched c = false →
    flippedCards (app w) = [] →
    ClickEffect k w
      (withApp (setFlippedCards [uniqueId c]
                  (setCards (λ _, flipAt k (cards (app w))) (app w))) w)
| click_second c a c1 firstCard :
    cards (app w) !! k = Some c →
    isFlipped c = false → isMatched c = false →
    flippedCards (app w) = [a] →
    c1 ∈ cards (app w) → uniqueId c1 = a → faceUp c1 →
    data firstCard = data c1 →
    ClickEffect k w
      (let cb := secondCallback (app w) a (uniqueId c) firstCard
                   (bool_decide (identity c1 = identity c)) in
       setTimeout cb.1 cb.2 (afterSecond w k a (uniqueId c))).

(** What one millisecond does in a state of a play-through. *)
Inductive TickEffect (w : World) : World → Prop :=
| tick_wait :
    (∀ p, p ∈ pending w → (clock w + 1 < p.1)%N) →
    TickEffect w (atClock (clock w + 1) w)
| tick_run a b cb :
    flippedCards (app w) = [a; b] →
    pending w = [((clock w + 1)%N, cb)] →
    capturedFrom (app w) a b cb →
    TickEffect w
      (runCallback cb {| app := app w; pending := []; clock := clock w + 1 |}).

(** ** Resolved pairs *)

Fixpoint countIf {A} (p : A → bool) (l : list A) : nat :=
  match l with
  | [] => 0
  | x :: l' => (if p x then 1 else 0) + countIf p l'
  end.

(** The identity of a piece with its resolved flag. *)
Definition shape (c : GameCard) : string * bool := (identity c, isMatched c).

Definition sameIdentity (x : string) (p : string * bool) : bool :=
  bool_decide (p.1 = x).

(** The deck, seen through [shape]: every identity is on at least two
    pieces (exactly two when the identities of the catalog are distinct),
    pieces of one identity are resolved together, and each of the [m]
    matches counted so far resolved at least two pieces. *)
Record PairsShape (S : list (string * bool)) (m : Z) : Prop := {
  ps_two : ∀ p, p ∈ S → (2 ≤ countIf (sameIdentity p.1) S)%nat;
  ps_uniform : ∀ p q, p ∈ S → q ∈ S → p.1 = q.1 → p.2 = q.2;
  ps_count : 2 * m ≤ Z.of_nat (countIf snd S)
}.

(** [markMatched] seen through [shape]. *)
Definition mark (x : string) (p : string * bool) : string * bool :=
  if bool_decide (p.1 = x) then (p.1, true) else p.

(** Twelve pieces in pairs, and [isWon] exactly with six matches. *)
Record InvPairs (w : World) : Prop := {
  ip_len : length (cards (app w)) = 12%nat;
  ip_pairs : PairsShape (shape <$> cards (app w)) (matches (app w));
  ip_won : isWon (app w) = bool_decide (matches (app w) = 6)
}.

(** A whole solo game on the sample deck: six matches, one mismatch. *)
Definition sixMatches : list Event :=
  [Click 0; Click 1; Elapse 2600; Click 2; Click 3; Elapse 2600;
   Click 4; Click 6; Elapse 1000;
   Click 4; Click 5; Elapse 2600; Click 6; Click 7; Elapse 2600;
   Click 8; Click 9; Elapse 2600; Click 10; Click 11; Elapse 2600].

(** ** What play never changes *)

(** The fixed part of a piece: its identifier, its card and its face. *)
Definition skeleton (c : GameCard) : Z * CardData * CardType :=
  (uniqueId c, data c, cardType c).

(** [c'] is a later state of the piece [c]: the same piece, still
    resolved if it was. *)
Definition evolves (c c' : GameCard) : Prop :=
  skeleton c' = skeleton c ∧ (isMatched c = true → isMatched c' = true).

(** ** Counters and deadlines *)

(** A pending callback of a match still owes one increment of [matches]. *)
Definition owedMatches (cb : Callback) : Z :=
  match cb with NoMatchCb _ _ => 0 | _ => 1 end.

(** [matches] never runs ahead of [moves]. *)
Definition Counters (w : World) : Prop :=
  0 ≤ matches (app w) ∧
  matches (app w) + foldr (λ p n, owedMatches p.2 + n) 0 (pending w)
    ≤ moves (app w).

(** The longest a callback can still be pending: the delay it was
    scheduled with. *)
Definition budget (cb : Callback) : N :=
  match cb with
  | HighlightCb _ _ _ _ _ _ => 600
  | MatchCb _ _ _ _ => 2000
  | NoMatchCb _ _ => 1000
  end.

Definition Deadlines (w : World) : Prop :=
  ∀ t cb, (t, cb) ∈ pending w → (t ≤ clock w + budget cb)%N.

(** ** Delays *)

(** The delay after which a move is resolved: 600 ms and 2000 ms for a
    pair, 1000 ms otherwise. *)
Definition resolutionDelay (c1 c2 : GameCard) : nat :=
  if bool_decide (cardId (data c1) = cardId (data c2)) then 2600 else 1000.

(** ** Points *)

(** What a match on the card [d] credits. *)
Definition worth (d : CardData) : Z := cardPoints (newGameCard d image).

(** The card a pending callback has captured as [firstCard]. *)
Definition capturedCard (cb : Callback) : option GameCard :=
  match cb with
  | HighlightCb _ _ firstCard _ _ _ | MatchCb firstCard _ _ _ => Some firstCard
  | NoMatchCb _ _ => None
  end.

(** Every card in play, and every captured one, is worth between [lo]
    and [hi], and so is every match credited so far. *)
Record Priced (lo hi : Z) (w : World) : Prop := {
  pr_cards : ∀ d, d ∈ data <$> cards (app w) → lo ≤ worth d ≤ hi;
  pr_pending : ∀ t cb fc, (t, cb) ∈ pending w → capturedCard cb = Some fc →
                          lo ≤ worth (data fc) ≤ hi;
  pr_total :
    lo * matches (app w) ≤ p1 (scores (app w)) + p2 (scores (app w))
      ≤ hi * matches (app w);
  pr_solo : gameMode (app w) = solo → p2 (scores (app w)) = 0
}.

(** * The card server

    The three routes of the express server over the table
    [cards (id TEXT PRIMARY KEY, image_data TEXT NOT NULL,
            created_at DATETIME DEFAULT CURRENT_TIMESTAMP)].
    The table is the list of its rows.  What a request meets when it
    arrives, the value of [CURRENT_TIMESTAMP] and whether the prepared
    statement throws, is given with the request. *)

Record Row := {
  row_id : string;
  row_image_data : string;
  row_created_at : N
}.

Global Instance Row_eq_dec : EqDecision Row.
Proof. solve_decision. Defined.

(** [req.body] of a POST as the clients of this repository build it with
    [JSON.stringify({ id, image_data, points, author })]: each field is
    a string (a number for [points]) or absent. *)
Record Body := {
  body_id : option string;
  body_image_data : option string;
  body_points : option Z;
  body_author : option string
}.

Inductive Request :=
| GET_cards
| POST_cards (body : Body)
| DELETE_cards (id : string).

Inductive Response :=
| RowsJson (rows : list Row)          (* res.json(cards) *)
| SavedJson (id : string)             (* res.json({ success: true, id }) *)
| DeletedJson                         (* res.json({ success: true }) *)
| ErrorJson (status : Z).             (* res.status(status).json({ error }) *)

(** [res.ok] as the client sees it. *)
Definition ok (r : Response) : bool :=
  match r with ErrorJson _ => false | _ => true end.

Record Arrival := {
  now : N;
  dbThrows : bool
}.

(** [ORDER BY created_at DESC]: the rows, newest first; the order of
    rows with equal timestamps is the engine's choice. *)
Definition newerFirst (r1 r2 : Row) : Prop :=
  (row_created_at r2 ≤ row_created_at r1)%N.

Global Instance newerFirst_dec r1 r2 : Decision (newerFirst r1 r2).
Proof. unfold newerFirst. apply _. Defined.

Record Engine := {
  orderByCreatedAtDesc : list Row → list Row;
  orderByCreatedAtDesc_perm : ∀ t, orderByCreatedAtDesc t ≡ₚ t;
  orderByCreatedAtDesc_sorted : ∀ t, Sorted newerFirst (orderByCreatedAtDesc t)
}.

(** [!v] for a field of the body. *)
Definition missing (v : option string) : bool :=
  match v with
  | None => true
  | Some s => bool_decide (s = "")
  end.

(** [INSERT OR REPLACE INTO cards (id, image_data) VALUES (?, ?)]: the
    row that holds the primary key, if any, is deleted and the new row
    is inserted with [created_at] defaulting to the current time. *)
Definition insertOrReplace (id image_data : string) (t : N)
    (table : list Row) : list Row :=
  filter (λ r, row_id r ≠ id) table ++
  [{| row_id := id; row_image_data := image_data; row_created_at := t |}].

(** [DELETE FROM cards WHERE id = ?] *)
Definition deleteWhereId (id : string) (table : list Row) : list Row :=
  filter (λ r, row_id r ≠ id) table.

(** [app.get('/api/cards', ...)] *)
Definition get_api_cards (E : Engine) (a : Arrival) (table : list Row)
    : Response * list Row :=
  if dbThrows a then (ErrorJson 500, table)
  else (RowsJson (orderByCreatedAtDesc E table), table).

(** [app.post('/api/cards', ...)] *)
Definition post_api_cards (a : Arrival) (body : Body) (table : list Row)
    : Response * list Row :=
  if missing (body_id body) || missing (body_image_data body)
  then (ErrorJson 400, table)
  else
    match body_id body, body_image_data body with
    | Some id, Some image_data =>
      if dbThrows a then (ErrorJson 500, table)
      else (SavedJson id, insertOrReplace id image_data (now a) table)
    | _, _ => (ErrorJson 400, table)
    end.

(** [app.delete('/api/cards/:id', ...)] *)
Definition delete_api_cards (a : Arrival) (id : string) (table : list Row)
    : Response * list Row :=
  if dbThrows a then (ErrorJson 500, table)
  else (DeletedJson, deleteWhereId id table).

Definition handle (E : Engine) (a : Arrival) (req : Request)
    (table : list Row) : Response * list Row :=
  match req with
  | GET_cards => get_api_cards E a table
  | POST_cards body => post_api_cards a body table
  | DELETE_cards id => delete_api_cards a id table
  end.

(** The table after a sequence of requests. *)
Definition serve (E : Engine) (reqs : list (Arrival * Request))
    (table : list Row) : list Row :=
  foldl (λ t ar, (handle E ar.1 ar.2 t).2) table reqs.

(** The rows that hold the card [id]. *)
Definition rowOf (id : string) (r : Row) : Prop := row_id r = id.

Global Instance rowOf_dec id r : Decision (rowOf id r).
Proof. unfold rowOf. apply _. Defined.

(** A request that writes the row of [id]. *)
Definition writes (id : string) (req : Request) : Prop :=
  match req with
  | GET_cards => False
  | POST_cards body => body_id body = Some id
  | DELETE_cards id' => id' = id
  end.

(** The engine that keeps rows of equal age in table order. *)
Definition stableEngine : Engine.
Proof.
  refine {| orderByCreatedAtDesc := merge_sort newerFirst |}.
  - apply merge_sort_Permutation.
  - assert (Total newerFirst) by (intros r1 r2; unfold newerFirst; lia).
    apply (Sorted_merge_sort newerFirst).
Defined.

Definition upload (id image_data : string) (pts : Z) : Body :=
  {| body_id := Some id; body_image_data := Some image_data;
     body_points := Some pts; body_author := Some "Admin" |}.

(** A request that arrives at time [t] and meets a working database. *)
Definition arrivingAt (t : N) : Arrival := {| now := t; dbThrows := false |}.

(** * The client and its services

    An awaited call either resolves with a value or rejects. *)

Inductive Promise (A : Type) := Resolved (a : A) | Rejected.
Global Arguments Resolved {A} a.
Global Arguments Rejected {A}.

(** What [await res.json()] gives after [fetch('/api/cards')]: the array
    of rows, or the object [{ error }] of the 500 answer. *)
Inductive CardsJson := CardsArray (l : list CardData) | ErrorObject.

(** A row of the table read as a [CardData]: it has an [id] and an
    [image_data] and none of the optional fields. *)
Definition cardOfRow (r : Row) : CardData :=
  {| cardId := row_id r; image_data := row_image_data r; points := None;
     author := None; appwriteId := None; fileId := None |}.

Definition cards_json (r : Response) : CardsJson :=
  match r with
  | RowsJson rows => CardsArray (cardOfRow <$> rows)
  | _ => ErrorObject
  end.

(** What the two catalogs answer to one fetch: [isAppwriteConfigured()],
    the outcome of [appwriteService.getCards()] and the outcome of
    [fetch('/api/cards')] followed by [res.json()]. *)
Record Services := {
  appwriteConfigured : bool;
  appwrite_getCards : Promise (list CardData);
  local_getCards : Promise CardsJson
}.

(** The first lines of [initGame]: Appwrite when it is configured, the
    local API when it is not or when Appwrite rejects. *)
Definition loadCards (sv : Services) : Promise CardsJson :=
  if appwriteConfigured sv then
    match appwrite_getCards sv with
    | Resolved l => Resolved (CardsArray l)
    | Rejected => local_getCards sv
    end
  else local_getCards sv.

(** [initGame] returns, or its promise rejects. *)
Inductive InitResult := Returned (o : InitOutcome) | Threw (w : World).

Definition result_world (r : InitResult) : World :=
  match r with Returned o => init_world o | Threw w => w end.

(** The whole of [initGame(mode)].  The fetch is taken to complete
    before anything else happens to the component.  When the local API
    answers with its error object, [allCards.length] is [undefined] and
    [undefined < 6] is false: the first three setters run and the spread
    [[...allCards]] throws. *)
Definition initGame_async (rnd : RandomSort) (mode : Mode) (sv : Services)
    (w : World) : InitResult :=
  match loadCards sv with
  | Rejected => Threw w
  | Resolved (CardsArray allCards) => Returned (initGame rnd mode allCards w)
  | Resolved ErrorObject =>
    let s1 := setGameMode mode (app w) in
    let s2 := setCurrentPlayer (λ _, Player1) s1 in
    let s3 := setScores (λ _, {| p1 := 0; p2 := 0 |}) s2 in
    Threw (withApp s3 w)
  end.

(** The services of a client whose Appwrite is not configured, in front
    of the card server with the table [table]. *)
Definition localServices (E : Engine) (a : Arrival) (table : list Row)
    : Services :=
  {| appwriteConfigured := false;
     appwrite_getCards := Resolved [];
     local_getCards := Resolved (cards_json (get_api_cards E a table).1) |}.

(** Seven uploads, the first of them sent as a valuable card and later
    sent again with another image. *)
Definition sampleUploads : list (Arrival * Request) :=
  [(arrivingAt 1, POST_cards (upload "leao" "data:image/png;base64,AAAA" 20));
   (arrivingAt 2, POST_cards (upload "gato" "data:image/png;base64,BBBB" 10));
   (arrivingAt 3, POST_cards (upload "pato" "data:image/png;base64,CCCC" 10));
   (arrivingAt 4, POST_cards (upload "rato" "data:image/png;base64,DDDD" 10));
   (arrivingAt 5, POST_cards (upload "lobo" "data:image/png;base64,EEEE" 20));
   (arrivingAt 6, POST_cards (upload "urso" "data:image/png;base64,FFFF" 10));
   (arrivingAt 7, POST_cards (upload "foca" "data:image/png;base64,GGGG" 10));
   (arrivingAt 8, POST_cards (upload "leao" "data:image/png;base64,HHHH" 20))].

(** * The pages of [App]

    The cells of [App] that the game does not use, and what the user can
    do on the page that is rendered. *)

Record Page := {
  world : World;
  passwordInput : string;
  showStudentUpload : bool
}.

Definition setIsAdminAuth (b : bool) (s : State) : State :=
  {| view := view s; gameMode := gameMode s; currentPlayer := currentPlayer s;
     scores := scores s; cards := cards s; flippedCards := flippedCards s;
     matches := matches s; moves := moves s; isWon := isWon s;
     isAdminAuth := b; showPassModal := showPassModal s;
     matchedCardId := matchedCardId s |}.

Definition onWorld (f : World → World) (p : Page) : Page :=
  {| world := f (world p); passwordInput := passwordInput p;
     showStudentUpload := showStudentUpload p |}.

Definition onApp (f : State → State) (p : Page) : Page :=
  onWorld (λ w, withApp (f (app w)) w) p.

Definition setPasswordInput (s : string) (p : Page) : Page :=
  {| world := world p; passwordInput := s;
     showStudentUpload := showStudentUpload p |}.

Definition setShowStudentUpload (b : bool) (p : Page) : Page :=
  {| world := world p; passwordInput := passwordInput p;
     showStudentUpload := b |}.

Definition adminPassword : string := "guadalupe@12".

(** [handleAuth]; the [alert] of the wrong password is not kept. *)
Definition handleAuth (p : Page) : Page :=
  if bool_decide (passwordInput p = adminPassword)
  then
    setPasswordInput ""
      (onApp (λ s, setShowPassModal false (setView admin (setIsAdminAuth true s))) p)
  else setPasswordInput "" p.

(** What the user and the clock can do.  The buttons that call
    [initGame] come with the outcome of its random sorts and of its
    fetch. *)
Inductive Action :=
| SettingsButton                                      (* handleAdminAccess *)
| UploadButton                                        (* setShowStudentUpload(true) *)
| CloseStudentUpload                                  (* onClose *)
| TypePassword (s : string)                           (* setPasswordInput(e.target.value) *)
| CancelPassword                                      (* setShowPassModal(false) *)
| SubmitPassword                                      (* handleAuth *)
| SoloButton (rnd : RandomSort) (sv : Services)       (* initGame('solo') *)
| MultiplayerButton (rnd : RandomSort) (sv : Services) (* initGame('multiplayer') *)
| RestartButton (rnd : RandomSort) (sv : Services)    (* initGame() *)
| PlayAgainButton (rnd : RandomSort) (sv : Services)  (* initGame() *)
| MainMenuButton                                      (* setView('menu') *)
| AdminBack                                           (* onBack: setView('menu') *)
| CardClick (k : nat)
| Wait (ms : nat).

(** Whether the control of an action is on the rendered page.  The
    admin view renders the panel alone; every other view renders the
    header, the password form while [showPassModal], the upload dialog
    while [showStudentUpload], and the menu or the game. *)
Definition rendered (a : Action) (p : Page) : bool :=
  let s := app (world p) in
  match a with
  | Wait _ => true
  | AdminBack => bool_decide (view s = admin)
  | SettingsButton | UploadButton => bool_decide (view s ≠ admin)
  | CloseStudentUpload => bool_decide (view s ≠ admin) && showStudentUpload p
  | TypePassword _ | CancelPassword | SubmitPassword =>
      bool_decide (view s ≠ admin) && showPassModal s
  | SoloButton _ _ | MultiplayerButton _ _ => bool_decide (view s = menu)
  | RestartButton _ _ | CardClick _ => bool_decide (view s = game)
  | PlayAgainButton _ _ | MainMenuButton =>
      bool_decide (view s = game) && isWon s
  end.

Definition act (a : Action) (p : Page) : Page :=
  if negb (rendered a p) then p else
  match a with
  | SettingsButton => onApp handleAdminAccess p
  | UploadButton => setShowStudentUpload true p
  | CloseStudentUpload => setShowStudentUpload false p
  | TypePassword s => setPasswordInput s p
  | CancelPassword => onApp (setShowPassModal false) p
  | SubmitPassword => handleAuth p
  | SoloButton rnd sv =>
      onWorld (λ w, result_world (initGame_async rnd solo sv w)) p
  | MultiplayerButton rnd sv =>
      onWorld (λ w, result_world (initGame_async rnd multiplayer sv w)) p
  | RestartButton rnd sv | PlayAgainButton rnd sv =>
      onWorld (λ w, result_world (initGame_async rnd (gameMode (app w)) sv w)) p
  | MainMenuButton | AdminBack => onApp (setView menu) p
  | CardClick k => onWorld (λ w, world_of (clickCard k w)) p
  | Wait ms => onWorld (advance ms) p
  end.

Definition perform (actions : list Action) (p : Page) : Page :=
  foldl (λ q a, act a q) p actions.

(** The page when [App] is mounted. *)
Definition initialPage : Page :=
  {| world := initialWorld; passwordInput := ""; showStudentUpload := false |}.

(** The catalog of a client whose Appwrite answers with the sample cards. *)
Definition sampleServices : Services :=
  {| appwriteConfigured := true;
     appwrite_getCards := Resolved sampleCatalog;
     local_getCards := Rejected |}.

(** * Uploads

    What happens to a POST sent to the card server: the fetch rejects;
    the server answers without the route being reached, as
    [express.json({ limit: '10mb' })] does for a larger body, and the
    answer is not ok; or the route handles the request. *)
Inductive Delivery := Lost | Refused | Handled (a : Arrival).

Record Network := {
  appwriteActive : bool;               (* isAppwriteConfigured() *)
  appwrite_uploadCard : Promise unit;  (* appwriteService.uploadCard(...) *)
  local_delivery : Delivery            (* fetch('/api/cards', { method: 'POST', ... }) *)
}.

(** [fetch('/api/cards', { method: 'POST', body })] followed by
    [res.ok], against the table of the server. *)
Definition postCard (d : Delivery) (body : Body) (table : list Row)
    : Promise bool * list Row :=
  match d with
  | Lost => (Rejected, table)
  | Refused => (Resolved false, table)
  | Handled a =>
    let answer := post_api_cards a body table in
    (Resolved (ok answer.1), answer.2)
  end.

(** The block that both [handleUpload]s run to compute [success]:
    Appwrite when it is active, the local API when it is not or when
    the Appwrite upload rejects.  [Rejected] is an exception that
    reaches the outer [catch]. *)
Definition sendCard (net : Network) (body : Body) (table : list Row)
    : Promise bool * list Row :=
  if appwriteActive net then
    match appwrite_uploadCard net with
    | Resolved _ => (Resolved true, table)
    | Rejected => postCard (local_delivery net) body table
    end
  else postCard (local_delivery net) body table.

Inductive Alert :=
| SaveFailed        (* 'Erro ao salvar carta no servidor local.' *)
| CriticalFailure   (* 'Erro crítico ao salvar carta. Verifique sua conexão.' *)
| DrawingSent       (* 'Desenho enviado com sucesso! Obrigado por participar.' *)
| DrawingFailed.    (* 'Erro ao enviar desenho.' *)

(** [!newImage] for the cell [useState<string | null>(null)]. *)
Definition noImage (v : option string) : bool :=
  match v with
  | None => true
  | Some s => bool_decide (s = "")
  end.

Module AdminPanel.

Record State := {
  cards : CardsJson;
  newId : string;
  newImage : option string;
  isValuable : bool;
  loading : bool
}.

Definition setCards (data : CardsJson) (p : State) : State :=
  {| cards := data; newId := newId p; newImage := newImage p;
     isValuable := isValuable p; loading := loading p |}.

Definition setLoading (b : bool) (p : State) : State :=
  {| cards := cards p; newId := newId p; newImage := newImage p;
     isValuable := isValuable p; loading := b |}.

(** [setNewId(''); setNewImage(null); setIsValuable(false)] *)
Definition clearForm (p : State) : State :=
  {| cards := cards p; newId := ""; newImage := None;
     isValuable := false; loading := loading p |}.

(** [fetchCards]: the catalog is loaded as in [initGame]; a rejection
    of the local fetch is not caught and leaves the list as it is. *)
Definition fetchCards (sv : Services) (p : State) : State :=
  match loadCards sv with
  | Resolved data => setCards data p
  | Rejected => p
  end.

(** What [handleUpload] leaves behind: the cells of the panel, the table
    of the server, the alert shown, and whether [fetchCards()] was
    started (it is not awaited). *)
Record Outcome := {
  panel : State;
  table : list Row;
  alert : option Alert;
  refresh : bool
}.

Definition body_of (p : State) (img : string) : Body :=
  {| body_id := Some (newId p); body_image_data := Some img;
     body_points := Some (if isValuable p then 20 else 10);
     body_author := Some "Admin" |}.

Definition handleUpload (net : Network) (p : State) (rows : list Row)
    : Outcome :=
  if bool_decide (newId p = "") || noImage (newImage p)
  then {| panel := p; table := rows; alert := None; refresh := false |}
  else
    match newImage p with
    | None => {| panel := p; table := rows; alert := None; refresh := false |}
    | Some img =>
      match sendCard net (body_of p img) rows with
      | (Resolved true, rows') =>
        {| panel := setLoading false (clearForm (setLoading true p));
           table := rows'; alert := None; refresh := true |}
      | (Resolved false, rows') =>
        {| panel := setLoading false (setLoading true p);
           table := rows'; alert := Some SaveFailed; refresh := false |}
      | (Rejected, rows') =>
        {| panel := setLoading false (setLoading true p);
           table := rows'; alert := Some CriticalFailure; refresh := false |}
      end
    end.

End AdminPanel.

Module StudentUploadModal.

Record State := {
  newId : string;
  authorName : string;
  newImage : option string;
  loading : bool
}.

Definition setLoading (b : bool) (p : State) : State :=
  {| newId := newId p; authorName := authorName p; newImage := newImage p;
     loading := b |}.

(** [setNewId(''); setAuthorName(''); setNewImage(null)] *)
Definition clearForm (p : State) : State :=
  {| newId := ""; authorName := ""; newImage := None; loading := loading p |}.

(** What [handleUpload] leaves behind; [closed] tells whether [onClose]
    was called. *)
Record Outcome := {
  modal : State;
  table : list Row;
  alert : option Alert;
  closed : bool
}.

(** Students always upload 10 points cards. *)
Definition body_of (p : State) (img : string) : Body :=
  {| body_id := Some (newId p); body_image_data := Some img;
     body_points := Some 10; body_author := Some (authorName p) |}.

Definition handleUpload (net : Network) (p : State) (rows : list Row)
    : Outcome :=
  if bool_decide (newId p = "") || noImage (newImage p)
     || bool_decide (authorName p = "")
  then {| modal := p; table := rows; alert := None; closed := false |}
  else
    match newImage p with
    | None => {| modal := p; table := rows; alert := None; closed := false |}
    | Some img =>
      match sendCard net (body_of p img) rows with
      | (Resolved true, rows') =>
        {| modal := setLoading false (clearForm (setLoading true p));
           table := rows'; alert := Some DrawingSent; closed := true |}
      | (_, rows') =>
        {| modal := setLoading false (setLoading true p);
           table := rows'; alert := Some DrawingFailed; closed := false |}
      end
    end.

End StudentUploadModal.

(** The services of a client whose Appwrite call rejects or is not
    configured, seen from the panel. *)
Definition localNetwork (a : Arrival) : Network :=
  {| appwriteActive := false; appwrite_uploadCard := Rejected;
     local_delivery := Handled a |}.

(** * The Appwrite catalog

    A document of the collection as [listDocuments] returns it; the
    attributes [points] and [author] may be absent or null. *)
Record Document := {
  doc_id : string;                 (* $id *)
  doc_cardId : string;
  doc_fileId : string;
  doc_points : option Z;
  doc_author : option string
}.

(** [v || 10] on a number. *)
Definition orTen (v : option Z) : Z :=
  match v with
  | Some p => if bool_decide (p = 0) then 10 else p
  | None => 10
  end.

(** [v || 'Admin'] on a string. *)
Definition orAdmin (v : option string) : string :=
  match v with
  | Some a => if bool_decide (a = "") then "Admin" else a
  | None => "Admin"
  end.

(** The callback of [response.documents.map] in [getCards];
    [getFileView] gives the URL of a file of the bucket. *)
Definition cardOfDocument (getFileView : string → string) (doc : Document)
    : CardData :=
  {| cardId := doc_cardId doc;
     image_data := getFileView (doc_fileId doc);
     points := Some (orTen (doc_points doc));
     author := Some (orAdmin (doc_author doc));
     appwriteId := Some (doc_id doc);
     fileId := Some (doc_fileId doc) |}.

(** [appwriteService.getCards()], given [isAppwriteConfigured()] and the
    outcome of [databases.listDocuments]. *)
Definition getCards (configured : bool) (getFileView : string → string)
    (listDocuments : Promise (list Document)) : Promise (list CardData) :=
  if negb configured then Resolved []
  else
    match listDocuments with
    | Resolved documents => Resolved (cardOfDocument getFileView <$> documents)
    | Rejected => Rejected
    end.

(** A file URL of the sample bucket. *)
Definition sampleFileView (fileId : string) : string :=
  "https://cloud.appwrite.io/v1/storage/buckets/cards/files/" +:+ fileId +:+ "/view".

Definition sampleDocument (name : string) (pts : option Z) : Document :=
  {| doc_id := "doc-" +:+ name; doc_cardId := name; doc_fileId := "file-" +:+ name;
     doc_points := pts; doc_author := None |}.

Definition sampleDocuments : list Document :=
  [sampleDocument "leao" (Some 20); sampleDocument "gato" None;
   sampleDocument "pato" (Some 0); sampleDocument "rato" (Some 10);
   sampleDocument "lobo" (Some 20); sampleDocument "urso" (Some 10);
   sampleDocument "leao" (Some 10)].

(** ** The notice of a found pair *)

(** A card drawn with the green frame. *)
Definition highlighted (c : GameCard) : Prop := isHighlighting c = Some true.

(** While the second callback of a found pair is pending, the notice
    names the pair and the framed cards are the selected ones;
    otherwise there is no notice and no frame. *)
Definition Notice (w : World) : Prop :=
  match pending w with
  | [(_, MatchCb firstCard _ _ _)] =>
      matchedCardId (app w) = Some (identity firstCard) ∧
      ∀ c, c ∈ cards (app w) →
           (highlighted c ↔ uniqueId c ∈ flippedCards (app w))
  | _ =>
      matchedCardId (app w) = None ∧
      ∀ c, c ∈ cards (app w) → ¬ highlighted c
  end.

(** An upload of the admin panel that reaches a working server at time
    [t]: the time, the id, the image and the points. *)
Definition uploadRequest (u : N * string * string * Z) : Arrival * Request :=
  (arrivingAt u.1.1.1, POST_cards (upload u.1.1.2 u.1.2 u.2)).

Definition uploadId (u : N * string * string * Z) : string := u.1.1.2.

Definition uploadImage (u : N * string * string * Z) : string := u.1.2.

(** ** The worth of the resolved cards *)

(** The card of a piece and the face it shows. *)
Definition face (c : GameCard) : CardData * CardType := (data c, cardType c).

(** What a piece stands for in the scores: the worth of its card, once,
    on the image piece, when the pair is resolved. *)
Definition credit (c : GameCard) : Z :=
  if isMatched c && bool_decide (cardType c = image) then worth (data c) else 0.

Definition credited (l : list GameCard) : Z := foldr (λ c n, credit c + n) 0 l.

Definition totalWorth (l : list CardData) : Z := foldr (λ d n, worth d + n) 0 l.

(** A deck of pairs: no identity twice on the same face, every identity
    on an image piece, and one card behind each identity. *)
Record Paired (l : list GameCard) : Prop := {
  pa_keys : NoDup (pieceKey <$> l);
  pa_image : ∀ c, c ∈ l → (identity c, image) ∈ pieceKey <$> l;
  pa_data : ∀ c c', c ∈ l → c' ∈ l → identity c = identity c' → data c = data c'
}.

(** The scores are the worth of the resolved cards, and every captured
    card is a card of the deck. *)
Record Settled (w : World) : Prop := {
  st_paired : Paired (cards (app w));
  st_captured : ∀ t cb fc, (t, cb) ∈ pending w → capturedCard cb = Some fc →
                           data fc ∈ data <$> cards (app w);
  st_total :
    p1 (scores (app w)) + p2 (scores (app w)) = credited (cards (app w))
}.

(** The card of an image piece, as a list of one or no element. *)
Definition imageCard (f : CardData * CardType) : list CardData :=
  match f.2 with image => [f.1] | text => [] end.

(** ** The selection in any session *)

(** At most two identifiers are selected, and each is the [uniqueId] of
    a piece of the deck. *)
Definition Selectable (s : State) : Prop :=
  (length (flippedCards s) ≤ 2)%nat ∧
  ∀ u, u ∈ flippedCards s → u ∈ uniqueId <$> cards s.

(** The [uniqueId] of every piece is its position in the deck. *)
Definition Indexed (s : State) : Prop :=
  ∀ i c, cards s !! i = Some c → uniqueId c = Z.of_nat i.

(** * Properties *)

(** Closed goals about the sample games are settled by evaluation. *)
Ltac by_evaluation := vm_compute; reflexivity.

(** ** The click guard *)

Lemma handleCardClick_two_pending u w :
  length (flippedCards (app w)) = 2%nat → handleCardClick u w = Done w.
Proof.
  intros H. unfold handleCardClick. by rewrite bool_decide_eq_true_2.
Qed.

Lemma find_findIndex u l c :
  find u l = Some c → ∃ k, findIndex u l = Some k ∧ l !! k = Some c.
Proof.
  unfold find, findIndex. destruct (list_find _ l) as [[k c']|] eqn:E; [|done].
  simpl. intros [= ->]. exists k. split; [done|].
  by apply list_find_Some in E as (? & _).
Qed.

Lemma findIndex_find u l k :
  findIndex u l = Some k → ∃ c, find u l = Some c ∧ l !! k = Some c ∧ uniqueId c = u.
Proof.
  unfold find, findIndex. destruct (list_find _ l) as [[k' c]|] eqn:E; [|done].
  simpl. intros [= ->]. exists c. apply list_find_Some in E as (? & ? & _). done.
Qed.

Lemma find_None_findIndex u l : find u l = None → findIndex u l = None.
Proof. unfold find, findIndex. by destruct (list_find _ l). Qed.

Lemma Card_onClick_blocked card disabled onClick w :
  disabled = true ∨ isFlipped card = true ∨ isMatched card = true →
  Card_onClick card disabled onClick w = Done w.
Proof.
  unfold Card_onClick. intros [-> | [-> | ->]]; [done | |].
  - by rewrite andb_false_r.
  - by rewrite andb_false_r.
Qed.

Lemma flip_blocked u w card :
  find u (cards (app w)) = Some card →
  length (flippedCards (app w)) = 2%nat ∨
    isFlipped card = true ∨ isMatched card = true →
  flip u w = Done w.
Proof.
  intros Hf Hc. unfold flip.
  destruct (find_findIndex _ _ _ Hf) as (k & -> & Hk).
  unfold clickCard. rewrite Hk. destruct (view (app w)); try done.
  apply Card_onClick_blocked. destruct Hc as [H | H]; [left | by right].
  by apply bool_decide_eq_true_2.
Qed.

Lemma flip_unknown u w :
  find u (cards (app w)) = None → flip u w = Done w.
Proof. intros H. unfold flip. by rewrite (find_None_findIndex _ _ H). Qed.

(** ** Timers *)

Lemma advance_S n w : advance (S n) w = tick (advance n w).
Proof. reflexivity. Qed.

Lemma advance_add n m w : advance (n + m) w = advance n (advance m w).
Proof. unfold advance. apply Nat.iter_add. Qed.

Lemma tick_idle w :
  (∀ p, p ∈ pending w → (clock w + 1 < p.1)%N) →
  tick w = atClock (clock w + 1) w.
Proof.
  intros H. unfold tick, atClock.
  assert (Hl : ∀ l : list (N * Callback),
             (∀ p, p ∈ l → (clock w + 1 < p.1)%N) →
             filter (λ p, (p.1 ≤ clock w + 1)%N) l = [] ∧
             filter (λ p, ¬ (p.1 ≤ clock w + 1)%N) l = l).
  { induction l as [|p l IH]; intros Hp; [done|].
    destruct IH as [IH1 IH2]; [intros q Hq; apply Hp; by right|].
    pose proof (Hp p (list_elem_of_here _ _)).
    rewrite !filter_cons, IH1, IH2.
    destruct (decide (p.1 ≤ clock w + 1)%N); [exfalso; lia|].
    destruct (decide (¬ (p.1 ≤ clock w + 1)%N)); [done|tauto]. }
  destruct (Hl _ H) as [-> ->]. done.
Qed.

Lemma advance_idle n w :
  (∀ p, p ∈ pending w → (clock w + N.of_nat n < p.1)%N) →
  advance n w = atClock (clock w + N.of_nat n) w.
Proof.
  induction n as [|n IH]; intros H.
  - unfold advance, atClock; simpl. rewrite N.add_0_r. by destruct w.
  - assert (Hn : ∀ p, p ∈ pending w → (clock w + N.of_nat n + 1 < p.1)%N).
    { intros p Hp. specialize (H p Hp). rewrite Nat2N.inj_succ in H. lia. }
    rewrite advance_S, IH by (intros p Hp; specialize (Hn p Hp); lia).
    rewrite tick_idle by done. unfold atClock; simpl. f_equal.
    rewrite Nat2N.inj_succ. lia.
Qed.

Lemma tick_fire w cb :
  pending w = [((clock w + 1)%N, cb)] →
  tick w = runCallback cb {| app := app w; pending := []; clock := clock w + 1 |}.
Proof.
  intros H. unfold tick. rewrite H. rewrite !filter_cons, !filter_nil. simpl.
  destruct (decide (clock w + 1 ≤ clock w + 1)%N); [|exfalso; lia].
  destruct (decide (¬ (clock w + 1 ≤ clock w + 1)%N)); [tauto|done].
Qed.

(** A single pending timer runs exactly when its delay has elapsed. *)
Lemma advance_fire n w cb :
  pending w = [((clock w + N.of_nat (S n))%N, cb)] →
  advance (S n) w =
  runCallback cb {| app := app w; pending := [];
                    clock := clock w + N.of_nat (S n) |}.
Proof.
  intros H. rewrite Nat2N.inj_succ in *. rewrite advance_S, advance_idle.
  - rewrite (tick_fire _ cb); simpl.
    + do 2 f_equal. lia.
    + rewrite H. do 2 f_equal. lia.
  - intros p. rewrite H. intros ->%list_elem_of_singleton. simpl. lia.
Qed.

Lemma advance_no_timer n w :
  pending w = [] → advance n w = atClock (clock w + N.of_nat n) w.
Proof.
  intros H. apply advance_idle. rewrite H. intros p Hp. by apply elem_of_nil in Hp.
Qed.

(** ** Lookups in a deck whose cards were updated in place *)

Lemma list_find_alter_uid (f : GameCard → GameCard) u j l :
  (∀ c, uniqueId (f c) = uniqueId c) →
  list_find (λ c, uniqueId c = u) (alter f j l) =
  (λ p, (p.1, if decide (p.1 = j) then f p.2 else p.2)) <$>
    list_find (λ c, uniqueId c = u) l.
Proof.
  intros Hf. revert j. induction l as [|c l IH]; intros j; [done|].
  destruct j as [|j]; simpl.
  - rewrite Hf. destruct (decide (uniqueId c = u)); [done|].
    destruct (list_find _ l) as [[i x]|]; simpl; done.
  - destruct (decide (uniqueId c = u)); [done|].
    change (list_alter f j l) with (alter f j l). rewrite IH.
    destruct (list_find _ l) as [[i x]|]; simpl; [|done].
    f_equal. f_equal. destruct (decide (i = j)), (decide (S i = S j)); done || lia.
Qed.

Lemma findIndex_alter f u j l :
  (∀ c, uniqueId (f c) = uniqueId c) →
  findIndex u (alter f j l) = findIndex u l.
Proof.
  intros Hf. unfold findIndex. rewrite list_find_alter_uid by done.
  by destruct (list_find _ l) as [[??]|].
Qed.

Lemma find_alter_flip b u j l :
  find u (alter (withIsFlipped b) j l) =
  (λ c, if decide (findIndex u l = Some j) then withIsFlipped b c else c) <$>
    find u l.
Proof.
  unfold find, findIndex. rewrite list_find_alter_uid by done.
  destruct (list_find _ l) as [[i x]|]; simpl; [|done].
  f_equal. destruct (decide (i = j)), (decide (Some i = Some j)); done || congruence.
Qed.

(** ** What a click does *)

Lemma handleCardClick_first u w j :
  flippedCards (app w) = [] →
  findIndex u (cards (app w)) = Some j →
  handleCardClick u w =
  Done (withApp (setFlippedCards [u]
                   (setCards (λ _, flipAt j (cards (app w))) (app w))) w).
Proof.
  intros Hfl Hj. unfold handleCardClick. rewrite Hfl, Hj. simpl. done.
Qed.

Lemma handleCardClick_second u w j a c1 c2 :
  flippedCards (app w) = [a] →
  findIndex u (cards (app w)) = Some j →
  find a (cards (app w)) = Some c1 →
  find u (cards (app w)) = Some c2 →
  ∃ firstCard,
    data firstCard = data c1 ∧
    handleCardClick u w =
    Done (let cb := secondCallback (app w) a u firstCard
                      (bool_decide (cardId (data c1) = cardId (data c2))) in
          setTimeout cb.1 cb.2 (afterSecond w j a u)).
Proof.
  intros Hfl Hj Ha Hu. unfold handleCardClick. rewrite Hfl, Hj. simpl.
  rewrite !find_alter_flip, Ha, Hu. simpl.
  eexists. split; [|unfold secondCallback; case_bool_decide; simpl].
  2:{ rewrite bool_decide_eq_true_2; [reflexivity|].
      repeat case_decide; simpl; done. }
  2:{ rewrite bool_decide_eq_false_2; [reflexivity|].
      repeat case_decide; simpl; done. }
  case_decide; done.
Qed.

Lemma find_uniqueId u l c : find u l = Some c → uniqueId c = u.
Proof.
  intros H. destruct (find_findIndex _ _ _ H) as (k & Hk & _).
  destruct (findIndex_find _ _ _ Hk) as (c' & Hc' & _ & Hu). congruence.
Qed.

Lemma flip_open u w c2 :
  view (app w) = game →
  length (flippedCards (app w)) ≠ 2%nat →
  find u (cards (app w)) = Some c2 →
  isFlipped c2 = false → isMatched c2 = false →
  flip u w = handleCardClick u w.
Proof.
  intros Hv Hl Hu Hf Hm. unfold flip.
  pose proof (find_uniqueId _ _ _ Hu) as Hid.
  destruct (find_findIndex _ _ _ Hu) as (k & -> & Hk).
  unfold clickCard, Card_onClick. rewrite Hv, Hk, Hf, Hm, Hid.
  by rewrite bool_decide_eq_false_2 by done.
Qed.

(** ** A whole move: the second click and the timers it starts *)

Lemma match_flow w a u c1 c2 :
  view (app w) = game → pending w = [] →
  flippedCards (app w) = [a] →
  find a (cards (app w)) = Some c1 →
  find u (cards (app w)) = Some c2 →
  isFlipped c2 = false → isMatched c2 = false →
  cardId (data c1) = cardId (data c2) →
  ∃ j w1, findIndex u (cards (app w)) = Some j ∧ flip u w = Done w1 ∧
    Resolution w (advance 2600 w1) c1 j a u.
Proof.
  intros Hv Hp Hfl Ha Hu Hf Hm Hid.
  destruct (find_findIndex _ _ _ Hu) as (j & Hj & _).
  destruct (handleCardClick_second _ _ _ _ _ _ Hfl Hj Ha Hu) as (fc & Hfc & Hc).
  rewrite bool_decide_eq_true_2 in Hc by done. simpl in Hc.
  exists j. eexists. split; [done|]. split.
  { rewrite (flip_open u w c2); try done. by rewrite Hfl. }
  change 2600%nat with (2000 + 600)%nat. rewrite advance_add.
  rewrite (advance_fire 599 _ (HighlightCb a u fc (gameMode (app w))
             (currentPlayer (app w)) (matches (app w))))
    by (simpl; by rewrite Hp).
  rewrite (advance_fire 1999 _ (MatchCb fc (gameMode (app w))
             (currentPlayer (app w)) (matches (app w)))) by done.
  assert (Hpts : cardPoints fc = cardPoints c1)
    by (unfold cardPoints; by rewrite Hfc).
  assert (Hmk : markMatched fc = markMatched c1)
    by (unfold markMatched; by rewrite Hfc).
  split; simpl; rewrite ?Hpts, ?Hmk; try done;
    try (case_bool_decide; simpl; try done; lia).
  by rewrite <- N.add_assoc.
Qed.

Lemma mismatch_flow w a u c1 c2 :
  view (app w) = game → pending w = [] →
  flippedCards (app w) = [a] →
  find a (cards (app w)) = Some c1 →
  find u (cards (app w)) = Some c2 →
  isFlipped c2 = false → isMatched c2 = false →
  cardId (data c1) ≠ cardId (data c2) →
  ∃ j w1, findIndex u (cards (app w)) = Some j ∧ flip u w = Done w1 ∧
    Mismatch w (advance 1000 w1) j a u.
Proof.
  intros Hv Hp Hfl Ha Hu Hf Hm Hid.
  destruct (find_findIndex _ _ _ Hu) as (j & Hj & _).
  destruct (handleCardClick_second _ _ _ _ _ _ Hfl Hj Ha Hu) as (fc & Hfc & Hc).
  rewrite bool_decide_eq_false_2 in Hc by done. simpl in Hc.
  exists j. eexists. split; [done|]. split.
  { rewrite (flip_open u w c2); try done. by rewrite Hfl. }
  rewrite (advance_fire 999 _ (NoMatchCb [a; u] (gameMode (app w))))
    by (simpl; by rewrite Hp).
  split; simpl; try done;
    destruct (gameMode (app w)) eqn:E; simpl; by rewrite ?E.
Qed.

(** ** The deck builder *)

Lemma buildDeck_eq rnd allCards :
  buildDeck rnd allCards =
  imap (λ index card, withUniqueId (Z.of_nat index) card)
       (sortDeck rnd (gamePoolOf (selectedOf rnd allCards))).
Proof. reflexivity. Qed.

Lemma imap_withUniqueId_proj {B} (g : GameCard → B) (l : list GameCard) :
  (∀ u c, g (withUniqueId u c) = g c) →
  g <$> imap (λ index card, withUniqueId (Z.of_nat index) card) l = g <$> l.
Proof.
  intros Hg. apply list_eq. intros i.
  rewrite !list_lookup_fmap, list_lookup_imap.
  destruct (l !! i); simpl; [|done]. by rewrite Hg.
Qed.

Lemma buildDeck_proj {B} (g : GameCard → B) rnd allCards :
  (∀ u c, g (withUniqueId u c) = g c) →
  g <$> buildDeck rnd allCards ≡ₚ g <$> gamePoolOf (selectedOf rnd allCards).
Proof.
  intros Hg. rewrite buildDeck_eq, imap_withUniqueId_proj by done.
  by rewrite sortDeck_perm.
Qed.

Lemma length_selectedOf rnd allCards :
  (6 ≤ length allCards)%nat → length (selectedOf rnd allCards) = 6%nat.
Proof.
  intros H. unfold selectedOf. rewrite length_take.
  rewrite (Permutation_length (sortPool_perm rnd allCards)). lia.
Qed.

Lemma NoDup_selectedOf rnd allCards :
  NoDup (cardId <$> allCards) → NoDup (cardId <$> selectedOf rnd allCards).
Proof.
  intros H. unfold selectedOf.
  rewrite fmap_take. eapply sublist_NoDup; [|apply sublist_take].
  by rewrite sortPool_perm.
Qed.

Lemma length_gamePoolOf selected :
  length (gamePoolOf selected) = (2 * length selected)%nat.
Proof.
  unfold gamePoolOf. induction selected as [|d l IH]; [done|].
  rewrite bind_cons. simpl. rewrite IH. lia.
Qed.

Lemma length_buildDeck rnd allCards :
  (6 ≤ length allCards)%nat → length (buildDeck rnd allCards) = 12%nat.
Proof.
  intros H. rewrite buildDeck_eq, length_imap.
  rewrite (Permutation_length (sortDeck_perm rnd _)), length_gamePoolOf.
  by rewrite length_selectedOf.
Qed.

Lemma identity_gamePoolOf selected x :
  x ∈ identity <$> gamePoolOf selected ↔ x ∈ cardId <$> selected.
Proof.
  unfold gamePoolOf. induction selected as [|d l IH]; [done|].
  rewrite bind_cons, fmap_app, elem_of_app, IH, !fmap_cons, fmap_nil.
  rewrite !elem_of_cons, elem_of_nil. unfold identity. simpl. intuition.
Qed.

Lemma pieceKey_gamePoolOf selected x t :
  (x, t) ∈ pieceKey <$> gamePoolOf selected ↔ x ∈ cardId <$> selected.
Proof.
  unfold gamePoolOf. induction selected as [|d l IH].
  { split; simpl; intros H; by apply elem_of_nil in H. }
  rewrite bind_cons, fmap_app, elem_of_app, IH, !fmap_cons, fmap_nil.
  rewrite !elem_of_cons, elem_of_nil. unfold pieceKey, identity. simpl.
  destruct t; intuition congruence.
Qed.

Lemma NoDup_pieceKey_gamePoolOf selected :
  NoDup (cardId <$> selected) → NoDup (pieceKey <$> gamePoolOf selected).
Proof.
  unfold gamePoolOf. induction selected as [|d l IH]; [constructor|].
  rewrite fmap_cons. intros [Hd Hl]%NoDup_cons.
  rewrite bind_cons, fmap_app, !fmap_cons, fmap_nil. simpl.
  apply NoDup_cons. split; [|apply NoDup_cons; split].
  - rewrite elem_of_cons. intros [[=]|H].
    by apply (pieceKey_gamePoolOf l (cardId d) image) in H.
  - intros H. by apply (pieceKey_gamePoolOf l (cardId d) text) in H.
  - by apply IH.
Qed.

(** In a list without repeated keys, a key that occurs occurs once. *)
Lemma filter_key_once {A B} `{EqDecision B} (f : A → B) (l : list A) y :
  NoDup (f <$> l) → y ∈ f <$> l →
  length (filter (λ x, f x = y) l) = 1%nat.
Proof.
  induction l as [|x l IH]; simpl.
  - intros _ H. by apply elem_of_nil in H.
  - rewrite NoDup_cons, elem_of_cons, filter_cons. intros [Hx Hl] Hy.
    destruct (decide (f x = y)) as [<-|Hne].
    + simpl. f_equal. apply length_zero_iff_nil.
      apply elem_of_nil_inv. intros z [Hz Hin]%list_elem_of_filter.
      apply Hx. rewrite <- Hz. by apply list_elem_of_fmap_2.
    + apply IH; [done|]. destruct Hy as [->|Hy]; done.
Qed.

Lemma NoDup_pieceKey_buildDeck rnd allCards :
  NoDup (cardId <$> allCards) → NoDup (pieceKey <$> buildDeck rnd allCards).
Proof.
  intros H. rewrite (buildDeck_proj pieceKey) by done.
  by apply NoDup_pieceKey_gamePoolOf, NoDup_selectedOf.
Qed.

Lemma identity_buildDeck rnd allCards x :
  x ∈ identity <$> buildDeck rnd allCards ↔
  x ∈ cardId <$> selectedOf rnd allCards.
Proof.
  rewrite (buildDeck_proj identity) by done. apply identity_gamePoolOf.
Qed.

Lemma pieceKey_buildDeck rnd allCards x t :
  (x, t) ∈ pieceKey <$> buildDeck rnd allCards ↔
  x ∈ cardId <$> selectedOf rnd allCards.
Proof.
  rewrite (buildDeck_proj pieceKey) by done. apply pieceKey_gamePoolOf.
Qed.

Lemma buildDeck_lookup rnd allCards i c :
  buildDeck rnd allCards !! i = Some c →
  uniqueId c = Z.of_nat i ∧ isFlipped c = false ∧ isMatched c = false.
Proof.
  rewrite buildDeck_eq, list_lookup_imap.
  destruct (sortDeck rnd _ !! i) as [c'|] eqn:E; simpl; [|done].
  intros [= <-]. split; [done|].
  apply list_elem_of_lookup_2 in E. rewrite sortDeck_perm in E.
  unfold gamePoolOf in E. apply list_elem_of_bind in E as (d & Hc & _).
  apply elem_of_cons in Hc as [->|Hc]; [done|].
  by apply list_elem_of_singleton in Hc as ->.
Qed.

(** C5: a deck built from at least six definitions with pairwise
    distinct identities has exactly 12 pieces and exactly 6 distinct
    identities; every identity of the deck is carried by exactly one
    Image piece and exactly one Text piece; and the [uniqueId] of each
    piece is its position 0..11 in the deck. *)
Theorem buildDeck_twelve_pieces_six_pairs rnd allCards :
  (6 ≤ length allCards)%nat →
  NoDup (cardId <$> allCards) →
  let deck := buildDeck rnd allCards in
  length deck = 12%nat ∧
  length (remove_dups (identity <$> deck)) = 6%nat ∧
  (∀ c, c ∈ deck →
     length (filter (λ c', pieceKey c' = (identity c, image)) deck) = 1%nat ∧
     length (filter (λ c', pieceKey c' = (identity c, text)) deck) = 1%nat) ∧
  (∀ i c, deck !! i = Some c → uniqueId c = Z.of_nat i ∧ (i < 12)%nat).
Proof.
  intros Hlen Hnd deck.
  pose proof (length_buildDeck rnd allCards Hlen) as H12.
  pose proof (NoDup_pieceKey_buildDeck rnd allCards Hnd) as Hkeys.
  split_and!.
  - done.
  - rewrite <- (length_selectedOf rnd allCards Hlen).
    rewrite <- (length_fmap cardId (selectedOf rnd allCards)).
    apply Permutation_length, NoDup_Permutation.
    + apply NoDup_remove_dups.
    + by apply NoDup_selectedOf.
    + intros x. rewrite elem_of_remove_dups. apply identity_buildDeck.
  - intros c Hc.
    assert (identity c ∈ cardId <$> selectedOf rnd allCards) as Hin.
    { apply identity_buildDeck. by apply list_elem_of_fmap_2. }
    split; apply filter_key_once; try done; by apply pieceKey_buildDeck.
  - intros i c Hi. split.
    + by apply buildDeck_lookup in Hi as [? _].
    + apply lookup_lt_Some in Hi. fold deck in H12. lia.
Qed.

Lemma sampleCatalog_distinct : NoDup (cardId <$> sampleCatalog).
Proof. apply (bool_decide_unpack _). by vm_compute. Qed.

Lemma buildDeck_twelve_pieces_six_pairs_witness :
  (6 ≤ length sampleCatalog)%nat ∧
  NoDup (cardId <$> sampleCatalog) ∧
  length (buildDeck reverseOrder sampleCatalog) = 12%nat ∧
  length (remove_dups (identity <$> buildDeck reverseOrder sampleCatalog)) = 6%nat.
Proof.
  assert (H6 : (6 ≤ length sampleCatalog)%nat) by (simpl; lia).
  pose proof sampleCatalog_distinct as Hd.
  destruct (buildDeck_twelve_pieces_six_pairs reverseOrder sampleCatalog H6 Hd)
    as (H1 & H2 & _).
  done.
Defined.

(** ** Starting a game *)

(** C4: [initGame] takes its alerting exit, which opens the
    administration panel (or its password prompt) and leaves the session
    as it was, exactly when fewer than six definitions were fetched; with
    six or more it always starts a game on a fresh deck of 12 pieces. *)
Theorem initGame_six_cards rnd mode allCards w :
  ((length allCards < 6)%nat ↔
     ∃ w', initGame rnd mode allCards w = NeedSixCards w') ∧
  ((6 ≤ length allCards)%nat ↔
     ∃ w', initGame rnd mode allCards w = Started w') ∧
  match initGame rnd mode allCards w with
  | NeedSixCards w' =>
      session (app w') = session (app w) ∧
      pending w' = pending w ∧
      (if isAdminAuth (app w)
       then view (app w') = admin
       else view (app w') = view (app w) ∧ showPassModal (app w') = true)
  | Started w' =>
      view (app w') = game ∧
      session (app w') =
        (mode, Player1, {| p1 := 0; p2 := 0 |}, buildDeck rnd allCards,
         [], 0, 0, false) ∧
      length (cards (app w')) = 12%nat
  end.
Proof.
  unfold initGame. case_bool_decide as Hlen.
  - split; [|split].
    + split; [eauto | done].
    + split; [lia | by intros [? [=]]].
    + unfold handleAdminAccess. by destruct (isAdminAuth (app w)).
  - split; [|split].
    + split; [done | by intros [? [=]]].
    + split; [eauto | lia].
    + simpl. split_and!; try done. apply length_buildDeck. lia.
Qed.

(** ** The invariant of a play-through *)

Lemma uniqueId_inj l c c' :
  NoDup (uniqueId <$> l) → c ∈ l → c' ∈ l →
  uniqueId c = uniqueId c' → c = c'.
Proof.
  intros Hnd [i Hi]%list_elem_of_lookup [j Hj]%list_elem_of_lookup Hu.
  assert (i = j) as ->; [|congruence].
  eapply NoDup_lookup; [exact Hnd| |];
    rewrite list_lookup_fmap; [by rewrite Hi | by rewrite Hj, Hu].
Qed.

Lemma findIndex_lookup l k c :
  NoDup (uniqueId <$> l) → l !! k = Some c →
  findIndex (uniqueId c) l = Some k.
Proof.
  intros Hnd Hk. unfold findIndex.
  assert (list_find (λ c', uniqueId c' = uniqueId c) l = Some (k, c)) as ->; [|done].
  apply list_find_Some. split_and!; [done..|].
  intros j y Hj Hlt Hy. assert (j = k); [|lia].
  eapply NoDup_lookup; [exact Hnd| |];
    rewrite list_lookup_fmap; [rewrite Hj; simpl; by rewrite Hy | by rewrite Hk].
Qed.

Lemma find_elem_of l c :
  NoDup (uniqueId <$> l) → c ∈ l → find (uniqueId c) l = Some c.
Proof.
  intros Hnd [k Hk]%list_elem_of_lookup.
  destruct (findIndex_find _ _ _ (findIndex_lookup _ _ _ Hnd Hk))
    as (c' & Hf & Hk' & _). congruence.
Qed.

Lemma elem_of_flipAt c' k l :
  c' ∈ flipAt k l →
  c' ∈ l ∨ ∃ c, l !! k = Some c ∧ c' = withIsFlipped true c.
Proof.
  unfold flipAt. intros [i Hi]%list_elem_of_lookup.
  destruct (decide (i = k)) as [->|Hne].
  - rewrite list_lookup_alter_eq in Hi.
    destruct (l !! k) as [c|]; simpl in Hi; [|done].
    right. exists c. split; congruence.
  - rewrite list_lookup_alter_ne in Hi by done.
    left. by eapply list_elem_of_lookup_2.
Qed.

Lemma elem_of_flipAt_other c k l ck :
  c ∈ l → l !! k = Some ck → c ≠ ck → c ∈ flipAt k l.
Proof.
  unfold flipAt. intros [i Hi]%list_elem_of_lookup Hk Hne.
  apply list_elem_of_lookup. exists i.
  rewrite list_lookup_alter_ne; [done|]. intros ->. congruence.
Qed.

Lemma elem_of_flipAt_here k l ck :
  l !! k = Some ck → withIsFlipped true ck ∈ flipAt k l.
Proof.
  unfold flipAt. intros Hk. apply list_elem_of_lookup. exists k.
  by rewrite list_lookup_alter_eq, Hk.
Qed.

Lemma fmap_alter_proj {A B} (g : A → B) (f : A → A) k (l : list A) :
  (∀ c, g (f c) = g c) → g <$> alter f k l = g <$> l.
Proof.
  intros Hg. apply list_eq. intros i. rewrite !list_lookup_fmap.
  destruct (decide (i = k)) as [->|Hne].
  - rewrite list_lookup_alter_eq. destruct (l !! k); simpl; [|done].
    by rewrite Hg.
  - by rewrite list_lookup_alter_ne.
Qed.

Lemma fmap_fmap_proj {A B} (g : A → B) (f : A → A) (l : list A) :
  (∀ c, g (f c) = g c) → g <$> (f <$> l) = g <$> l.
Proof.
  intros Hg. rewrite <- list_fmap_compose. apply list_fmap_ext.
  intros i c _. apply Hg.
Qed.

Lemma uniqueId_flipAt k l : uniqueId <$> flipAt k l = uniqueId <$> l.
Proof. by apply fmap_alter_proj. Qed.

Lemma clickCard_effect k w :
  Inv w → ∃ w', clickCard k w = Done w' ∧ ClickEffect k w w'.
Proof.
  intros HI. unfold clickCard. rewrite (inv_view _ HI).
  destruct (cards (app w) !! k) as [c|] eqn:Hk;
    [|eexists; split; [done | constructor]].
  unfold Card_onClick.
  case_bool_decide as Hlen; simpl; [eexists; split; [done | constructor]|].
  destruct (isFlipped c) eqn:Hf; simpl; [eexists; split; [done | constructor]|].
  destruct (isMatched c) eqn:Hm; simpl; [eexists; split; [done | constructor]|].
  pose proof (findIndex_lookup _ _ _ (inv_uids _ HI) Hk) as Hidx.
  pose proof (inv_timers _ HI) as Ht. unfold timersFor in Ht.
  destruct (flippedCards (app w)) as [|a [|b [|? ?]]] eqn:Hfl; try done.
  - eexists. split; [by apply handleCardClick_first|].
    by apply click_first.
  - destruct (inv_sel _ HI a) as (c1 & Hc1 & Hu1 & Hup1);
      [rewrite Hfl; apply list_elem_of_here|].
    assert (find a (cards (app w)) = Some c1) as Ha.
    { rewrite <- Hu1. apply find_elem_of; [apply (inv_uids _ HI) | done]. }
    assert (find (uniqueId c) (cards (app w)) = Some c) as Hu.
    { apply find_elem_of; [apply (inv_uids _ HI)|].
      by eapply list_elem_of_lookup_2. }
    destruct (handleCardClick_second _ _ _ _ _ _ Hfl Hidx Ha Hu)
      as (fc & Hfc & ->).
    eexists. split; [done|]. by eapply click_second.
Qed.

Lemma ClickEffect_Inv k w w' : Inv w → ClickEffect k w w' → Inv w'.
Proof.
  intros HI [|c Hk Hf Hm Hfl|c a c1 fc Hk Hf Hm Hfl Hc1 Hu1 Hup1 Hfc]; [done|..].
  - pose proof (inv_timers _ HI) as Ht. unfold timersFor in Ht.
    rewrite Hfl in Ht.
    split; simpl.
    + apply (inv_view _ HI).
    + rewrite uniqueId_flipAt. apply (inv_uids _ HI).
    + intros c' [Hc'|(c0 & Hc0 & ->)]%elem_of_flipAt Hup.
      * pose proof (inv_up _ HI c' Hc' Hup) as Hin. rewrite Hfl in Hin.
        by apply elem_of_nil in Hin.
      * simpl. assert (c0 = c) as -> by congruence. apply list_elem_of_here.
    + intros u ->%list_elem_of_singleton. exists (withIsFlipped true c).
      split; [by apply elem_of_flipAt_here|]. by split.
    + apply NoDup_singleton.
    + unfold timersFor. simpl. done.
  - pose proof (inv_timers _ HI) as Ht. unfold timersFor in Ht.
    rewrite Hfl in Ht.
    assert (c ∈ cards (app w)) as Hc by by eapply list_elem_of_lookup_2.
    assert (c1 ≠ c) as Hne.
    { intros ->. destruct Hup1 as [Hup1 _]. congruence. }
    assert (a ≠ uniqueId c) as Hau.
    { intros Heq. apply Hne. apply (uniqueId_inj (cards (app w))); try done.
      - apply (inv_uids _ HI).
      - congruence. }
    assert (∀ c', c' ∈ flipAt k (cards (app w)) →
                  uniqueId c' ∈ [a; uniqueId c] →
                  identity c1 = identity c → identity c' = identity fc) as Hcap.
    { intros c' Hc' Hin Hid.
      assert (identity fc = identity c1) as -> by (unfold identity; by rewrite Hfc).
      apply elem_of_flipAt in Hc' as [Hc'|(c0 & Hc0 & ->)].
      - apply elem_of_cons in Hin as [Hin|Hin];
          [|apply list_elem_of_singleton in Hin].
        + f_equal. apply (uniqueId_inj (cards (app w))); try done.
          * apply (inv_uids _ HI).
          * congruence.
        + rewrite Hid. f_equal.
          apply (uniqueId_inj (cards (app w))); try done.
          apply (inv_uids _ HI).
      - assert (c0 = c) as -> by congruence. done. }
    assert (∀ c', c' ∈ flipAt k (cards (app w)) → faceUp c' →
                  uniqueId c' ∈ [a; uniqueId c]) as Hup.
    { intros c' [Hc'|(c0 & Hc0 & ->)]%elem_of_flipAt Hup.
      - pose proof (inv_up _ HI c' Hc' Hup) as Hin. rewrite Hfl in Hin.
        apply list_elem_of_singleton in Hin as ->. apply list_elem_of_here.
      - simpl. assert (c0 = c) as -> by congruence.
        apply list_elem_of_further, list_elem_of_here. }
    assert (∀ u, u ∈ [a; uniqueId c] →
              ∃ c', c' ∈ flipAt k (cards (app w)) ∧ uniqueId c' = u ∧ faceUp c')
      as Hsel.
    { intros u [->|Hu]%elem_of_cons;
        [|apply list_elem_of_singleton in Hu as ->].
      - exists c1. split; [by eapply elem_of_flipAt_other|done].
      - exists (withIsFlipped true c).
        split; [by apply elem_of_flipAt_here|]. by split. }
    assert (NoDup [a; uniqueId c]) as Hnd.
    { apply NoDup_cons. split; [by rewrite list_elem_of_singleton|].
      apply NoDup_singleton. }
    cbv zeta. unfold secondCallback.
    destruct (bool_decide (identity c1 = identity c)) eqn:Hid;
      [apply bool_decide_eq_true in Hid|];
      (split; simpl;
       [apply (inv_view _ HI)
       |rewrite uniqueId_flipAt; apply (inv_uids _ HI)
       |done|done|done|]);
      unfold timersFor; simpl; rewrite Ht; simpl.
    + eexists _, _. split; [done|]. split; [lia|].
      split_and!; try done. intros c' Hc' Hin. by apply Hcap.
    + eexists _, _. split; [done|]. split; [lia|]. done.
Qed.

Lemma clickCard_Inv k w :
  Inv w → ∃ w', clickCard k w = Done w' ∧ Inv w'.
Proof.
  intros HI. destruct (clickCard_effect k w HI) as (w' & Hc & He).
  exists w'. split; [done|]. by eapply ClickEffect_Inv.
Qed.

Lemma tick_effect w : Inv w → TickEffect w (tick w).
Proof.
  intros HI. pose proof (inv_timers _ HI) as Ht. unfold timersFor in Ht.
  assert (pending w = [] → TickEffect w (tick w)) as Hidle.
  { intros Hp. rewrite tick_idle; [apply tick_wait|]; rewrite Hp;
      intros p Hin; by apply elem_of_nil in Hin. }
  destruct (flippedCards (app w)) as [|a [|b [|? ?]]] eqn:Hfl; try done; auto.
  destruct Ht as (t & cb & Hp & Hlt & Hcap).
  destruct (decide (t = clock w + 1)%N) as [->|Hne].
  - rewrite (tick_fire _ cb) by done. by eapply tick_run.
  - assert (∀ p, p ∈ pending w → (clock w + 1 < p.1)%N) as Hw.
    { rewrite Hp. intros p ->%list_elem_of_singleton. simpl. lia. }
    rewrite tick_idle by done. by apply tick_wait.
Qed.

Lemma uniqueId_highlightPair a b c : uniqueId (highlightPair a b c) = uniqueId c.
Proof. unfold highlightPair. by destruct (_ || _). Qed.

Lemma faceUp_highlightPair a b c : faceUp (highlightPair a b c) ↔ faceUp c.
Proof. unfold highlightPair. by destruct (_ || _). Qed.

Lemma identity_highlightPair a b c : identity (highlightPair a b c) = identity c.
Proof. unfold highlightPair. by destruct (_ || _). Qed.

Lemma uniqueId_markMatched fc c : uniqueId (markMatched fc c) = uniqueId c.
Proof. unfold markMatched. by case_bool_decide. Qed.

Lemma uniqueId_flipBack nf c : uniqueId (flipBack nf c) = uniqueId c.
Proof. unfold flipBack. by case_bool_decide. Qed.

Lemma faceUp_markMatched fc c :
  faceUp (markMatched fc c) → faceUp c ∧ identity c ≠ identity fc.
Proof.
  unfold markMatched, identity, faceUp. case_bool_decide; simpl; [|done].
  by intros [_ ?].
Qed.

Lemma faceUp_flipBack nf c :
  faceUp (flipBack nf c) → faceUp c ∧ uniqueId c ∉ nf.
Proof.
  unfold flipBack, faceUp. case_bool_decide; simpl; [|done].
  by intros [? _].
Qed.

Lemma TickEffect_Inv w w' : Inv w → TickEffect w w' → Inv w'.
Proof.
  intros HI [Hw|a b cb Hfl Hp Hcap].
  - destruct HI as [Hv Hu Hup Hsel Hnd Ht]. split; try done.
    unfold timersFor in *. simpl.
    destruct (flippedCards (app w)) as [|? [|? [|? ?]]]; try done.
    destruct Ht as (t & cb & Hp & Hlt & Hcap). exists t, cb.
    split_and!; try done. apply (Hw (t, cb)). rewrite Hp. apply list_elem_of_here.
  - destruct HI as [Hv Hu Hup Hsel Hnd _].
    destruct cb as [f s fc gm cp m|fc gm cp m|nf gm]; simpl in *.
    + destruct Hcap as (-> & -> & -> & -> & -> & Hid).
      split; simpl; try done.
      * by rewrite fmap_fmap_proj by apply uniqueId_highlightPair.
      * intros c' (c & -> & Hc)%list_elem_of_fmap Hc'.
        rewrite uniqueId_highlightPair. apply Hup; [done|].
        by apply faceUp_highlightPair in Hc'.
      * intros u Hin. destruct (Hsel u Hin) as (c & Hc & Hcu & Hcf).
        exists (highlightPair a b c). split_and!.
        -- by apply list_elem_of_fmap_2.
        -- by rewrite uniqueId_highlightPair.
        -- by apply faceUp_highlightPair.
      * unfold timersFor. simpl. rewrite Hfl. eexists _, _.
        split; [done|]. split; [lia|]. split_and!; try done.
        intros c' (c & -> & Hc)%list_elem_of_fmap.
        rewrite uniqueId_highlightPair, identity_highlightPair. by apply Hid.
    + destruct Hcap as (-> & -> & -> & Hid).
      assert (∀ c', c' ∈ markMatched fc <$> cards (app w) → ¬ faceUp c') as Hno.
      { intros c' (c & -> & Hc)%list_elem_of_fmap [Hc' Hne]%faceUp_markMatched.
        apply Hne, Hid; [done|]. rewrite <- Hfl. by apply Hup. }
      case_bool_decide; (split; simpl; try done;
        [ by rewrite fmap_fmap_proj by apply uniqueId_markMatched
        | intros c' Hc' Hf; by destruct (Hno c' Hc')
        | intros u Hin; by apply elem_of_nil in Hin
        | constructor ]).
    + destruct Hcap as (-> & ->).
      assert (∀ c', c' ∈ flipBack [a; b] <$> cards (app w) → ¬ faceUp c') as Hno.
      { intros c' (c & -> & Hc)%list_elem_of_fmap [Hc' Hne]%faceUp_flipBack.
        apply Hne. rewrite <- Hfl. by apply Hup. }
      destruct (gameMode (app w)) eqn:Hgm; (split; simpl; try done;
        [ by rewrite fmap_fmap_proj by apply uniqueId_flipBack
        | intros c' Hc' Hf; by destruct (Hno c' Hc')
        | intros u Hin; by apply elem_of_nil in Hin
        | constructor ]).
Qed.

Lemma tick_Inv w : Inv w → Inv (tick w).
Proof. intros HI. eapply TickEffect_Inv; [done|]. by apply tick_effect. Qed.

Lemma advance_Inv n w : Inv w → Inv (advance n w).
Proof.
  intros HI. induction n as [|n IH]; [done|].
  rewrite advance_S. by apply tick_Inv.
Qed.

Lemma step_Inv e w : Inv w → ∃ w', step e w = Done w' ∧ Inv w'.
Proof.
  intros HI. destruct e as [k|ms]; simpl.
  - by apply clickCard_Inv.
  - eexists. split; [done|]. by apply advance_Inv.
Qed.

Lemma run_Inv es w : Inv w → Inv (run es w).
Proof.
  revert w. induction es as [|e es IH]; intros w HI; [done|].
  simpl. destruct (step_Inv e w HI) as (w' & -> & HI'). by apply IH.
Qed.

(** In a play-through no click throws. *)
Lemma click_never_throws w k : Inv w → ∃ w', clickCard k w = Done w'.
Proof.
  intros HI. destruct (clickCard_Inv k w HI) as (w' & Hc & _). eauto.
Qed.

Lemma Inv_initGame rnd mode allCards w0 :
  pending w0 = [] → (6 ≤ length allCards)%nat →
  Inv (init_world (initGame rnd mode allCards w0)).
Proof.
  intros Hp H. unfold initGame.
  rewrite bool_decide_eq_false_2 by lia. split; simpl; try done.
  - apply NoDup_alt. intros i j u.
    rewrite !list_lookup_fmap.
    destruct (buildDeck _ _ !! i) as [ci|] eqn:Ei; simpl; [|done].
    destruct (buildDeck _ _ !! j) as [cj|] eqn:Ej; simpl; [|done].
    apply buildDeck_lookup in Ei as [Ei _], Ej as [Ej _].
    intros [= <-] [= Hu]. lia.
  - intros c [i Hi]%list_elem_of_lookup [Hf _].
    apply buildDeck_lookup in Hi as (_ & Hi & _). congruence.
  - intros u Hu. by apply elem_of_nil in Hu.
  - constructor.
Qed.

Lemma Inv_selection_length w : Inv w → (length (flippedCards (app w)) ≤ 2)%nat.
Proof.
  intros HI. pose proof (inv_timers _ HI) as Ht. unfold timersFor in Ht.
  destruct (flippedCards (app w)) as [|? [|? [|? ?]]]; simpl; done || lia.
Qed.

Lemma Inv_faceUp_count w :
  Inv w → (length (filter faceUp (cards (app w))) ≤ 2)%nat.
Proof.
  intros HI. etrans; [|by apply Inv_selection_length].
  rewrite <- (length_fmap uniqueId). apply submseteq_length, NoDup_submseteq.
  - eapply sublist_NoDup; [apply (inv_uids _ HI)|].
    apply fmap_sublist, sublist_filter.
  - intros u (c & -> & [Hup Hc]%list_elem_of_filter)%list_elem_of_fmap.
    by apply (inv_up _ HI).
Qed.



(** ** Counting resolved pairs *)

Lemma countIf_fmap {A B} (p : B → bool) (f : A → B) l :
  countIf p (f <$> l) = countIf (p ∘ f) l.
Proof. induction l as [|x l IH]; csimpl; [done|]. by rewrite IH. Qed.

Lemma countIf_ext {A} (p q : A → bool) l :
  (∀ x, x ∈ l → p x = q x) → countIf p l = countIf q l.
Proof.
  induction l as [|x l IH]; intros H; simpl; [done|].
  rewrite (H x) by apply list_elem_of_here.
  rewrite IH; [done|]. intros y Hy. apply H. by right.
Qed.

Lemma countIf_app {A} (p : A → bool) l1 l2 :
  countIf p (l1 ++ l2) = (countIf p l1 + countIf p l2)%nat.
Proof. induction l1 as [|x l IH]; simpl; [done|]. rewrite IH. lia. Qed.

Lemma countIf_Permutation {A} (p : A → bool) l1 l2 :
  l1 ≡ₚ l2 → countIf p l1 = countIf p l2.
Proof. induction 1; simpl; lia. Qed.

Lemma countIf_le {A} (p : A → bool) l : (countIf p l ≤ length l)%nat.
Proof. induction l as [|x l IH]; simpl; [done|]. destruct (p x); lia. Qed.

Lemma countIf_all {A} (p : A → bool) l :
  countIf p l = length l → ∀ x, x ∈ l → p x = true.
Proof.
  induction l as [|x l IH]; simpl; intros H y Hy.
  - by apply elem_of_nil in Hy.
  - pose proof (countIf_le p l).
    destruct (p x) eqn:Hx; [|lia].
    apply elem_of_cons in Hy as [->|Hy]; [done|]. apply IH; [lia|done].
Qed.

Lemma countIf_none {A} (p : A → bool) l :
  (∀ x, x ∈ l → p x = false) → countIf p l = 0%nat.
Proof.
  induction l as [|x l IH]; intros H; simpl; [done|].
  rewrite (H x) by apply list_elem_of_here.
  apply IH. intros y Hy. apply H. by right.
Qed.

Lemma countIf_lt {A} (p : A → bool) l x :
  x ∈ l → p x = false → (countIf p l < length l)%nat.
Proof.
  induction l as [|y l IH]; simpl; intros Hx Hp.
  - by apply elem_of_nil in Hx.
  - pose proof (countIf_le p l).
    apply elem_of_cons in Hx as [<-|Hx].
    + rewrite Hp. lia.
    + specialize (IH Hx Hp). destruct (p y); lia.
Qed.

Lemma shape_markMatched fc (l : list GameCard) :
  shape <$> (markMatched fc <$> l) = mark (identity fc) <$> (shape <$> l).
Proof.
  rewrite <- !list_fmap_compose. apply list_fmap_ext. intros i c _. simpl.
  unfold markMatched, mark, shape, identity. simpl. by case_bool_decide.
Qed.

Lemma countIf_mark x S :
  countIf snd (mark x <$> S) =
  (countIf snd S + countIf (λ p, sameIdentity x p && negb p.2) S)%nat.
Proof.
  induction S as [|[y b] S IH]; csimpl; [done|]. rewrite IH.
  unfold mark, sameIdentity. simpl. case_bool_decide; destruct b; simpl; lia.
Qed.

Lemma PairsShape_mark S m x :
  PairsShape S m → (x, false) ∈ S → PairsShape (mark x <$> S) (m + 1).
Proof.
  intros [Htwo Huni Hcnt] Hx.
  assert (∀ p, (mark x p).1 = p.1) as Hfst.
  { intros p. unfold mark. by case_bool_decide. }
  split.
  - intros p' (p & -> & Hp)%list_elem_of_fmap.
    rewrite countIf_fmap, Hfst.
    rewrite (countIf_ext _ (sameIdentity p.1)); [by apply Htwo|].
    intros q _. unfold sameIdentity. simpl. by rewrite Hfst.
  - intros p' q' (p & -> & Hp)%list_elem_of_fmap (q & -> & Hq)%list_elem_of_fmap.
    rewrite !Hfst. intros Heq. unfold mark. rewrite Heq.
    case_bool_decide; [done|]. by apply Huni.
  - rewrite countIf_mark, Nat2Z.inj_add.
    rewrite (countIf_ext (λ p, sameIdentity x p && negb p.2) (sameIdentity x)).
    + specialize (Htwo _ Hx). change ((x, false).1) with x in Htwo. lia.
    + intros q Hq. unfold sameIdentity. case_bool_decide as Hqx; [|done].
      simpl. by rewrite (Huni q (x, false) Hq Hx Hqx).
Qed.

Lemma PairsShape_bound S m x :
  PairsShape S m → length S = 12%nat → (x, false) ∈ S → m < 6.
Proof.
  intros [_ _ Hcnt] Hlen Hx.
  pose proof (countIf_lt snd S (x, false) Hx eq_refl). lia.
Qed.

Lemma PairsShape_complete S p :
  PairsShape S 6 → length S = 12%nat → p ∈ S → p.2 = true.
Proof.
  intros [_ _ Hcnt] Hlen. apply countIf_all.
  pose proof (countIf_le snd S). lia.
Qed.

Lemma count_identity_gamePoolOf selected x :
  x ∈ cardId <$> selected →
  (2 ≤ countIf (λ y, bool_decide (y = x))
         (identity <$> gamePoolOf selected))%nat.
Proof.
  unfold gamePoolOf. induction selected as [|d l IH].
  { intros H. by apply elem_of_nil in H. }
  rewrite fmap_cons. intros Hx.
  rewrite bind_cons, fmap_app, countIf_app. simpl.
  change (identity (newGameCard d image)) with (cardId d).
  change (identity (newGameCard d text)) with (cardId d).
  case_bool_decide as Hxd; [lia|].
  apply elem_of_cons in Hx as [->|Hx]; [done|]. specialize (IH Hx). lia.
Qed.

Lemma shape_buildDeck rnd allCards :
  shape <$> buildDeck rnd allCards =
  (λ x, (x, false)) <$> (identity <$> buildDeck rnd allCards).
Proof.
  rewrite <- list_fmap_compose. apply list_fmap_ext. intros i c Hi. simpl.
  apply buildDeck_lookup in Hi as (_ & _ & Hm). unfold shape. by rewrite Hm.
Qed.

Lemma InvPairs_initGame rnd mode allCards w0 :
  (6 ≤ length allCards)%nat →
  InvPairs (init_world (initGame rnd mode allCards w0)).
Proof.
  intros H. unfold initGame. rewrite bool_decide_eq_false_2 by lia.
  split; simpl; [by apply length_buildDeck| |done].
  rewrite shape_buildDeck. split.
  - intros p (x & -> & Hx)%list_elem_of_fmap. simpl.
    rewrite countIf_fmap.
    rewrite (countIf_ext _ (λ y, bool_decide (y = x))) by done.
    rewrite (countIf_Permutation _ _ _ (buildDeck_proj identity rnd allCards
               (λ _ _, eq_refl))).
    apply count_identity_gamePoolOf. by apply identity_buildDeck.
  - by intros p q (x & -> & _)%list_elem_of_fmap (y & -> & _)%list_elem_of_fmap.
  - rewrite countIf_none; [done|].
    by intros p (x & -> & _)%list_elem_of_fmap.
Qed.

Lemma shape_flipAt k l : shape <$> flipAt k l = shape <$> l.
Proof. by apply fmap_alter_proj. Qed.

Lemma shape_highlightPair a b (l : list GameCard) :
  shape <$> (highlightPair a b <$> l) = shape <$> l.
Proof.
  apply fmap_fmap_proj. intros c. unfold highlightPair. by destruct (_ || _).
Qed.

Lemma shape_flipBack nf (l : list GameCard) :
  shape <$> (flipBack nf <$> l) = shape <$> l.
Proof.
  apply fmap_fmap_proj. intros c. unfold flipBack. by case_bool_decide.
Qed.

Lemma ClickEffect_InvPairs k w w' :
  InvPairs w → ClickEffect k w w' → InvPairs w'.
Proof.
  intros [Hlen Hps Hwon] [|c Hk Hf Hm Hfl|c a c1 fc Hk Hf Hm Hfl Hc1 Hu1 Hup1 Hfc];
    [done|..].
  - split; simpl; [|by rewrite shape_flipAt|done].
    unfold flipAt. by rewrite length_alter.
  - cbv zeta. unfold secondCallback.
    destruct (bool_decide (identity c1 = identity c));
      (split; simpl; [|by rewrite shape_flipAt|done]);
      unfold flipAt; by rewrite length_alter.
Qed.

Lemma TickEffect_InvPairs w w' :
  Inv w → InvPairs w → TickEffect w w' → InvPairs w'.
Proof.
  intros HI [Hlen Hps Hwon] [Hw|a b cb Hfl Hp Hcap]; [done|].
  destruct cb as [f s fc gm cp m|fc gm cp m|nf gm]; simpl in *.
  - split; simpl; [by rewrite length_fmap|by rewrite shape_highlightPair|done].
  - destruct Hcap as (-> & -> & -> & Hid).
    destruct (inv_sel _ HI a) as (c & Hc & Hcu & _ & Hcm);
      [rewrite Hfl; apply list_elem_of_here|].
    assert ((identity fc, false) ∈ shape <$> cards (app w)) as Hin.
    { apply list_elem_of_fmap. exists c. split; [|done].
      unfold shape. rewrite Hcm. f_equal. symmetry. apply Hid; [done|].
      rewrite Hcu. apply list_elem_of_here. }
    assert (matches (app w) < 6) as Hlt.
    { eapply PairsShape_bound; [done| |done]. by rewrite length_fmap. }
    assert (PairsShape (shape <$> (markMatched fc <$> cards (app w)))
              (matches (app w) + 1)) as Hps'.
    { rewrite shape_markMatched. by apply PairsShape_mark. }
    destruct (bool_decide (matches (app w) + 1 = 6)) eqn:H6;
      (split; simpl; [by rewrite length_fmap|done|]).
    + done.
    + rewrite Hwon, H6. apply bool_decide_eq_false_2. lia.
  - destruct gm; (split; simpl;
      [by rewrite length_fmap|by rewrite shape_flipBack|done]).
Qed.

Lemma run_InvPairs es w : Inv w → InvPairs w → InvPairs (run es w).
Proof.
  revert w. induction es as [|e es IH]; intros w HI HP; [done|].
  simpl. destruct e as [k|ms]; simpl.
  - destruct (clickCard_effect k w HI) as (w' & -> & He). simpl.
    apply IH; [by eapply ClickEffect_Inv | by eapply ClickEffect_InvPairs].
  - assert (Inv (advance ms w) ∧ InvPairs (advance ms w)) as [??]; [|by apply IH].
    induction ms as [|ms [IH1 IH2]]; [done|]. rewrite advance_S. split.
    + by apply tick_Inv.
    + eapply TickEffect_InvPairs; [exact IH1|exact IH2|by apply tick_effect].
Qed.

(** Once every piece is resolved and no timer is pending, nothing changes
    the component state any more. *)
Lemma clickCard_all_resolved k w :
  (∀ c, c ∈ cards (app w) → isMatched c = true) → clickCard k w = Done w.
Proof.
  intros Hall. unfold clickCard. destruct (view (app w)); try done.
  destruct (cards (app w) !! k) as [c|] eqn:Hk; [|done].
  apply Card_onClick_blocked. right. right.
  apply Hall. by eapply list_elem_of_lookup_2.
Qed.

Lemma run_all_resolved es w :
  (∀ c, c ∈ cards (app w) → isMatched c = true) → pending w = [] →
  app (run es w) = app w ∧ pending (run es w) = [].
Proof.
  revert w. induction es as [|e es IH]; intros w Hall Hp; [done|].
  simpl. destruct e as [k|ms]; simpl.
  - rewrite clickCard_all_resolved by done. by apply IH.
  - rewrite advance_no_timer by done.
    destruct (IH (atClock (clock w + N.of_nat ms) w)) as [-> ->]; done.
Qed.

(** ** Completion, rejected flips and scoring *)



(** C1: a flip whose target is already face up or already resolved, or
    that arrives while two pieces are selected, returns with the whole
    state (deck, selection, scores, counters, timers) unchanged: the
    [Card] that shows the piece swallows the click, and with two pieces
    selected [handleCardClick] itself returns at once. *)
Theorem flip_rejected_is_noop w u card :
  find u (cards (app w)) = Some card →
  length (flippedCards (app w)) = 2%nat ∨
    isFlipped card = true ∨ isMatched card = true →
  flip u w = Done w ∧
  (∀ k, cards (app w) !! k = Some card → clickCard k w = Done w) ∧
  (length (flippedCards (app w)) = 2%nat → handleCardClick u w = Done w).
Proof.
  intros Hf Hc.
  assert (∀ k, cards (app w) !! k = Some card → clickCard k w = Done w) as Hk.
  { intros k Hk. unfold clickCard. rewrite Hk.
    destruct (view (app w)); try reflexivity.
    unfold Card_onClick.
    destruct Hc as [Hl | [Hfl | Hm]].
    - by rewrite (bool_decide_eq_true_2 _ Hl).
    - rewrite Hfl. by rewrite andb_false_r.
    - rewrite Hm. by rewrite andb_false_r. }
  split; [|split].
  - unfold flip. destruct (find_findIndex _ _ _ Hf) as (k & -> & Hlk).
    by apply Hk.
  - exact Hk.
  - intros Hl. unfold handleCardClick. by rewrite (bool_decide_eq_true_2 _ Hl).
Qed.

Lemma flip_rejected_is_noop_witness :
  let w := run [Click 4] (newGame keepOrder solo sampleCatalog) in
  flip 4 w = Done w.
Proof.
  intros w.
  set (c := withIsFlipped true
              (withUniqueId 4 (newGameCard (sampleCard "pato" (Some 0)) image))).
  assert (Hf : find 4 (cards (app w)) = Some c) by by_evaluation.
  clearbody w.
  exact (proj1 (flip_rejected_is_noop w 4 c Hf (or_intror (or_introl eq_refl)))).
Defined.





(** ** Turns *)

Lemma ClickEffect_turn k w w' :
  ClickEffect k w w' →
  gameMode (app w') = gameMode (app w) ∧
  currentPlayer (app w') = currentPlayer (app w).
Proof.
  intros [|c Hk Hf Hm Hfl|c a c1 fc Hk Hf Hm Hfl Hc1 Hu1 Hup1 Hfc]; [done..|].
  cbv zeta. unfold secondCallback.
  by destruct (bool_decide (identity c1 = identity c)).
Qed.

Lemma TickEffect_turn w w' :
  TickEffect w w' →
  gameMode (app w') = gameMode (app w) ∧
  (gameMode (app w) = solo → currentPlayer (app w') = currentPlayer (app w)).
Proof.
  intros [Hw|a b cb Hfl Hp Hcap]; [done|].
  destruct cb as [f s fc gm cp m|fc gm cp m|nf gm]; simpl in *.
  - done.
  - by destruct (bool_decide (m + 1 = 6)).
  - destruct Hcap as (-> & ->). by destruct (gameMode (app w)) eqn:E.
Qed.

Lemma run_turn es w :
  Inv w →
  gameMode (app (run es w)) = gameMode (app w) ∧
  (gameMode (app w) = solo →
   currentPlayer (app (run es w)) = currentPlayer (app w)).
Proof.
  revert w. induction es as [|e es IH]; intros w HI; [done|].
  simpl. destruct e as [k|ms]; simpl.
  - destruct (clickCard_effect k w HI) as (w' & -> & He). simpl.
    destruct (ClickEffect_turn _ _ _ He) as [Hg Hc].
    destruct (IH w' (ClickEffect_Inv _ _ _ HI He)) as [IH1 IH2].
    rewrite IH1, Hg. split; [done|]. intros Hs. rewrite IH2, Hc; congruence.
  - assert (gameMode (app (advance ms w)) = gameMode (app w) ∧
            (gameMode (app w) = solo →
             currentPlayer (app (advance ms w)) = currentPlayer (app w)))
      as [Hg Hc].
    { induction ms as [|ms [IH1 IH2]]; [done|]. rewrite advance_S.
      destruct (TickEffect_turn _ _ (tick_effect _ (advance_Inv ms w HI)))
        as [Hg Hc].
      rewrite Hg, IH1. split; [done|]. intros Hs.
      rewrite Hc, IH2; congruence. }
    destruct (IH (advance ms w) (advance_Inv ms w HI)) as [IH1 IH2].
    rewrite IH1, Hg. split; [done|]. intros Hs. rewrite IH2, Hc; congruence.
Qed.




(** ** Timers across games *)

Lemma runCallback_moves cb w : moves (app (runCallback cb w)) = moves (app w).
Proof.
  destruct cb as [f s fc gm cp m|fc gm cp m|nf gm]; simpl; [done| |].
  - by destruct (bool_decide (m + 1 = 6)).
  - by destruct gm.
Qed.

Lemma tick_moves w : moves (app (tick w)) = moves (app w).
Proof.
  unfold tick.
  generalize (filter (λ p, (p.1 ≤ clock w + 1)%N) (pending w)).
  generalize (filter (λ p, ¬ (p.1 ≤ clock w + 1)%N) (pending w)).
  intros rest due.
  change (moves (app w)) with
    (moves (app {| app := app w; pending := rest; clock := clock w + 1 |})).
  generalize {| app := app w; pending := rest; clock := clock w + 1 |}.
  induction due as [|p due IH]; intros w0; simpl; [done|].
  by rewrite IH, runCallback_moves.
Qed.

Lemma advance_moves ms w : moves (app (advance ms w)) = moves (app w).
Proof.
  induction ms as [|ms IH]; [done|]. by rewrite advance_S, tick_moves.
Qed.




(** What the absence of cancellation costs the new game: the stale match
    callback empties the selection while two of its pieces are face up,
    so two more can be turned. *)
Lemma stale_timer_four_face_up :
  let w1 := run [Click 0; Click 1; Elapse 1500]
              (newGame keepOrder solo sampleCatalog) in
  let w2 := restart keepOrder sampleCatalog w1 in
  let w3 := run [Click 2; Elapse 500; Click 4; Elapse 600; Click 6; Click 8]
              w2 in
  length (filter faceUp (cards (app w2))) = 0%nat ∧
  length (filter faceUp (cards (app w3))) = 4%nat.
Proof. intros w1 w2 w3. split; by_evaluation. Qed.

(** ** Actions on pieces that are not in play *)



Lemma selection_changed_not_done u w :
  flippedCards (app (world_of (handleCardClick u w))) ≠ flippedCards (app w) →
  handleCardClick u w ≠ Done w.
Proof. intros Hne Heq. apply Hne. by rewrite Heq. Qed.


(** * Further properties of the game *)

(** ** The deck during play *)

Lemma evolves_refl c : evolves c c.
Proof. by split. Qed.

Lemma evolves_trans c1 c2 c3 : evolves c1 c2 → evolves c2 c3 → evolves c1 c3.
Proof. intros [H1 H2] [H3 H4]. split; [congruence | auto]. Qed.

Lemma Forall2_evolves_refl l : Forall2 evolves l l.
Proof. induction l; constructor; auto using evolves_refl. Qed.

Lemma Forall2_evolves_trans l1 l2 l3 :
  Forall2 evolves l1 l2 → Forall2 evolves l2 l3 → Forall2 evolves l1 l3.
Proof.
  intros H. revert l3. induction H as [|c1 c2 l1 l2 Hc Hl IH]; intros l3 H3.
  - by inv H3.
  - inv H3. constructor; [by eapply evolves_trans | by apply IH].
Qed.

Lemma Forall2_evolves_fmap (f : GameCard → GameCard) l :
  (∀ c, evolves c (f c)) → Forall2 evolves l (f <$> l).
Proof. intros Hf. induction l; csimpl; constructor; auto. Qed.

Lemma Forall2_evolves_alter (f : GameCard → GameCard) k l :
  (∀ c, evolves c (f c)) → Forall2 evolves l (alter f k l).
Proof.
  intros Hf. revert k. induction l as [|c l IH]; intros [|k]; simpl.
  - constructor.
  - constructor.
  - constructor; [apply Hf | apply Forall2_evolves_refl].
  - constructor; [apply evolves_refl | apply IH].
Qed.

Lemma evolves_withIsFlipped b c : evolves c (withIsFlipped b c).
Proof. by split. Qed.

Lemma evolves_highlightPair a b c : evolves c (highlightPair a b c).
Proof. unfold highlightPair. by destruct (_ || _). Qed.

Lemma evolves_markMatched fc c : evolves c (markMatched fc c).
Proof. unfold markMatched. by case_bool_decide. Qed.

Lemma evolves_flipBack nf c : evolves c (flipBack nf c).
Proof. unfold flipBack. by case_bool_decide. Qed.

Lemma handleCardClick_evolves u w :
  Forall2 evolves (cards (app w))
                  (cards (app (world_of (handleCardClick u w)))).
Proof.
  assert (∀ j, Forall2 evolves (cards (app w))
                 (alter (withIsFlipped true) j (cards (app w)))) as Ha.
  { intros j. apply Forall2_evolves_alter, evolves_withIsFlipped. }
  unfold handleCardClick.
  destruct (bool_decide (length (flippedCards (app w)) = 2%nat));
    [apply Forall2_evolves_refl|].
  destruct (findIndex u (cards (app w))) as [j|]; [|apply Forall2_evolves_refl].
  destruct (flippedCards (app w) ++ [u]) as [|a [|b [|? ?]]]; simpl; try apply Ha.
  destruct (find a _) as [c1|]; simpl; [|apply Ha].
  destruct (find b _) as [c2|]; simpl; [|apply Ha].
  destruct (bool_decide (cardId (data c1) = cardId (data c2))); simpl; apply Ha.
Qed.

Lemma clickCard_evolves k w :
  Forall2 evolves (cards (app w)) (cards (app (world_of (clickCard k w)))).
Proof.
  unfold clickCard.
  destruct (view (app w)); try apply Forall2_evolves_refl.
  destruct (cards (app w) !! k) as [c|]; [|apply Forall2_evolves_refl].
  unfold Card_onClick. destruct (_ && _); [|apply Forall2_evolves_refl].
  apply handleCardClick_evolves.
Qed.

Lemma runCallback_evolves cb w :
  Forall2 evolves (cards (app w)) (cards (app (runCallback cb w))).
Proof.
  destruct cb as [f s fc gm cp m|fc gm cp m|nf gm]; simpl.
  - apply Forall2_evolves_fmap, evolves_highlightPair.
  - destruct (bool_decide (m + 1 = 6)); simpl;
      apply Forall2_evolves_fmap, evolves_markMatched.
  - destruct gm; simpl; apply Forall2_evolves_fmap, evolves_flipBack.
Qed.

Lemma tick_evolves w : Forall2 evolves (cards (app w)) (cards (app (tick w))).
Proof.
  unfold tick.
  generalize (filter (λ p, (p.1 ≤ clock w + 1)%N) (pending w)).
  generalize (filter (λ p, ¬ (p.1 ≤ clock w + 1)%N) (pending w)).
  intros rest due.
  change (cards (app w)) with
    (cards (app {| app := app w; pending := rest; clock := clock w + 1 |})) at 1.
  generalize {| app := app w; pending := rest; clock := clock w + 1 |}.
  induction due as [|p due IH]; intros w0; simpl; [apply Forall2_evolves_refl|].
  eapply Forall2_evolves_trans; [apply runCallback_evolves | apply IH].
Qed.

Lemma advance_evolves ms w :
  Forall2 evolves (cards (app w)) (cards (app (advance ms w))).
Proof.
  induction ms as [|ms IH]; [apply Forall2_evolves_refl|].
  rewrite advance_S.
  eapply Forall2_evolves_trans; [apply IH | apply tick_evolves].
Qed.

Lemma run_evolves es w :
  Forall2 evolves (cards (app w)) (cards (app (run es w))).
Proof.
  revert w. induction es as [|e es IH]; intros w; [apply Forall2_evolves_refl|].
  simpl. eapply Forall2_evolves_trans; [|apply IH].
  destruct e as [k|ms]; simpl; [apply clickCard_evolves | apply advance_evolves].
Qed.

(** X1: whatever the state and whatever clicks and timers follow, the
    deck keeps its pieces: at every position the identifier, the card
    data (identity, image, points, author) and the face stay the same;
    only the flags of a piece change. *)
Theorem deck_pieces_never_change es w :
  skeleton <$> cards (app (run es w)) = skeleton <$> cards (app w) ∧
  length (cards (app (run es w))) = length (cards (app w)).
Proof.
  pose proof (run_evolves es w) as H. split.
  - induction H as [|c c' l l' [Hc _] _ IH]; csimpl; [done|]. by rewrite Hc, IH.
  - symmetry. by eapply Forall2_length.
Qed.

(** X2: a resolved piece stays resolved: no click and no timer callback,
    in any state, clears [isMatched] of a piece. *)
Theorem resolved_stays_resolved es w k c :
  cards (app w) !! k = Some c → isMatched c = true →
  ∃ c', cards (app (run es w)) !! k = Some c' ∧
        isMatched c' = true ∧ skeleton c' = skeleton c.
Proof.
  intros Hk Hm.
  destruct (Forall2_lookup_l _ _ _ _ _ (run_evolves es w) Hk)
    as (c' & Hk' & Hs & Hm').
  exists c'. auto.
Qed.

Lemma resolved_stays_resolved_witness :
  let w := run [Click 0; Click 1; Elapse 2600]
               (init_world (initGame keepOrder solo sampleCatalog initialWorld)) in
  ∃ c c',
    cards (app w) !! 0%nat = Some c ∧ isMatched c = true ∧
    cards (app (run [Click 0; Click 2; Click 5; Elapse 3000; Click 0] w)) !! 0%nat
      = Some c' ∧
    isMatched c' = true.
Proof.
  intros w.
  assert (∃ c, cards (app w) !! 0%nat = Some c ∧ isMatched c = true)
    as (c & Hc & Hm) by (vm_compute; eexists; split; reflexivity).
  clearbody w.
  destruct (resolved_stays_resolved
              [Click 0; Click 2; Click 5; Elapse 3000; Click 0] w 0 c Hc Hm)
    as (c' & Hc' & Hm' & _).
  exact (ex_intro _ c (ex_intro _ c' (conj Hc (conj Hm (conj Hc' Hm'))))).
Defined.

(** ** Counters *)

(** Induction over a play-through, click by click and millisecond by
    millisecond. *)
Lemma run_invariant (P : World → Prop) :
  (∀ k w w', Inv w → P w → ClickEffect k w w' → P w') →
  (∀ w w', Inv w → P w → TickEffect w w' → P w') →
  ∀ es w, Inv w → P w → P (run es w).
Proof.
  intros Hclick Htick es. induction es as [|e es IH]; intros w HI HP; [done|].
  simpl. destruct e as [k|ms]; simpl.
  - destruct (clickCard_effect k w HI) as (w' & -> & He). simpl.
    apply IH; [by eapply ClickEffect_Inv | by eapply Hclick].
  - assert (Inv (advance ms w) ∧ P (advance ms w)) as [??]; [|by apply IH].
    induction ms as [|ms [IH1 IH2]]; [done|]. rewrite advance_S. split.
    + by apply tick_Inv.
    + eapply Htick; [exact IH1 | exact IH2 | by apply tick_effect].
Qed.

Lemma Inv_one_selected_no_timer w a :
  Inv w → flippedCards (app w) = [a] → pending w = [].
Proof.
  intros HI Hfl. pose proof (inv_timers _ HI) as Ht. unfold timersFor in Ht.
  by rewrite Hfl in Ht.
Qed.

Lemma owedMatches_nonneg (l : list (N * Callback)) :
  0 ≤ foldr (λ p n, owedMatches p.2 + n) 0 l.
Proof.
  induction l as [|[t cb] l IH]; [done|].
  change (0 ≤ owedMatches cb + foldr (λ p n, owedMatches p.2 + n) 0 l).
  destruct cb; simpl; lia.
Qed.

Lemma ClickEffect_Counters k w w' :
  Inv w → Counters w → ClickEffect k w w' → Counters w'.
Proof.
  intros HI [H0 Hm] [|c Hk Hf Hmt Hfl|c a c1 fc Hk Hf Hmt Hfl Hc1 Hu1 Hup1 Hfc];
    [done|done|].
  pose proof (Inv_one_selected_no_timer w a HI Hfl) as Hp. rewrite Hp in Hm.
  cbv zeta. unfold secondCallback, Counters.
  destruct (bool_decide (identity c1 = identity c)); simpl; rewrite Hp;
    simpl in *; split; lia.
Qed.

Lemma TickEffect_Counters w w' :
  Inv w → Counters w → TickEffect w w' → Counters w'.
Proof.
  intros HI [H0 Hm] [Hw|a b cb Hfl Hp Hcap]; [done|].
  rewrite Hp in Hm. unfold Counters.
  destruct cb as [f s fc gm cp m|fc gm cp m|nf gm]; simpl in *.
  - split; lia.
  - destruct (bool_decide (m + 1 = 6)); simpl; split; lia.
  - destruct gm; simpl; split; lia.
Qed.

(** X3: in a game started on a freshly built deck the number of matches
    is between 0 and 6 and never exceeds the number of moves. *)
Theorem matches_bounded rnd mode allCards w0 events :
  pending w0 = [] → (6 ≤ length allCards)%nat →
  let w := run events (init_world (initGame rnd mode allCards w0)) in
  0 ≤ matches (app w) ≤ 6 ∧ matches (app w) ≤ moves (app w).
Proof.
  intros Hp H6 w.
  pose proof (Inv_initGame rnd mode allCards w0 Hp H6) as HI0.
  assert (Counters w) as [H0 Hm].
  { apply (run_invariant Counters ClickEffect_Counters TickEffect_Counters);
      [done|].
    unfold initGame. rewrite bool_decide_eq_false_2 by lia.
    unfold Counters. simpl. rewrite Hp. simpl. split; lia. }
  assert (InvPairs w) as HP.
  { apply run_InvPairs; [done | by apply InvPairs_initGame]. }
  destruct (ip_pairs _ HP) as [_ _ Hc].
  pose proof (countIf_le snd (shape <$> cards (app w))) as Hle.
  rewrite length_fmap, (ip_len _ HP) in Hle.
  pose proof (owedMatches_nonneg (pending w)) as Hpos.
  split_and!; lia.
Qed.

Lemma matches_bounded_witness :
  let w := run sixMatches (init_world (initGame keepOrder solo sampleCatalog initialWorld)) in
  matches (app w) = 6 ∧ moves (app w) = 7 ∧
  matches (app w) ≤ 6 ∧ matches (app w) ≤ moves (app w).
Proof.
  assert (H6 : (6 ≤ length sampleCatalog)%nat) by (simpl; lia).
  pose proof (matches_bounded keepOrder solo sampleCatalog initialWorld
              sixMatches eq_refl H6) as Hc.
  cbv zeta in Hc. intros w. fold w in Hc.
  assert (Hm : matches (app w) = 6) by by_evaluation.
  assert (Hv : moves (app w) = 7) by by_evaluation.
  clearbody w.
  exact (conj Hm (conj Hv (conj (proj2 (proj1 Hc)) (proj2 Hc)))).
Defined.

(** ** Every move ends *)

Lemma ClickEffect_Deadlines k w w' :
  Inv w → Deadlines w → ClickEffect k w w' → Deadlines w'.
Proof.
  intros HI HD [|c Hk Hf Hmt Hfl|c a c1 fc Hk Hf Hmt Hfl Hc1 Hu1 Hup1 Hfc];
    [done|done|].
  pose proof (Inv_one_selected_no_timer w a HI Hfl) as Hp.
  cbv zeta. unfold secondCallback, Deadlines.
  destruct (bool_decide (identity c1 = identity c)); simpl; rewrite Hp; simpl;
    intros t cb [= -> ->]%list_elem_of_singleton; simpl; lia.
Qed.

Lemma TickEffect_Deadlines w w' :
  Inv w → Deadlines w → TickEffect w w' → Deadlines w'.
Proof.
  intros HI HD [Hw|a b cb Hfl Hp Hcap].
  - intros t cb Hin. specialize (HD t cb Hin). specialize (Hw _ Hin).
    simpl in *. lia.
  - unfold Deadlines.
    destruct cb as [f s fc gm cp m|fc gm cp m|nf gm]; simpl.
    + intros t cb [= -> ->]%list_elem_of_singleton. simpl. lia.
    + destruct (bool_decide (m + 1 = 6)); simpl; intros t cb Hin;
        by apply elem_of_nil in Hin.
    + destruct gm; simpl; intros t cb Hin; by apply elem_of_nil in Hin.
Qed.

(** A single timer that is due in [r] more milliseconds runs then. *)
Lemma advance_to_deadline w t cb :
  pending w = [(t, cb)] → (clock w < t)%N →
  advance (N.to_nat (t - clock w)) w =
  runCallback cb {| app := app w; pending := []; clock := t |}.
Proof.
  intros Hp Hlt.
  destruct (N.to_nat (t - clock w)) as [|n] eqn:Hn; [lia|].
  assert (t = clock w + N.of_nat (S n))%N as Ht by lia.
  rewrite (advance_fire n w cb); [by rewrite <- Ht|]. by rewrite <- Ht.
Qed.

Lemma advance_settled n w :
  pending w = [] →
  app (advance n w) = app w ∧ pending (advance n w) = [].
Proof. intros Hp. by rewrite advance_no_timer. Qed.

Lemma advance_settled_selection n w :
  flippedCards (app w) = [] → pending w = [] →
  flippedCards (app (advance n w)) = [] ∧ pending (advance n w) = [].
Proof.
  intros Hf Hp. destruct (advance_settled n w Hp) as [-> ->]. done.
Qed.

(** X4: no move hangs.  In a game started on a freshly built deck, 2.6 s
    without a click are always enough for the board to accept clicks
    again: fewer than two pieces are selected and no timer is pending.
    If fewer than two pieces were selected, that time changes nothing. *)
Theorem board_settles_within_2600ms rnd mode allCards w0 events :
  pending w0 = [] → (6 ≤ length allCards)%nat →
  let w := run events (init_world (initGame rnd mode allCards w0)) in
  let w' := advance 2600 w in
  (length (flippedCards (app w')) < 2)%nat ∧ pending w' = [] ∧
  ((length (flippedCards (app w)) < 2)%nat → app w' = app w) ∧
  (length (flippedCards (app w)) = 2%nat → flippedCards (app w') = []).
Proof.
  intros Hp H6 w.
  pose proof (Inv_initGame rnd mode allCards w0 Hp H6) as HI0.
  assert (Inv w) as HI by by apply run_Inv.
  assert (Deadlines w) as HD.
  { apply (run_invariant Deadlines ClickEffect_Deadlines TickEffect_Deadlines);
      [done|].
    unfold initGame. rewrite bool_decide_eq_false_2 by lia.
    unfold Deadlines. simpl. rewrite Hp. intros t cb Hin.
    by apply elem_of_nil in Hin. }
  pose proof (inv_timers _ HI) as Ht. unfold timersFor in Ht.
  cbv zeta. generalize dependent w. intros w HI HD Ht.
  destruct (flippedCards (app w)) as [|a [|b [|? ?]]] eqn:Hfl; try done.
  - destruct (advance_settled 2600 w Ht) as [Ha Hq].
    rewrite Ha, Hq, Hfl. cbn [length]. split_and!; try done; lia.
  - destruct (advance_settled 2600 w Ht) as [Ha Hq].
    rewrite Ha, Hq, Hfl. cbn [length]. split_and!; try done; lia.
  - destruct Ht as (t & cb & Hpw & Hlt & Hcap).
    pose proof (HD t cb) as Hb. rewrite Hpw in Hb.
    specialize (Hb (list_elem_of_here _ _)).
    pose proof (advance_to_deadline w t cb Hpw Hlt) as Hrun.
    set (r := N.to_nat (t - clock w)) in *.
    assert (flippedCards (app (advance 2600 w)) = [] ∧
            pending (advance 2600 w) = []) as [Hf' Hp'].
    { destruct cb as [f s fc gm cp m|fc gm cp m|nf gm]; simpl in Hb, Hrun.
      - assert (2600 = (600 - r) + (2000 + r))%nat as -> by lia.
        rewrite advance_add, (advance_add 2000 r), Hrun.
        rewrite (advance_fire 1999 _ (MatchCb fc gm cp m)) by done.
        apply advance_settled_selection; simpl;
          by destruct (bool_decide (m + 1 = 6)).
      - assert (2600 = (2600 - r) + r)%nat as -> by lia.
        rewrite advance_add, Hrun.
        apply advance_settled_selection; simpl;
          by destruct (bool_decide (m + 1 = 6)).
      - assert (2600 = (2600 - r) + r)%nat as -> by lia.
        rewrite advance_add, Hrun.
        apply advance_settled_selection; simpl; by destruct gm. }
    rewrite Hf', Hp'. cbn [length]. split_and!; try done; lia.
Qed.

Lemma board_settles_within_2600ms_witness :
  let w := run [Click 0; Click 1; Elapse 100]
               (init_world (initGame keepOrder multiplayer sampleCatalog initialWorld)) in
  let w' := advance 2600 w in
  length (flippedCards (app w)) = 2%nat ∧ pending w ≠ [] ∧
  flippedCards (app w') = [] ∧ pending w' = [].
Proof.
  assert (H6 : (6 ≤ length sampleCatalog)%nat) by (simpl; lia).
  pose proof (board_settles_within_2600ms keepOrder multiplayer sampleCatalog
              initialWorld [Click 0; Click 1; Elapse 100] eq_refl H6) as Hc.
  cbv zeta in Hc. intros w. fold w in Hc.
  assert (H2 : length (flippedCards (app w)) = 2%nat) by by_evaluation.
  assert (Hp : pending w ≠ []) by (vm_compute; discriminate).
  clearbody w. intros w'.
  destruct Hc as (_ & Hq & _ & Hs).
  exact (conj H2 (conj Hp (conj (Hs H2) Hq))).
Defined.

(** ** A failed move *)

Lemma withIsFlipped_undo c :
  isFlipped c = false → withIsFlipped false (withIsFlipped true c) = c.
Proof. destruct c; simpl. by intros ->. Qed.

Lemma lookup_uniqueId_inj l i j ci cj :
  NoDup (uniqueId <$> l) → l !! i = Some ci → l !! j = Some cj →
  uniqueId ci = uniqueId cj → i = j.
Proof.
  intros Hnd Hi Hj Hu. eapply NoDup_lookup; [exact Hnd| |];
    rewrite list_lookup_fmap; [by rewrite Hi | by rewrite Hj, Hu].
Qed.

(** Turning two face-down pieces and turning back the pieces with their
    identifiers gives the deck back. *)
Lemma flipBack_flipAt_flipAt l j1 j2 c1 c2 :
  NoDup (uniqueId <$> l) →
  l !! j1 = Some c1 → l !! j2 = Some c2 → j1 ≠ j2 →
  isFlipped c1 = false → isFlipped c2 = false →
  flipBack [uniqueId c1; uniqueId c2] <$> flipAt j2 (flipAt j1 l) = l.
Proof.
  intros Hnd H1 H2 Hne Hf1 Hf2. apply list_eq. intros i.
  rewrite list_lookup_fmap. unfold flipAt.
  destruct (decide (i = j2)) as [->|Hi2].
  - rewrite list_lookup_alter_eq, list_lookup_alter_ne, H2 by done. simpl.
    unfold flipBack. rewrite bool_decide_eq_true_2.
    + by rewrite withIsFlipped_undo.
    + simpl. apply list_elem_of_further, list_elem_of_here.
  - rewrite list_lookup_alter_ne by done.
    destruct (decide (i = j1)) as [->|Hi1].
    + rewrite list_lookup_alter_eq, H1. simpl.
      unfold flipBack. rewrite bool_decide_eq_true_2.
      * by rewrite withIsFlipped_undo.
      * simpl. apply list_elem_of_here.
    + rewrite list_lookup_alter_ne by done.
      destruct (l !! i) as [c|] eqn:Hi; simpl; [|done].
      unfold flipBack. rewrite bool_decide_eq_false_2; [done|].
      intros [Hu|Hu%list_elem_of_singleton]%elem_of_cons.
      * apply Hi1. by eapply lookup_uniqueId_inj.
      * apply Hi2. by eapply lookup_uniqueId_inj.
Qed.



(** ** Between the second click and its resolution *)

Lemma clickCard_locked k w :
  length (flippedCards (app w)) = 2%nat → clickCard k w = Done w.
Proof.
  intros H. unfold clickCard. destruct (view (app w)); try done.
  destruct (cards (app w) !! k); [|done].
  apply Card_onClick_blocked. left. by apply bool_decide_eq_true_2.
Qed.



(** ** The deck is a sample of the catalog *)

Lemma selectedOf_submseteq rnd allCards : selectedOf rnd allCards ⊆+ allCards.
Proof.
  unfold selectedOf. rewrite <- (sortPool_perm rnd allCards) at 2.
  apply sublist_submseteq, sublist_take.
Qed.

Lemma buildDeck_elem rnd allCards c :
  c ∈ buildDeck rnd allCards →
  ∃ i d t, d ∈ selectedOf rnd allCards ∧
           c = withUniqueId (Z.of_nat i) (newGameCard d t).
Proof.
  intros (i & Hi)%list_elem_of_lookup_1. revert Hi.
  rewrite buildDeck_eq, list_lookup_imap.
  destruct (sortDeck rnd _ !! i) as [c'|] eqn:E; simpl; [|done].
  intros [= <-]. apply list_elem_of_lookup_2 in E. rewrite sortDeck_perm in E.
  unfold gamePoolOf in E. apply list_elem_of_bind in E as (d & Hc & Hd).
  exists i, d. apply elem_of_cons in Hc as [->|Hc]; [by exists image|].
  apply list_elem_of_singleton in Hc as ->. by exists text.
Qed.

(** X7: the deck is drawn without replacement.  Whatever the two random
    sorts return, and whether or not identities repeat in the catalog,
    the six cards of a deck are six entries of the catalog, each taken
    once; the deck holds each of them on exactly one image piece and one
    text piece and nothing else; and every piece starts face down,
    unresolved and not highlighted. *)
Theorem buildDeck_samples_catalog rnd allCards :
  (6 ≤ length allCards)%nat →
  ∃ selected,
    length selected = 6%nat ∧ selected ⊆+ allCards ∧
    (λ c, (data c, cardType c)) <$> buildDeck rnd allCards ≡ₚ
      selected ≫= (λ d, [(d, image); (d, text)]) ∧
    Forall (λ c, isFlipped c = false ∧ isMatched c = false ∧
                 isHighlighting c = None) (buildDeck rnd allCards).
Proof.
  intros H. exists (selectedOf rnd allCards). split_and!.
  - by apply length_selectedOf.
  - apply selectedOf_submseteq.
  - rewrite (buildDeck_proj (λ c, (data c, cardType c))) by done.
    unfold gamePoolOf. induction (selectedOf rnd allCards) as [|d l IH]; [done|].
    rewrite !bind_cons, fmap_app, IH. done.
  - apply Forall_forall. intros c (i & d & t & _ & ->)%buildDeck_elem. done.
Qed.

Lemma buildDeck_samples_catalog_witness :
  ∃ selected,
    length selected = 6%nat ∧ selected ⊆+ sampleCatalog ∧
    (λ c, (data c, cardType c)) <$> buildDeck reverseOrder sampleCatalog ≡ₚ
      selected ≫= (λ d, [(d, image); (d, text)]).
Proof.
  assert (H6 : (6 ≤ length sampleCatalog)%nat) by (simpl; lia).
  destruct (buildDeck_samples_catalog reverseOrder sampleCatalog H6)
    as (sel & H1 & H2 & H3 & _).
  exact (ex_intro _ sel (conj H1 (conj H2 H3))).
Defined.

(** ** Scores *)

Lemma cardPoints_worth c : cardPoints c = worth (data c).
Proof. reflexivity. Qed.

Lemma data_flipAt k l : data <$> flipAt k l = data <$> l.
Proof. by apply fmap_alter_proj. Qed.

Lemma data_highlightPair a b (l : list GameCard) :
  data <$> (highlightPair a b <$> l) = data <$> l.
Proof.
  apply fmap_fmap_proj. intros c. unfold highlightPair. by destruct (_ || _).
Qed.

Lemma data_markMatched fc (l : list GameCard) :
  data <$> (markMatched fc <$> l) = data <$> l.
Proof.
  apply fmap_fmap_proj. intros c. unfold markMatched. by case_bool_decide.
Qed.

Lemma data_flipBack nf (l : list GameCard) :
  data <$> (flipBack nf <$> l) = data <$> l.
Proof.
  apply fmap_fmap_proj. intros c. unfold flipBack. by case_bool_decide.
Qed.

Lemma ClickEffect_Priced lo hi k w w' :
  Inv w → Priced lo hi w → ClickEffect k w w' → Priced lo hi w'.
Proof.
  intros HI [Hc Hp Ht Hs]
    [|c Hk Hf Hmt Hfl|c a c1 fc Hk Hf Hmt Hfl Hc1 Hu1 Hup1 Hfc]; [done| |].
  - split; simpl; try done. by rewrite data_flipAt.
  - pose proof (Inv_one_selected_no_timer w a HI Hfl) as Hpw.
    cbv zeta. unfold secondCallback.
    destruct (bool_decide (identity c1 = identity c));
      (split; simpl; rewrite ?Hpw; [by rewrite data_flipAt| |done|done]).
    + intros t cb fc' [= -> ->]%list_elem_of_singleton. simpl.
      intros [= <-]. rewrite Hfc. apply Hc. by apply list_elem_of_fmap_2.
    + intros t cb fc' [= -> ->]%list_elem_of_singleton. done.
Qed.

Lemma TickEffect_Priced lo hi w w' :
  Inv w → Priced lo hi w → TickEffect w w' → Priced lo hi w'.
Proof.
  intros HI [Hc Hp Ht Hs] [Hw|a b cb Hfl Hpw Hcap]; [done|].
  assert (∀ fc, capturedCard cb = Some fc → lo ≤ worth (data fc) ≤ hi) as Hfc.
  { intros fc. apply (Hp (clock w + 1)%N). rewrite Hpw. apply list_elem_of_here. }
  destruct cb as [f s fc gm cp m|fc gm cp m|nf gm]; simpl in *.
  - split; simpl; try done; [by rewrite data_highlightPair|].
    intros t cb fc' [= -> ->]%list_elem_of_singleton. simpl.
    intros [= <-]. by apply Hfc.
  - destruct Hcap as (-> & -> & _).
    specialize (Hfc fc eq_refl). rewrite <- cardPoints_worth in Hfc.
    assert (Priced lo hi
              (withApp (setFlippedCards []
                 (setScores (creditScore (gameMode (app w)) (currentPlayer (app w))
                                         (cardPoints fc))
                    (setMatchedCardId None
                       (setMatches (λ m, m + 1)
                          (setCards (fmap (markMatched fc)) (app w))))))
                 {| app := app w; pending := []; clock := clock w + 1 |})) as H.
    { split; simpl.
      - by rewrite data_markMatched.
      - intros t cb fc' Hin. by apply elem_of_nil in Hin.
      - unfold creditScore.
        destruct (gameMode (app w)), (currentPlayer (app w)); simpl; lia.
      - intros Hg. rewrite Hg. simpl. by apply Hs. }
    destruct (bool_decide (m + 1 = 6)); [|exact H].
    destruct H as [H1 H2 H3 H4]. split; simpl in *; done.
  - assert (∀ s, (∀ d, d ∈ data <$> cards s → lo ≤ worth d ≤ hi) →
                 lo * matches s ≤ p1 (scores s) + p2 (scores s) ≤ hi * matches s →
                 (gameMode s = solo → p2 (scores s) = 0) →
                 Priced lo hi {| app := s; pending := []; clock := clock w + 1 |})
      as Hmk.
    { intros s H1 H3 H4. split; simpl; try done.
      intros t cb fc' Hin. by apply elem_of_nil in Hin. }
    destruct gm; apply Hmk; simpl; try done; by rewrite data_flipBack.
Qed.

Lemma Priced_initGame lo hi rnd mode allCards w0 :
  pending w0 = [] → (6 ≤ length allCards)%nat →
  (∀ d, d ∈ allCards → lo ≤ worth d ≤ hi) →
  Priced lo hi (init_world (initGame rnd mode allCards w0)).
Proof.
  intros Hp H6 Hw. unfold initGame. rewrite bool_decide_eq_false_2 by lia.
  split; simpl.
  - intros d (c & -> & Hc)%list_elem_of_fmap.
    apply buildDeck_elem in Hc as (i & d & t & Hd & ->). simpl.
    apply Hw. eapply elem_of_submseteq; [exact Hd | apply selectedOf_submseteq].
  - rewrite Hp. intros t cb fc Hin. by apply elem_of_nil in Hin.
  - lia.
  - done.
Qed.



(** * The card server *)

Lemma filter_rowOf_deleteWhereId id id' t :
  filter (rowOf id) (deleteWhereId id' t) =
  if decide (id = id') then [] else filter (rowOf id) t.
Proof.
  unfold deleteWhereId, rowOf. induction t as [|r t IH]; [by destruct (decide _)|].
  rewrite !filter_cons.
  destruct (decide (row_id r ≠ id')) as [Hne|Heq%dec_stable].
  - rewrite filter_cons, IH.
    destruct (decide (row_id r = id)), (decide (id = id')); congruence.
  - rewrite IH.
    destruct (decide (row_id r = id)), (decide (id = id')); congruence.
Qed.

Lemma filter_rowOf_insertOrReplace id id' img now t :
  filter (rowOf id) (insertOrReplace id' img now t) =
  if decide (id = id')
  then [{| row_id := id'; row_image_data := img; row_created_at := now |}]
  else filter (rowOf id) t.
Proof.
  unfold insertOrReplace. rewrite filter_app.
  change (filter (λ r, row_id r ≠ id') t) with (deleteWhereId id' t).
  rewrite filter_rowOf_deleteWhereId, filter_cons, filter_nil. unfold rowOf. simpl.
  destruct (decide (id = id')), (decide (id' = id)); try congruence; simpl.
  - done.
  - by rewrite app_nil_r.
Qed.

Lemma NoDup_row_id_filter (Q : Row → Prop) `{∀ r, Decision (Q r)} t :
  NoDup (row_id <$> t) → NoDup (row_id <$> filter Q t).
Proof.
  induction t as [|r t IH]; [done|].
  rewrite fmap_cons, filter_cons. intros [Hni Hnd]%NoDup_cons.
  destruct (decide (Q r)); [|by apply IH].
  rewrite fmap_cons. apply NoDup_cons. split; [|by apply IH].
  intros (r' & Hr' & Hin%list_elem_of_filter)%list_elem_of_fmap.
  apply Hni. rewrite Hr'. apply list_elem_of_fmap_2. by destruct Hin.
Qed.

Lemma NoDup_insertOrReplace id img now t :
  NoDup (row_id <$> t) → NoDup (row_id <$> insertOrReplace id img now t).
Proof.
  intros Hnd. unfold insertOrReplace. rewrite fmap_app. apply NoDup_app.
  split; [by apply NoDup_row_id_filter|]. split.
  - intros x (r & -> & Hr%list_elem_of_filter)%list_elem_of_fmap.
    simpl. intros Hx%list_elem_of_singleton. by destruct Hr.
  - simpl. apply NoDup_singleton.
Qed.

(** What a request answers and what it does to the table. *)
Lemma post_api_cards_saved a body id img t :
  body_id body = Some id → body_image_data body = Some img →
  id ≠ "" → img ≠ "" → dbThrows a = false →
  post_api_cards a body t = (SavedJson id, insertOrReplace id img (now a) t).
Proof.
  intros Hid Himg Hne1 Hne2 Hdb. unfold post_api_cards.
  rewrite Hid, Himg, Hdb. simpl.
  by rewrite !bool_decide_eq_false_2 by done.
Qed.

Lemma post_api_cards_cases a body t :
  post_api_cards a body t = (ErrorJson 400, t) ∨
  post_api_cards a body t = (ErrorJson 500, t) ∨
  ∃ id img, body_id body = Some id ∧ body_image_data body = Some img ∧
            id ≠ "" ∧ img ≠ "" ∧ dbThrows a = false ∧
            post_api_cards a body t =
            (SavedJson id, insertOrReplace id img (now a) t).
Proof.
  unfold post_api_cards.
  destruct (body_id body) as [id|], (body_image_data body) as [img|];
    simpl; try (by left).
  - case_bool_decide; simpl; [by left|].
    case_bool_decide; simpl; [by left|].
    destruct (dbThrows a) eqn:Hdb; [by right; left|].
    right; right. by exists id, img.
  - case_bool_decide; by left.
Qed.

Lemma handle_NoDup E a req t :
  NoDup (row_id <$> t) → NoDup (row_id <$> (handle E a req t).2).
Proof.
  intros Hnd. destruct req as [|body|id]; simpl.
  - unfold get_api_cards. by destruct (dbThrows a).
  - destruct (post_api_cards_cases a body t)
      as [-> | [-> | (id & img & _ & _ & _ & _ & _ & ->)]]; try done.
    by apply NoDup_insertOrReplace.
  - unfold delete_api_cards. destruct (dbThrows a); [done|].
    by apply NoDup_row_id_filter.
Qed.

Lemma handle_frame E a req t id :
  ¬ writes id req →
  filter (rowOf id) (handle E a req t).2 = filter (rowOf id) t.
Proof.
  intros Hw. destruct req as [|body|id']; simpl in *.
  - unfold get_api_cards. by destruct (dbThrows a).
  - destruct (post_api_cards_cases a body t)
      as [-> | [-> | (id' & img & Hid & _ & _ & _ & _ & ->)]]; try done.
    simpl. rewrite filter_rowOf_insertOrReplace.
    destruct (decide (id = id')); congruence.
  - unfold delete_api_cards. destruct (dbThrows a); [done|]. simpl.
    rewrite filter_rowOf_deleteWhereId. destruct (decide (id = id')); congruence.
Qed.

Lemma serve_cons E ar reqs t :
  serve E (ar :: reqs) t = serve E reqs (handle E ar.1 ar.2 t).2.
Proof. reflexivity. Qed.

Lemma serve_NoDup E reqs t :
  NoDup (row_id <$> t) → NoDup (row_id <$> serve E reqs t).
Proof.
  revert t. induction reqs as [|ar reqs IH]; intros t Hnd; [done|].
  rewrite serve_cons. by apply IH, handle_NoDup.
Qed.

Lemma serve_frame E reqs t id :
  Forall (λ ar, ¬ writes id ar.2) reqs →
  filter (rowOf id) (serve E reqs t) = filter (rowOf id) t.
Proof.
  revert t. induction reqs as [|ar reqs IH]; intros t Hf; [done|].
  apply Forall_cons in Hf as [Har Hf].
  rewrite serve_cons, IH by done. by apply handle_frame.
Qed.

Lemma get_api_cards_rows E a t :
  dbThrows a = false →
  get_api_cards E a t = (RowsJson (orderByCreatedAtDesc E t), t).
Proof. intros H. unfold get_api_cards. by rewrite H. Qed.


Lemma filter_rowOf_orderBy E id t :
  filter (rowOf id) (orderByCreatedAtDesc E t) ≡ₚ filter (rowOf id) t.
Proof. by rewrite orderByCreatedAtDesc_perm. Qed.

Lemma listed_rowOf E a id t l :
  dbThrows a = false → (l = [] ∨ ∃ r, l = [r]) →
  filter (rowOf id) t = l →
  ∃ rows, (get_api_cards E a t).1 = RowsJson rows ∧ filter (rowOf id) rows = l.
Proof.
  intros Hdb Hl Ht. rewrite get_api_cards_rows by done. eexists. split; [done|].
  pose proof (filter_rowOf_orderBy E id t) as Hp. rewrite Ht in Hp.
  destruct Hl as [->|[r ->]].
  - by apply Permutation_nil_r.
  - by apply Permutation_singleton_r.
Qed.

(** X9: the primary key holds.  Whatever requests the server has
    handled, with whatever failures, a listing names no card twice and
    holds exactly the rows of the table. *)
Theorem listed_ids_distinct E reqs a t :
  NoDup (row_id <$> t) → dbThrows a = false →
  ∃ rows, (get_api_cards E a (serve E reqs t)).1 = RowsJson rows ∧
          NoDup (row_id <$> rows) ∧ rows ≡ₚ serve E reqs t.
Proof.
  intros Hnd Hdb. rewrite get_api_cards_rows by done. eexists. split; [done|].
  split; [|apply orderByCreatedAtDesc_perm].
  rewrite orderByCreatedAtDesc_perm. by apply serve_NoDup.
Qed.

Lemma listed_ids_distinct_witness :
  ∃ rows,
    (get_api_cards stableEngine (arrivingAt 9)
       (serve stableEngine
          [(arrivingAt 1, POST_cards (upload "leao" "data:a" 10));
           (arrivingAt 2, POST_cards (upload "gato" "data:b" 20));
           (arrivingAt 3, POST_cards (upload "leao" "data:c" 10))] [])).1
    = RowsJson rows ∧
    NoDup (row_id <$> rows) ∧ length rows = 2%nat.
Proof.
  destruct (listed_ids_distinct stableEngine
          [(arrivingAt 1, POST_cards (upload "leao" "data:a" 10));
           (arrivingAt 2, POST_cards (upload "gato" "data:b" 20));
           (arrivingAt 3, POST_cards (upload "leao" "data:c" 10))]
          (arrivingAt 9) [] (NoDup_nil_2 (A:=string)) eq_refl) as (rows & Hr & Hnd & Hp).
  exists rows. split; [exact Hr|]. split; [exact Hnd|].
  rewrite (Permutation_length Hp). by vm_compute.
Defined.

(** X10: what is saved is what is listed, and the last write wins.  A
    POST with a non-empty id and image that meets a working database is
    answered with success and the id; from then on, until another
    request names this card, every listing holds exactly one row for
    the id, with the image of this POST and its time, whatever the table
    held for the id before. *)
Theorem saved_card_is_listed E a body id img t later a' :
  body_id body = Some id → body_image_data body = Some img →
  id ≠ "" → img ≠ "" → dbThrows a = false →
  Forall (λ ar, ¬ writes id ar.2) later → dbThrows a' = false →
  let saved := post_api_cards a body t in
  saved.1 = SavedJson id ∧
  ∃ rows,
    (get_api_cards E a' (serve E later saved.2)).1 = RowsJson rows ∧
    filter (rowOf id) rows =
    [{| row_id := id; row_image_data := img; row_created_at := now a |}].
Proof.
  intros Hid Himg Hne1 Hne2 Hdb Hl Hdb'. cbv zeta.
  rewrite (post_api_cards_saved a body id img) by done. split; [done|].
  simpl. apply listed_rowOf; [done|by right; eexists|].
  rewrite serve_frame by done. rewrite filter_rowOf_insertOrReplace.
  by rewrite decide_True.
Qed.

Lemma saved_card_is_listed_witness :
  ∃ rows,
    (get_api_cards stableEngine (arrivingAt 9)
       (serve stableEngine
          [(arrivingAt 4, POST_cards (upload "gato" "data:b" 20));
           (arrivingAt 5, DELETE_cards "pato")]
          (post_api_cards (arrivingAt 3) (upload "leao" "data:c" 20)
             [{| row_id := "leao"; row_image_data := "data:a";
                 row_created_at := 1 |}]).2)).1 = RowsJson rows ∧
    filter (rowOf "leao") rows =
    [{| row_id := "leao"; row_image_data := "data:c"; row_created_at := 3 |}].
Proof.
  refine (proj2 (saved_card_is_listed stableEngine (arrivingAt 3)
            (upload "leao" "data:c" 20) "leao" "data:c"
            [{| row_id := "leao"; row_image_data := "data:a";
                row_created_at := 1 |}]
            [(arrivingAt 4, POST_cards (upload "gato" "data:b" 20));
             (arrivingAt 5, DELETE_cards "pato")]
            (arrivingAt 9) eq_refl eq_refl _ _ eq_refl _ eq_refl)); try done.
  repeat (apply Forall_cons; split; [simpl; congruence|]). apply Forall_nil_2.
Defined.

Lemma Sorted_newerFirst_head r rows r' :
  Sorted newerFirst (r :: rows) → r' ∈ r :: rows →
  (row_created_at r' ≤ row_created_at r)%N.
Proof.
  intros Hs Hin.
  assert (Transitive newerFirst) by (intros x y z; unfold newerFirst; lia).
  apply Sorted_StronglySorted in Hs; [|done].
  apply StronglySorted_cons in Hs as [Hall _].
  apply elem_of_cons in Hin as [->|Hin]; [done|].
  by apply (proj1 (Forall_forall _ _) Hall).
Qed.

(** X11: the newest card is listed first.  When a card is saved at a
    time later than the timestamps of all rows of the table, the next
    listing starts with it. *)
Theorem newest_card_is_listed_first E a body id img t a' :
  body_id body = Some id → body_image_data body = Some img →
  id ≠ "" → img ≠ "" → dbThrows a = false → dbThrows a' = false →
  (∀ r, r ∈ t → (row_created_at r < now a)%N) →
  ∃ rows,
    (get_api_cards E a' (post_api_cards a body t).2).1 =
    RowsJson ({| row_id := id; row_image_data := img;
                 row_created_at := now a |} :: rows).
Proof.
  intros Hid Himg Hne1 Hne2 Hdb Hdb' Hold.
  rewrite (post_api_cards_saved a body id img) by done. simpl.
  rewrite get_api_cards_rows by done. simpl.
  set (new := {| row_id := id; row_image_data := img; row_created_at := now a |}).
  pose proof (orderByCreatedAtDesc_perm E (insertOrReplace id img (now a) t)) as Hp.
  pose proof (orderByCreatedAtDesc_sorted E (insertOrReplace id img (now a) t)) as Hs.
  destruct (orderByCreatedAtDesc E _) as [|r rows].
  { apply Permutation_nil_l in Hp. unfold insertOrReplace in Hp.
    symmetry in Hp. by apply app_eq_nil in Hp as [_ ?]. }
  exists rows. do 2 f_equal.
  assert (new ∈ r :: rows) as Hnew.
  { rewrite Hp. unfold insertOrReplace. apply elem_of_app. right.
    apply list_elem_of_here. }
  assert (r ∈ insertOrReplace id img (now a) t) as Hr.
  { rewrite <- Hp. apply list_elem_of_here. }
  pose proof (Sorted_newerFirst_head r rows new Hs Hnew) as Hle.
  unfold insertOrReplace in Hr.
  apply elem_of_app in Hr as [[_ Hr]%list_elem_of_filter|Hr%list_elem_of_singleton];
    [|done].
  specialize (Hold r Hr). simpl in Hle. lia.
Qed.

Lemma newest_card_is_listed_first_witness :
  ∃ rows,
    (get_api_cards stableEngine (arrivingAt 9)
       (post_api_cards (arrivingAt 3) (upload "leao" "data:c" 20)
          [{| row_id := "gato"; row_image_data := "data:b";
              row_created_at := 2 |};
           {| row_id := "leao"; row_image_data := "data:a";
              row_created_at := 1 |}]).2).1 =
    RowsJson ({| row_id := "leao"; row_image_data := "data:c";
                 row_created_at := 3 |} :: rows).
Proof.
  apply (newest_card_is_listed_first stableEngine (arrivingAt 3)
           (upload "leao" "data:c" 20) "leao" "data:c"); try done.
  intros r Hr. apply (proj1 (Forall_forall (λ r, (row_created_at r < 3)%N) _)) in Hr;
    [exact Hr|].
  repeat (apply Forall_cons; split; [simpl; lia|]). apply Forall_nil_2.
Defined.

Lemma deleteWhereId_absent id t :
  filter (rowOf id) t = [] → deleteWhereId id t = t.
Proof.
  unfold deleteWhereId, rowOf. induction t as [|r t IH]; [done|].
  rewrite !filter_cons.
  destruct (decide (row_id r = id)); [done|]. intros H.
  rewrite decide_True by done. by rewrite IH.
Qed.

(** X12: what is deleted is gone.  A DELETE that meets a working
    database is answered with success whether or not the card exists;
    from then on, until another request names this card, no listing
    holds a row for the id.  Deleting a card that is not there leaves
    the table as it is, so deleting twice is deleting once. *)
Theorem deleted_card_is_gone E a id t later a' :
  dbThrows a = false →
  Forall (λ ar, ¬ writes id ar.2) later → dbThrows a' = false →
  let deleted := delete_api_cards a id t in
  deleted.1 = DeletedJson ∧
  (∃ rows,
     (get_api_cards E a' (serve E later deleted.2)).1 = RowsJson rows ∧
     filter (rowOf id) rows = []) ∧
  (filter (rowOf id) t = [] → deleted.2 = t) ∧
  delete_api_cards a' id deleted.2 = (DeletedJson, deleted.2).
Proof.
  intros Hdb Hl Hdb'. cbv zeta. unfold delete_api_cards.
  rewrite Hdb, Hdb'. simpl.
  assert (filter (rowOf id) (deleteWhereId id t) = []) as Hgone.
  { rewrite filter_rowOf_deleteWhereId. by rewrite decide_True. }
  split_and!.
  - done.
  - apply listed_rowOf; [done|by left|]. by rewrite serve_frame.
  - apply deleteWhereId_absent.
  - f_equal. by apply deleteWhereId_absent.
Qed.

Lemma deleted_card_is_gone_witness :
  let t := [{| row_id := "gato"; row_image_data := "data:b"; row_created_at := 2 |};
            {| row_id := "leao"; row_image_data := "data:a"; row_created_at := 1 |}] in
  (delete_api_cards (arrivingAt 3) "leao" t).2 =
    [{| row_id := "gato"; row_image_data := "data:b"; row_created_at := 2 |}] ∧
  ∃ rows,
    (get_api_cards stableEngine (arrivingAt 9)
       (serve stableEngine
          [(arrivingAt 4, POST_cards (upload "pato" "data:c" 10))]
          (delete_api_cards (arrivingAt 3) "leao" t).2)).1 = RowsJson rows ∧
    filter (rowOf "leao") rows = [].
Proof.
  intros t. split; [by vm_compute|].
  refine (proj1 (proj2 (deleted_card_is_gone stableEngine (arrivingAt 3) "leao" t
            [(arrivingAt 4, POST_cards (upload "pato" "data:c" 10))]
            (arrivingAt 9) eq_refl _ eq_refl))).
  repeat (apply Forall_cons; split; [simpl; congruence|]). apply Forall_nil_2.
Defined.

(** X13: a request touches one card at most, and only when it
    succeeds.  A request answered with an error leaves the table as it
    was, and so does every listing; a POST is refused with 400, before
    the database is touched, exactly when its id or its image is
    missing or empty; and the rows of every card that the request does
    not name are the same before and after. *)
Theorem request_touches_one_card E a req t :
  let answer := handle E a req t in
  (ok answer.1 = false → answer.2 = t) ∧
  (req = GET_cards → answer.2 = t) ∧
  (∀ body, req = POST_cards body →
     (answer.1 = ErrorJson 400 ↔
      missing (body_id body) || missing (body_image_data body) = true)) ∧
  (∀ id, ¬ writes id req → filter (rowOf id) answer.2 = filter (rowOf id) t).
Proof.
  cbv zeta. split_and!.
  - destruct req as [|body|id]; simpl.
    + unfold get_api_cards. by destruct (dbThrows a).
    + destruct (post_api_cards_cases a body t)
        as [-> | [-> | (id & img & _ & _ & _ & _ & _ & ->)]]; done.
    + unfold delete_api_cards. by destruct (dbThrows a).
  - intros ->. simpl. unfold get_api_cards. by destruct (dbThrows a).
  - intros body ->. simpl. unfold post_api_cards.
    destruct (missing (body_id body) || missing (body_image_data body)) eqn:Hm;
      [done|].
    destruct (body_id body), (body_image_data body); simpl in *;
      rewrite ?orb_true_r in Hm; try done.
    destruct (dbThrows a); simpl; split; done.
  - intros id. apply handle_frame.
Qed.

(** * The local catalog in the game *)

Lemma loadCards_local sv :
  appwriteConfigured sv = false ∨ appwrite_getCards sv = Rejected →
  loadCards sv = local_getCards sv.
Proof.
  unfold loadCards. intros [-> | ->]; [done|]. by destruct (appwriteConfigured sv).
Qed.

Lemma cardId_cardOfRow (rows : list Row) : cardId <$> (cardOfRow <$> rows) = row_id <$> rows.
Proof. rewrite <- list_fmap_compose. by apply list_fmap_ext. Qed.

Lemma initGame_started rnd mode allCards w :
  (6 ≤ length allCards)%nat →
  initGame rnd mode allCards w =
  Started (init_world (initGame rnd mode allCards w)).
Proof. intros H. unfold initGame. by rewrite bool_decide_eq_false_2 by lia. Qed.

Lemma cards_initGame rnd mode allCards w :
  (6 ≤ length allCards)%nat →
  cards (app (init_world (initGame rnd mode allCards w))) = buildDeck rnd allCards.
Proof. intros H. unfold initGame. by rewrite bool_decide_eq_false_2 by lia. Qed.

Lemma six_identities rnd allCards :
  (6 ≤ length allCards)%nat → NoDup (cardId <$> allCards) →
  length (remove_dups (identity <$> buildDeck rnd allCards)) = 6%nat.
Proof.
  intros Hlen Hnd.
  rewrite <- (length_selectedOf rnd allCards Hlen).
  rewrite <- (length_fmap cardId (selectedOf rnd allCards)).
  apply Permutation_length, NoDup_Permutation.
  - apply NoDup_remove_dups.
  - by apply NoDup_selectedOf.
  - intros x. rewrite elem_of_remove_dups. apply identity_buildDeck.
Qed.



(** X15: a restart that meets a failing database.  When the catalog
    comes from the card server and the listing throws there, the server
    answers 500 with an error object; [initGame] then neither starts a
    game nor asks for six cards: its promise rejects after the mode,
    the turn and the scores have been reset, with the deck, the
    selection, the matches, the moves, the view and the pending timers
    of the game in progress left as they were. *)
Theorem initGame_on_server_error E a table sv rnd mode w :
  appwriteConfigured sv = false ∨ appwrite_getCards sv = Rejected →
  local_getCards sv = Resolved (cards_json (get_api_cards E a table).1) →
  dbThrows a = true →
  ∃ w',
    initGame_async rnd mode sv w = Threw w' ∧
    gameMode (app w') = mode ∧ currentPlayer (app w') = Player1 ∧
    scores (app w') = {| p1 := 0; p2 := 0 |} ∧
    cards (app w') = cards (app w) ∧
    flippedCards (app w') = flippedCards (app w) ∧
    matches (app w') = matches (app w) ∧ moves (app w') = moves (app w) ∧
    isWon (app w') = isWon (app w) ∧ view (app w') = view (app w) ∧
    pending w' = pending w ∧ clock w' = clock w.
Proof.
  intros Hsv Hlocal Hdb. unfold initGame_async.
  rewrite loadCards_local, Hlocal by done.
  unfold get_api_cards. rewrite Hdb. simpl. eexists. split; [done|]. done.
Qed.

Lemma initGame_on_server_error_witness :
  let w := run [Click 0; Click 1; Elapse 2600; Click 2]
             (init_world (initGame keepOrder multiplayer sampleCatalog initialWorld)) in
  let sv := localServices stableEngine {| now := 50; dbThrows := true |} [] in
  ∃ w',
    initGame_async keepOrder (gameMode (app w)) sv w = Threw w' ∧
    scores (app w) = {| p1 := 20; p2 := 0 |} ∧
    scores (app w') = {| p1 := 0; p2 := 0 |} ∧
    matches (app w') = 1 ∧ cards (app w') = cards (app w).
Proof.
  intros w sv.
  assert (Hs : scores (app w) = {| p1 := 20; p2 := 0 |}) by by_evaluation.
  assert (Hm : matches (app w) = 1) by by_evaluation.
  clearbody w.
  destruct (initGame_on_server_error stableEngine {| now := 50; dbThrows := true |}
              [] sv keepOrder (gameMode (app w)) w (or_introl eq_refl) eq_refl eq_refl)
    as (w' & H1 & _ & _ & H4 & H5 & _ & H7 & _).
  exists w'. exact (conj H1 (conj Hs (conj H4 (conj (eq_trans H7 Hm) H5)))).
Defined.

(** * Access to the admin panel *)

Lemma handleCardClick_access u w :
  view (app (world_of (handleCardClick u w))) = view (app w) ∧
  isAdminAuth (app (world_of (handleCardClick u w))) = isAdminAuth (app w).
Proof.
  unfold handleCardClick. cbv zeta. repeat case_match; done.
Qed.

Lemma clickCard_access k w :
  view (app (world_of (clickCard k w))) = view (app w) ∧
  isAdminAuth (app (world_of (clickCard k w))) = isAdminAuth (app w).
Proof.
  unfold clickCard. destruct (view (app w)) eqn:Hv; simpl; try done.
  destruct (cards (app w) !! k) as [c|]; [|done].
  unfold Card_onClick. destruct (_ && _); [|done].
  destruct (handleCardClick_access (uniqueId c) w) as [-> ->]. done.
Qed.

Lemma runCallback_access cb w :
  view (app (runCallback cb w)) = view (app w) ∧
  isAdminAuth (app (runCallback cb w)) = isAdminAuth (app w).
Proof.
  destruct cb as [f s fc gm cp m|fc gm cp m|nf gm]; simpl; [done| |].
  - by destruct (bool_decide (m + 1 = 6)).
  - by destruct gm.
Qed.

Lemma tick_access w :
  view (app (tick w)) = view (app w) ∧
  isAdminAuth (app (tick w)) = isAdminAuth (app w).
Proof.
  unfold tick.
  generalize (filter (λ p, (p.1 ≤ clock w + 1)%N) (pending w)).
  generalize (filter (λ p, ¬ (p.1 ≤ clock w + 1)%N) (pending w)).
  intros rest due.
  change (view (app w)) with
    (view (app {| app := app w; pending := rest; clock := clock w + 1 |})).
  change (isAdminAuth (app w)) with
    (isAdminAuth (app {| app := app w; pending := rest; clock := clock w + 1 |})).
  generalize {| app := app w; pending := rest; clock := (clock w + 1)%N |}.
  induction due as [|p due IH]; intros w'; [done|]. simpl.
  destruct (IH (runCallback p.2 w')) as [-> ->]. apply runCallback_access.
Qed.

Lemma advance_access n w :
  view (app (advance n w)) = view (app w) ∧
  isAdminAuth (app (advance n w)) = isAdminAuth (app w).
Proof.
  induction n as [|n [IH1 IH2]]; [done|]. rewrite advance_S.
  destruct (tick_access (advance n w)) as [-> ->]. done.
Qed.

(** [initGame] opens the admin view for an authenticated user only and
    never authenticates. *)
Lemma initGame_async_access rnd mode sv w :
  let w' := result_world (initGame_async rnd mode sv w) in
  isAdminAuth (app w') = isAdminAuth (app w) ∧
  (view (app w') = admin → view (app w) = admin ∨ isAdminAuth (app w) = true).
Proof.
  cbv zeta. unfold initGame_async.
  destruct (loadCards sv) as [[allCards|]|]; simpl; [|by auto..].
  unfold initGame. case_bool_decide; simpl; [|done].
  unfold handleAdminAccess. destruct (isAdminAuth (app w)) eqn:Ha; simpl; auto.
Qed.

(** What one action can do to the authentication and to the view. *)
Lemma act_access a p :
  let q := act a p in
  (isAdminAuth (app (world q)) = isAdminAuth (app (world p)) ∨
   a = SubmitPassword ∧ passwordInput p = adminPassword ∧
   view (app (world p)) ≠ admin ∧
   isAdminAuth (app (world q)) = true) ∧
  (view (app (world q)) = admin →
   view (app (world p)) = admin ∨ isAdminAuth (app (world q)) = true).
Proof.
  cbv zeta. unfold act. destruct (rendered a p) eqn:Hr; simpl; [|by auto].
  destruct a; simpl in *; try (split; [by left | by auto]).
  - unfold handleAdminAccess.
    destruct (isAdminAuth (app (world p))) eqn:Ha; simpl; rewrite ?Ha; auto.
  - unfold handleAuth. apply andb_true_iff in Hr as [Hv%bool_decide_eq_true _].
    case_bool_decide; simpl; auto 6.
  - destruct (initGame_async_access rnd solo sv (world p)) as [-> Hv].
    split; [by left|]. intros [?| ->]%Hv; auto.
  - destruct (initGame_async_access rnd multiplayer sv (world p)) as [-> Hv].
    split; [by left|]. intros [?| ->]%Hv; auto.
  - destruct (initGame_async_access rnd (gameMode (app (world p))) sv (world p))
      as [-> Hv].
    split; [by left|]. intros [?| ->]%Hv; auto.
  - destruct (initGame_async_access rnd (gameMode (app (world p))) sv (world p))
      as [-> Hv].
    split; [by left|]. intros [?| ->]%Hv; auto.
  - destruct (clickCard_access k (world p)) as [-> ->]. auto.
  - destruct (advance_access ms (world p)) as [-> ->]. auto.
Qed.

Lemma perform_snoc actions a p :
  perform (actions ++ [a]) p = act a (perform actions p).
Proof. unfold perform. by rewrite foldl_app. Qed.

Lemma perform_guarded actions p :
  (view (app (world p)) = admin → isAdminAuth (app (world p)) = true) →
  view (app (world (perform actions p))) = admin →
  isAdminAuth (app (world (perform actions p))) = true.
Proof.
  intros Hp. induction actions as [|a actions IH] using rev_ind; [done|].
  rewrite perform_snoc. intros Hv.
  destruct (act_access a (perform actions p)) as [Ha Hq].
  destruct (Hq Hv) as [Hadm|?]; [|done].
  destruct Ha as [-> | (_ & _ & _ & ?)]; auto.
Qed.

Lemma perform_authenticated actions p :
  isAdminAuth (app (world p)) = false →
  isAdminAuth (app (world (perform actions p))) = true →
  ∃ pre post, actions = pre ++ SubmitPassword :: post ∧
              passwordInput (perform pre p) = adminPassword ∧
              view (app (world (perform pre p))) ≠ admin.
Proof.
  intros Hp. induction actions as [|a actions IH] using rev_ind.
  { simpl. congruence. }
  rewrite perform_snoc. intros Hq.
  destruct (isAdminAuth (app (world (perform actions p)))) eqn:Hl.
  - destruct (IH eq_refl) as (pre & post & -> & Hpw).
    exists pre, (post ++ [a]). split; [|done]. by rewrite <- app_assoc.
  - destruct (act_access a (perform actions p)) as [[Ha | (-> & Hpw & Hv & _)] _].
    + congruence.
    + by exists actions, [].
Qed.

Lemma act_passwordInput a p :
  passwordInput (act a p) = passwordInput p ∨
  passwordInput (act a p) = "" ∨
  ∃ s, a = TypePassword s ∧ passwordInput (act a p) = s.
Proof.
  unfold act. destruct (rendered a p); simpl; [|by left].
  destruct a; simpl; try by left.
  - right; right. by eexists.
  - right; left. unfold handleAuth. by case_bool_decide.
Qed.

Lemma perform_typed actions p :
  passwordInput p ≠ adminPassword →
  passwordInput (perform actions p) = adminPassword →
  TypePassword adminPassword ∈ actions.
Proof.
  intros Hp. induction actions as [|a actions IH] using rev_ind; [done|].
  rewrite perform_snoc. intros Hq. apply elem_of_app.
  destruct (act_passwordInput a (perform actions p)) as [He|[He|(s & -> & He)]].
  - left. apply IH. congruence.
  - rewrite He in Hq. done.
  - right. rewrite He in Hq. rewrite Hq. apply list_elem_of_here.
Qed.





(** X18: the password form admits the password and nothing else.  For
    a user who is not authenticated, pressing the settings button,
    typing [s] and submitting the form shows the admin view exactly
    when [s] is the password; the user is then authenticated and the
    form is closed.  With any other input the form stays open and the
    view is the one of before.  The input is cleared either way. *)
Theorem password_form_admits_the_password p s :
  view (app (world p)) ≠ admin → isAdminAuth (app (world p)) = false →
  let q := perform [SettingsButton; TypePassword s; SubmitPassword] p in
  passwordInput q = "" ∧
  (view (app (world q)) = admin ↔ s = adminPassword) ∧
  isAdminAuth (app (world q)) = bool_decide (s = adminPassword) ∧
  showPassModal (app (world q)) = negb (bool_decide (s = adminPassword)) ∧
  (s ≠ adminPassword → view (app (world q)) = view (app (world p))).
Proof.
  intros Hv Ha. cbv zeta. unfold perform. cbn [foldl].
  assert (act SettingsButton p = onApp (setShowPassModal true) p) as ->.
  { cbv beta iota zeta delta [act rendered].
    rewrite bool_decide_eq_true_2 by done. cbn [negb].
    unfold onApp, onWorld, handleAdminAccess. cbn. by rewrite Ha. }
  assert (∀ p', view (app (world p')) ≠ admin → showPassModal (app (world p')) = true →
          act (TypePassword s) p' = setPasswordInput s p') as Ht.
  { intros p' Hv' Hm'. cbv beta iota zeta delta [act rendered].
    rewrite bool_decide_eq_true_2 by done. by rewrite Hm'. }
  rewrite Ht by done.
  assert (∀ p', view (app (world p')) ≠ admin → showPassModal (app (world p')) = true →
          act SubmitPassword p' = handleAuth p') as Hs.
  { intros p' Hv' Hm'. cbv beta iota zeta delta [act rendered].
    rewrite bool_decide_eq_true_2 by done. by rewrite Hm'. }
  rewrite Hs by done.
  unfold handleAuth. cbn [passwordInput setPasswordInput].
  case_bool_decide as Hpw; cbn.
  - split_and!; done.
  - split_and!; done.
Qed.

Lemma password_form_admits_the_password_witness :
  view (app (world (perform [SettingsButton; TypePassword "Guadalupe@12";
                             SubmitPassword] initialPage))) = menu ∧
  showPassModal (app (world (perform [SettingsButton; TypePassword "Guadalupe@12";
                             SubmitPassword] initialPage))) = true.
Proof.
  destruct (password_form_admits_the_password initialPage "Guadalupe@12")
    as (_ & _ & _ & Hm & Hv); [done|done|].
  split; [apply Hv; discriminate | exact Hm].
Defined.

(** * Uploads *)

Lemma filter_cardId_cardOfRow id (rows : list Row) :
  filter (λ d, cardId d = id) (cardOfRow <$> rows) =
  cardOfRow <$> filter (rowOf id) rows.
Proof.
  induction rows as [|r rows IH]; [done|].
  rewrite fmap_cons, !filter_cons, IH. unfold rowOf. simpl.
  by destruct (decide (row_id r = id)).
Qed.

Lemma sendCard_local net body rows a id img :
  appwriteActive net = false ∨ appwrite_uploadCard net = Rejected →
  local_delivery net = Handled a → dbThrows a = false →
  body_id body = Some id → body_image_data body = Some img →
  id ≠ "" → img ≠ "" →
  sendCard net body rows = (Resolved true, insertOrReplace id img (now a) rows).
Proof.
  intros Hnet Hd Hdb Hid Himg Hne1 Hne2.
  assert (sendCard net body rows = postCard (local_delivery net) body rows) as ->.
  { unfold sendCard. destruct Hnet as [-> | ->]; [done|].
    by destruct (appwriteActive net). }
  rewrite Hd. unfold postCard.
  by rewrite (post_api_cards_saved a body id img).
Qed.

Lemma listed_after E a' later id img t rows sv :
  appwriteConfigured sv = false ∨ appwrite_getCards sv = Rejected →
  local_getCards sv =
    Resolved (cards_json
      (get_api_cards E a' (serve E later (insertOrReplace id img t rows))).1) →
  Forall (λ ar, ¬ writes id ar.2) later → dbThrows a' = false →
  ∃ l, loadCards sv = Resolved (CardsArray l) ∧
       filter (λ d, cardId d = id) l =
       [cardOfRow {| row_id := id; row_image_data := img; row_created_at := t |}].
Proof.
  intros Hsv Hlocal Hl Hdb. rewrite loadCards_local, Hlocal by done.
  destruct (listed_rowOf E a' id (serve E later (insertOrReplace id img t rows))
              [{| row_id := id; row_image_data := img; row_created_at := t |}])
    as (l & Hget & Hf); [done|by right; eexists| |].
  { rewrite serve_frame by done. rewrite filter_rowOf_insertOrReplace.
    by rewrite decide_True. }
  rewrite Hget. simpl. eexists. split; [done|].
  by rewrite filter_cardId_cardOfRow, Hf.
Qed.

(** X19: an upload from the admin panel over the local API.  With a
    card id and an image chosen, Appwrite not active or rejecting, and
    the request handled by a working server, [handleUpload] shows no
    alert, clears the form, ends with [loading] false and starts
    [fetchCards]; the request always passes the validation of the
    route.  The list that [fetchCards] then loads holds the card once,
    with the image sent in place of any earlier one, and without
    points, whether or not the card was marked as valuable. *)
Theorem admin_upload_is_listed E net a a' later sv p rows img :
  AdminPanel.newId p ≠ "" → AdminPanel.newImage p = Some img → img ≠ "" →
  appwriteActive net = false ∨ appwrite_uploadCard net = Rejected →
  local_delivery net = Handled a → dbThrows a = false →
  let r := AdminPanel.handleUpload net p rows in
  appwriteConfigured sv = false ∨ appwrite_getCards sv = Rejected →
  local_getCards sv =
    Resolved (cards_json
      (get_api_cards E a' (serve E later (AdminPanel.table r))).1) →
  Forall (λ ar, ¬ writes (AdminPanel.newId p) ar.2) later →
  dbThrows a' = false →
  AdminPanel.alert r = None ∧ AdminPanel.refresh r = true ∧
  AdminPanel.panel r =
    {| AdminPanel.cards := AdminPanel.cards p; AdminPanel.newId := "";
       AdminPanel.newImage := None; AdminPanel.isValuable := false;
       AdminPanel.loading := false |} ∧
  ∃ l,
    AdminPanel.cards (AdminPanel.fetchCards sv (AdminPanel.panel r)) =
      CardsArray l ∧
    filter (λ d, cardId d = AdminPanel.newId p) l =
    [{| cardId := AdminPanel.newId p; image_data := img; points := None;
        author := None; appwriteId := None; fileId := None |}].
Proof.
  intros Hid Himg Hne Hnet Hd Hdb. cbv zeta.
  unfold AdminPanel.handleUpload. rewrite Himg. simpl.
  rewrite !bool_decide_eq_false_2 by done. simpl.
  rewrite (sendCard_local net _ rows a (AdminPanel.newId p) img) by done.
  simpl. intros Hsv Hlocal Hl Hdb'.
  split_and!; try done.
  destruct (listed_after E a' later _ _ _ _ sv Hsv Hlocal Hl Hdb')
    as (l & Hload & Hf).
  exists l. unfold AdminPanel.fetchCards. by rewrite Hload.
Qed.

Lemma admin_upload_is_listed_witness :
  let p := {| AdminPanel.cards := CardsArray []; AdminPanel.newId := "leao";
              AdminPanel.newImage := Some "data:image/png;base64,HHHH";
              AdminPanel.isValuable := true; AdminPanel.loading := false |} in
  let old := [{| row_id := "leao"; row_image_data := "data:image/png;base64,AAAA";
                 row_created_at := 1 |}] in
  let r := AdminPanel.handleUpload (localNetwork (arrivingAt 8)) p old in
  let sv := localServices stableEngine (arrivingAt 9)
              (serve stableEngine [] (AdminPanel.table r)) in
  AdminPanel.cards (AdminPanel.fetchCards sv (AdminPanel.panel r)) =
  CardsArray [{| cardId := "leao"; image_data := "data:image/png;base64,HHHH";
                 points := None; author := None; appwriteId := None;
                 fileId := None |}] ∧
  AdminPanel.alert r = None.
Proof.
  intros p old r sv. split; [by vm_compute|].
  refine (proj1 (admin_upload_is_listed stableEngine (localNetwork (arrivingAt 8))
            (arrivingAt 8) (arrivingAt 9) [] sv p old "data:image/png;base64,HHHH"
            _ eq_refl _ (or_introl eq_refl) eq_refl eq_refl
            (or_introl eq_refl) eq_refl (Forall_nil_2 _) eq_refl)); done.
Defined.

(** X20: a drawing sent by a student over the local API.  With an id, an
    author and an image filled in, Appwrite not active or rejecting, and
    the request handled by a working server, [handleUpload] thanks the
    student, clears the form, closes the dialog and ends with [loading]
    false.  The table then holds exactly one row for the id, with the
    image sent, in place of any row the id had before, and the rows of
    all other cards are as they were. *)
Theorem student_upload_is_saved net a p rows img :
  StudentUploadModal.newId p ≠ "" →
  StudentUploadModal.newImage p = Some img → img ≠ "" →
  StudentUploadModal.authorName p ≠ "" →
  appwriteActive net = false ∨ appwrite_uploadCard net = Rejected →
  local_delivery net = Handled a → dbThrows a = false →
  let r := StudentUploadModal.handleUpload net p rows in
  StudentUploadModal.alert r = Some DrawingSent ∧
  StudentUploadModal.closed r = true ∧
  StudentUploadModal.modal r =
    {| StudentUploadModal.newId := ""; StudentUploadModal.authorName := "";
       StudentUploadModal.newImage := None;
       StudentUploadModal.loading := false |} ∧
  filter (rowOf (StudentUploadModal.newId p)) (StudentUploadModal.table r) =
    [{| row_id := StudentUploadModal.newId p; row_image_data := img;
        row_created_at := now a |}] ∧
  ∀ id, id ≠ StudentUploadModal.newId p →
        filter (rowOf id) (StudentUploadModal.table r) = filter (rowOf id) rows.
Proof.
  intros Hid Himg Hne Hau Hnet Hd Hdb. cbv zeta.
  unfold StudentUploadModal.handleUpload. rewrite Himg. simpl.
  rewrite !bool_decide_eq_false_2 by done. simpl.
  rewrite (sendCard_local net _ rows a (StudentUploadModal.newId p) img) by done.
  simpl. split_and!; try done.
  - rewrite filter_rowOf_insertOrReplace. by rewrite decide_True.
  - intros id Hne'. rewrite filter_rowOf_insertOrReplace.
    by rewrite decide_False.
Qed.

Lemma student_upload_is_saved_witness :
  let p := {| StudentUploadModal.newId := "leao";
              StudentUploadModal.authorName := "Ana";
              StudentUploadModal.newImage := Some "data:image/png;base64,ZZZZ";
              StudentUploadModal.loading := false |} in
  let rows := serve stableEngine sampleUploads [] in
  let r := StudentUploadModal.handleUpload (localNetwork (arrivingAt 20)) p rows in
  filter (rowOf "leao") rows =
    [{| row_id := "leao"; row_image_data := "data:image/png;base64,HHHH";
        row_created_at := 8 |}] ∧
  filter (rowOf "leao") (StudentUploadModal.table r) =
    [{| row_id := "leao"; row_image_data := "data:image/png;base64,ZZZZ";
        row_created_at := 20 |}].
Proof.
  intros p rows r. split; [by vm_compute|].
  refine (proj1 (proj2 (proj2 (proj2
            (student_upload_is_saved (localNetwork (arrivingAt 20)) (arrivingAt 20)
               p rows "data:image/png;base64,ZZZZ"
               _ eq_refl _ _ (or_introl eq_refl) eq_refl eq_refl))))); done.
Defined.


(** * The Appwrite catalog in the game *)

Lemma worth_cardOfDocument fv doc :
  worth (cardOfDocument fv doc) = orTen (doc_points doc) ∧
  points (cardOfDocument fv doc) = Some (worth (cardOfDocument fv doc)).
Proof.
  unfold worth, cardPoints, orTen. simpl.
  destruct (doc_points doc) as [p|]; simpl; [|done].
  destruct (bool_decide (p = 0)) eqn:Hp; simpl; [done|]. by rewrite Hp.
Qed.



(** * The notice of a found pair *)

Lemma highlighted_withIsFlipped b c :
  highlighted (withIsFlipped b c) ↔ highlighted c.
Proof. done. Qed.

Lemma not_highlighted_flipAt k l :
  (∀ c, c ∈ l → ¬ highlighted c) → ∀ c, c ∈ flipAt k l → ¬ highlighted c.
Proof.
  intros Hl c (i & Hi)%list_elem_of_lookup_1. unfold flipAt in Hi.
  destruct (decide (i = k)) as [->|Hne].
  - rewrite list_lookup_alter_eq in Hi.
    destruct (l !! k) as [c'|] eqn:Hk; simpl in Hi; [|done].
    injection Hi as <-. rewrite highlighted_withIsFlipped.
    apply Hl. by eapply list_elem_of_lookup_2.
  - rewrite list_lookup_alter_ne in Hi by done.
    apply Hl. by eapply list_elem_of_lookup_2.
Qed.

Lemma ClickEffect_Notice k w w' :
  Inv w → Notice w → ClickEffect k w w' → Notice w'.
Proof.
  intros HI HN [|c Hk Hf Hmt Hfl|c a c1 fc Hk Hf Hmt Hfl Hc1 Hu1 Hup1 Hfc]; [done| |].
  - pose proof (inv_timers _ HI) as Ht. unfold timersFor in Ht. rewrite Hfl in Ht.
    unfold Notice in *. simpl. rewrite Ht in *. destruct HN as [HN1 HN2].
    split; [done|]. by apply not_highlighted_flipAt.
  - pose proof (Inv_one_selected_no_timer w a HI Hfl) as Hp.
    unfold Notice in *. rewrite Hp in HN. destruct HN as [HN1 HN2].
    cbv zeta. unfold secondCallback.
    destruct (bool_decide (identity c1 = identity c)); simpl; rewrite Hp; simpl;
      (split; [done|]); by apply not_highlighted_flipAt.
Qed.

Lemma TickEffect_Notice w w' :
  Inv w → Notice w → TickEffect w w' → Notice w'.
Proof.
  intros HI HN [Hw|a b cb Hfl Hp Hcap]; [done|].
  unfold Notice in *. rewrite Hp in HN.
  destruct cb as [f s fc gm cp m|fc gm cp m|nf gm]; simpl in *.
  - destruct HN as [HN1 HN2]. destruct Hcap as (-> & -> & _).
    split; [done|]. rewrite Hfl.
    intros c' (c & -> & Hc)%list_elem_of_fmap.
    unfold highlightPair, highlighted.
    destruct (bool_decide (uniqueId c = a)) eqn:Ea; simpl.
    { apply bool_decide_eq_true in Ea. split; [|done]. intros _.
      rewrite Ea. apply list_elem_of_here. }
    destruct (bool_decide (uniqueId c = b)) eqn:Eb; simpl.
    { apply bool_decide_eq_true in Eb. split; [|done]. intros _.
      rewrite Eb. apply list_elem_of_further, list_elem_of_here. }
    apply bool_decide_eq_false in Ea, Eb. split.
    + intros Hh. by destruct (HN2 c Hc).
    + intros [?|[?|[]%elem_of_nil]%elem_of_cons]%elem_of_cons; done.
  - destruct HN as [HN1 HN2]. destruct Hcap as (_ & _ & _ & Hsame).
    assert (∀ c', c' ∈ markMatched fc <$> cards (app w) → ¬ highlighted c') as Hno.
    { intros c' (c & -> & Hc)%list_elem_of_fmap.
      unfold markMatched, highlighted. case_bool_decide as Hid; simpl; [done|].
      intros Hh%(HN2 c Hc). rewrite Hfl in Hh. by apply Hid, Hsame. }
    by destruct (bool_decide (m + 1 = 6)).
  - destruct HN as [HN1 HN2].
    assert (∀ c', c' ∈ flipBack nf <$> cards (app w) → ¬ highlighted c') as Hno.
    { intros c' (c & -> & Hc)%list_elem_of_fmap.
      unfold flipBack. case_bool_decide; [|by apply HN2].
      rewrite highlighted_withIsFlipped. by apply HN2. }
    by destruct gm.
Qed.

Lemma Notice_initGame rnd mode allCards w0 :
  pending w0 = [] → matchedCardId (app w0) = None →
  (6 ≤ length allCards)%nat →
  Notice (init_world (initGame rnd mode allCards w0)).
Proof.
  intros Hp Hm H6. unfold Notice, initGame.
  rewrite bool_decide_eq_false_2 by lia. simpl. rewrite Hp. split; [done|].
  intros c (i & d & t & _ & ->)%buildDeck_elem. done.
Qed.



(** * The list of the admin panel *)

(** X24: what the admin panel lists.  When the catalog comes from the
    card server, [fetchCards] leaves every other cell of the panel as
    it is; with a working database the list holds one card for each row
    of the table, no id twice, none with points; and when the listing
    throws on the server, the list becomes the error object of the 500
    answer. *)
Theorem panel_lists_the_table E a rows sv p :
  appwriteConfigured sv = false ∨ appwrite_getCards sv = Rejected →
  local_getCards sv = Resolved (cards_json (get_api_cards E a rows).1) →
  NoDup (row_id <$> rows) →
  let p' := AdminPanel.fetchCards sv p in
  AdminPanel.setCards (AdminPanel.cards p) p' = p ∧
  if dbThrows a then AdminPanel.cards p' = ErrorObject
  else ∃ l, AdminPanel.cards p' = CardsArray l ∧
            cardId <$> l ≡ₚ row_id <$> rows ∧ NoDup (cardId <$> l) ∧
            Forall (λ d, points d = None) l.
Proof.
  intros Hsv Hlocal Hnd. cbv zeta. unfold AdminPanel.fetchCards.
  rewrite loadCards_local, Hlocal by done. unfold get_api_cards.
  split; [by destruct p|].
  destruct (dbThrows a); simpl; [done|].
  eexists. split; [done|]. rewrite cardId_cardOfRow. split_and!.
  - by rewrite orderByCreatedAtDesc_perm.
  - by rewrite orderByCreatedAtDesc_perm.
  - apply Forall_forall. by intros d (r & -> & _)%list_elem_of_fmap.
Qed.

Lemma panel_lists_the_table_witness :
  let rows := serve stableEngine sampleUploads [] in
  let p := {| AdminPanel.cards := CardsArray []; AdminPanel.newId := "";
              AdminPanel.newImage := None; AdminPanel.isValuable := false;
              AdminPanel.loading := false |} in
  ∃ l, AdminPanel.cards
         (AdminPanel.fetchCards (localServices stableEngine (arrivingAt 30) rows) p)
       = CardsArray l ∧
       length l = 7%nat ∧ NoDup (cardId <$> l).
Proof.
  intros rows p.
  assert (Hlen : length rows = 7%nat) by by_evaluation.
  assert (Hnd : NoDup (row_id <$> rows)).
  { apply serve_NoDup. apply NoDup_nil_2. }
  destruct (panel_lists_the_table stableEngine (arrivingAt 30) rows
              (localServices stableEngine (arrivingAt 30) rows) p
              (or_introl eq_refl) eq_refl Hnd) as (_ & l & Hl & Hperm & Hnd' & _).
  exists l. split; [exact Hl|]. split; [|exact Hnd'].
  rewrite <- (length_fmap cardId l), (Permutation_length Hperm), length_fmap.
  exact Hlen.
Defined.

(** * Uploads and the six cards of a game *)

Lemma elem_of_row_id_insertOrReplace x id img t rows :
  x ∈ row_id <$> insertOrReplace id img t rows ↔ x = id ∨ x ∈ row_id <$> rows.
Proof.
  unfold insertOrReplace. rewrite fmap_app, elem_of_app. simpl.
  rewrite list_elem_of_singleton. split.
  - intros [(r & -> & Hr%list_elem_of_filter)%list_elem_of_fmap | ->]; [|by left].
    right. apply list_elem_of_fmap_2. by destruct Hr.
  - intros [-> | (r & -> & Hr)%list_elem_of_fmap]; [by right|].
    destruct (decide (row_id r = id)) as [?|Hne]; [by right|].
    left. apply list_elem_of_fmap_2. by apply list_elem_of_filter.
Qed.

Lemma serve_upload E u reqs rows :
  serve E (uploadRequest u :: reqs) rows =
  serve E reqs
    (post_api_cards (arrivingAt u.1.1.1) (upload (uploadId u) (uploadImage u) u.2)
       rows).2.
Proof. reflexivity. Qed.

Lemma serve_uploads_ids E ups rows x :
  Forall (λ u, uploadId u ≠ "" ∧ uploadImage u ≠ "") ups →
  x ∈ row_id <$> serve E (uploadRequest <$> ups) rows ↔
  x ∈ uploadId <$> ups ∨ x ∈ row_id <$> rows.
Proof.
  intros Hv. revert rows. induction Hv as [|u ups [Hid Himg] Hv IH]; intros rows.
  { simpl. rewrite elem_of_nil. tauto. }
  rewrite !fmap_cons, serve_upload.
  rewrite (post_api_cards_saved _ _ (uploadId u) (uploadImage u)) by done.
  cbn [snd]. rewrite IH, elem_of_row_id_insertOrReplace, elem_of_cons.
  tauto.
Qed.

(** X25: a game needs six different ids, not six uploads.  After any
    number of uploads to an empty table, each with an id and an image
    and each handled by a working server, the table holds one row for
    each different id; a client that plays on the local catalog gets a
    game exactly when at least six different ids were uploaded, and is
    asked for six cards otherwise. *)
Theorem six_different_ids_needed E ups a sv rnd mode w0 :
  Forall (λ u, uploadId u ≠ "" ∧ uploadImage u ≠ "") ups →
  let rows := serve E (uploadRequest <$> ups) [] in
  appwriteConfigured sv = false ∨ appwrite_getCards sv = Rejected →
  local_getCards sv = Resolved (cards_json (get_api_cards E a rows).1) →
  dbThrows a = false →
  row_id <$> rows ≡ₚ remove_dups (uploadId <$> ups) ∧
  match initGame_async rnd mode sv w0 with
  | Returned (Started _) => (6 ≤ length (remove_dups (uploadId <$> ups)))%nat
  | Returned (NeedSixCards _) => (length (remove_dups (uploadId <$> ups)) < 6)%nat
  | Threw _ => False
  end.
Proof.
  intros Hv rows Hsv Hlocal Hdb.
  assert (row_id <$> rows ≡ₚ remove_dups (uploadId <$> ups)) as Hperm.
  { apply NoDup_Permutation.
    - apply serve_NoDup, NoDup_nil_2.
    - apply NoDup_remove_dups.
    - intros x. unfold rows. rewrite serve_uploads_ids by done.
      rewrite elem_of_remove_dups. simpl. rewrite elem_of_nil. tauto. }
  split; [exact Hperm|].
  unfold initGame_async. rewrite loadCards_local, Hlocal by done.
  rewrite get_api_cards_rows by done. simpl.
  assert (length (cardOfRow <$> orderByCreatedAtDesc E rows) =
          length (remove_dups (uploadId <$> ups))) as Hlen.
  { rewrite length_fmap, (Permutation_length (orderByCreatedAtDesc_perm E rows)).
    by rewrite <- (Permutation_length Hperm), length_fmap. }
  unfold initGame. rewrite Hlen. case_bool_decide; [done|lia].
Qed.

Lemma six_different_ids_needed_witness :
  let ups := [(1%N, "leao", "data:a", 20); (2%N, "gato", "data:b", 10);
              (3%N, "pato", "data:c", 10); (4%N, "rato", "data:d", 10);
              (5%N, "lobo", "data:e", 10); (6%N, "leao", "data:f", 10)] in
  let rows := serve stableEngine (uploadRequest <$> ups) [] in
  length ups = 6%nat ∧ length rows = 5%nat ∧
  ∃ w, initGame_async keepOrder solo (localServices stableEngine (arrivingAt 9) rows)
         initialWorld = Returned (NeedSixCards w).
Proof.
  intros ups rows.
  assert (Hv : Forall (λ u, uploadId u ≠ "" ∧ uploadImage u ≠ "") ups).
  { repeat (apply Forall_cons; split; [split; discriminate|]). apply Forall_nil_2. }
  destruct (six_different_ids_needed stableEngine ups (arrivingAt 9)
              (localServices stableEngine (arrivingAt 9) rows) keepOrder solo
              initialWorld Hv (or_introl eq_refl) eq_refl eq_refl) as [Hp Hi].
  split; [reflexivity|]. split; [by vm_compute|].
  destruct (initGame_async keepOrder solo _ initialWorld) as [[w|w]|w].
  - by exists w.
  - exfalso. revert Hi. vm_compute. lia.
  - done.
Defined.

(** * The worth of the resolved cards *)

Lemma pieceKey_face (l : list GameCard) :
  pieceKey <$> l = (λ f, (cardId f.1, f.2)) <$> (face <$> l).
Proof. rewrite <- list_fmap_compose. by apply list_fmap_ext. Qed.

Lemma data_face (l : list GameCard) : data <$> l = fst <$> (face <$> l).
Proof. rewrite <- list_fmap_compose. by apply list_fmap_ext. Qed.

Lemma elem_of_face (l l' : list GameCard) c' :
  face <$> l' = face <$> l → c' ∈ l' → ∃ c, c ∈ l ∧ face c = face c'.
Proof.
  intros Hf Hc'. apply (list_elem_of_fmap_2 face) in Hc'. rewrite Hf in Hc'.
  apply list_elem_of_fmap in Hc' as (c & Hc & Hin). by exists c.
Qed.

Lemma Paired_face (l l' : list GameCard) : face <$> l' = face <$> l → Paired l → Paired l'.
Proof.
  intros Hf [Hk Hi Hd]. split.
  - by rewrite pieceKey_face, Hf, <- pieceKey_face.
  - intros c' Hc'. destruct (elem_of_face l l' c' Hf Hc') as (c & Hc & Hfc).
    rewrite pieceKey_face, Hf, <- pieceKey_face.
    unfold face in Hfc. injection Hfc as Hd1 _.
    replace (identity c') with (identity c); [by apply Hi|].
    unfold identity. by rewrite Hd1.
  - intros c1' c2' H1 H2 Hid.
    destruct (elem_of_face l l' c1' Hf H1) as (c1 & Hc1 & Hf1).
    destruct (elem_of_face l l' c2' Hf H2) as (c2 & Hc2 & Hf2).
    unfold face in Hf1, Hf2. injection Hf1 as Hd1 _. injection Hf2 as Hd2 _.
    rewrite <- Hd1, <- Hd2. apply Hd; try done.
    unfold identity in *. by rewrite Hd1, Hd2.
Qed.

Lemma credited_fmap (f : GameCard → GameCard) l :
  (∀ c, credit (f c) = credit c) → credited (f <$> l) = credited l.
Proof.
  intros Hf. induction l as [|c l IH]; [done|].
  rewrite fmap_cons. simpl. by rewrite Hf, IH.
Qed.

Lemma credited_flipAt k l : credited (flipAt k l) = credited l.
Proof.
  unfold flipAt. revert k. induction l as [|c l IH]; intros k; [done|].
  destruct k as [|k]; simpl; [done|].
  change (list_alter (withIsFlipped true) k l) with (alter (withIsFlipped true) k l).
  by rewrite IH.
Qed.

Lemma countIf_once {A B} `{EqDecision B} (g : A → B) (l : list A) k :
  NoDup (g <$> l) → k ∈ g <$> l →
  countIf (λ c, bool_decide (g c = k)) l = 1%nat.
Proof.
  induction l as [|c l IH]; [by intros _ ?%elem_of_nil|].
  rewrite fmap_cons. intros [Hni Hnd]%NoDup_cons Hin. simpl.
  case_bool_decide as Hk.
  - rewrite countIf_none; [done|]. intros x Hx.
    apply bool_decide_eq_false_2. intros Hx'. apply Hni. rewrite Hk, <- Hx'.
    by apply list_elem_of_fmap_2.
  - apply elem_of_cons in Hin as [?|Hin]; [done|]. by rewrite IH.
Qed.

(** Resolving the pieces of one identity credits the worth of its card
    once for each image piece of this identity. *)
Lemma credited_markMatched fc l :
  (∀ c, c ∈ l → identity c = identity fc →
        isMatched c = false ∧ data c = data fc) →
  credited (markMatched fc <$> l) =
  credited l +
  cardPoints fc *
    Z.of_nat (countIf (λ c, bool_decide (pieceKey c = (identity fc, image))) l).
Proof.
  induction l as [|c l IH]; intros Hl; [simpl; lia|].
  rewrite fmap_cons. simpl. rewrite IH by (intros c' Hc'; apply Hl; by right).
  assert (credit (markMatched fc c) =
          credit c + cardPoints fc *
            (if bool_decide (pieceKey c = (identity fc, image)) then 1 else 0))
    as ->.
  { unfold markMatched, pieceKey.
    change (cardId (data c) = cardId (data fc)) with (identity c = identity fc).
    case_bool_decide as Hid.
    - destruct (Hl c (list_elem_of_here _ _) Hid) as [Hm Hd].
      unfold credit. simpl. rewrite Hm. simpl. rewrite Hd, cardPoints_worth.
      destruct (decide (cardType c = image)) as [Ht|Ht].
      + rewrite !bool_decide_eq_true_2 by congruence. lia.
      + rewrite !bool_decide_eq_false_2 by congruence. lia.
    - rewrite bool_decide_eq_false_2 by congruence. lia. }
  destruct (bool_decide (pieceKey c = (identity fc, image))); lia.
Qed.

Lemma NoDup_fmap_eq {A B} (g : A → B) (l : list A) x y :
  NoDup (g <$> l) → x ∈ l → y ∈ l → g x = g y → x = y.
Proof.
  intros Hnd (i & Hi)%list_elem_of_lookup_1 (j & Hj)%list_elem_of_lookup_1 Hg.
  assert (i = j) as ->; [|congruence].
  eapply NoDup_lookup; [exact Hnd| |]; rewrite list_lookup_fmap;
    [by rewrite Hi | by rewrite Hj, Hg].
Qed.

Lemma Paired_buildDeck rnd allCards :
  NoDup (cardId <$> allCards) → Paired (buildDeck rnd allCards).
Proof.
  intros Hnd. split.
  - by apply NoDup_pieceKey_buildDeck.
  - intros c Hc. apply pieceKey_buildDeck, identity_buildDeck.
    by apply list_elem_of_fmap_2.
  - intros c c' (i & d & t & Hd & ->)%buildDeck_elem
                (i' & d' & t' & Hd' & ->)%buildDeck_elem. simpl.
    apply (NoDup_fmap_eq cardId (selectedOf rnd allCards)); try done.
    by apply NoDup_selectedOf.
Qed.

Lemma Settled_initGame rnd mode allCards w0 :
  pending w0 = [] → (6 ≤ length allCards)%nat → NoDup (cardId <$> allCards) →
  Settled (init_world (initGame rnd mode allCards w0)).
Proof.
  intros Hp H6 Hnd. unfold initGame. rewrite bool_decide_eq_false_2 by lia.
  split; simpl.
  - by apply Paired_buildDeck.
  - rewrite Hp. intros t cb fc Hin. by apply elem_of_nil in Hin.
  - assert (∀ l : list GameCard, Forall (λ c, isMatched c = false) l →
                                  credited l = 0) as Hz.
    { induction 1 as [|c l Hc _ IH]; [done|]. simpl. unfold credit at 1.
      by rewrite Hc, IH. }
    rewrite Hz; [done|]. apply Forall_forall.
    intros c (i & d & t & _ & ->)%buildDeck_elem. done.
Qed.

Lemma ClickEffect_Settled k w w' :
  Inv w → Settled w → ClickEffect k w w' →
  Settled w' ∧ face <$> cards (app w') = face <$> cards (app w).
Proof.
  intros HI [Hpa Hcap Ht]
    [|c Hk Hf Hmt Hfl|c a c1 fc Hk Hf Hmt Hfl Hc1 Hu1 Hup1 Hfc]; [done| |].
  - assert (face <$> flipAt k (cards (app w)) = face <$> cards (app w)) as Hface
      by by apply fmap_alter_proj.
    split; [|done]. split; simpl.
    + by apply (Paired_face (cards (app w))).
    + intros t cb fc Hin Hc. rewrite data_flipAt. by eapply Hcap.
    + by rewrite credited_flipAt.
  - assert (face <$> flipAt k (cards (app w)) = face <$> cards (app w)) as Hface
      by by apply fmap_alter_proj.
    pose proof (Inv_one_selected_no_timer w a HI Hfl) as Hp.
    cbv zeta. unfold secondCallback.
    destruct (bool_decide (identity c1 = identity c));
      (split; [|done]; split; simpl; rewrite ?Hp;
       [by apply (Paired_face (cards (app w))) | | by rewrite credited_flipAt]).
    + intros t cb fc' [= -> ->]%list_elem_of_singleton. simpl.
      intros [= <-]. rewrite data_flipAt, Hfc. by apply list_elem_of_fmap_2.
    + intros t cb fc' [= -> ->]%list_elem_of_singleton. done.
Qed.

Lemma TickEffect_Settled w w' :
  Inv w → InvPairs w → Settled w → TickEffect w w' →
  Settled w' ∧ face <$> cards (app w') = face <$> cards (app w).
Proof.
  intros HI HP [Hpa Hcap Ht] [Hw|a b cb Hfl Hp Hcapt]; [done|].
  assert (∀ fc, capturedCard cb = Some fc → data fc ∈ data <$> cards (app w))
    as Hfc.
  { intros fc. apply (Hcap (clock w + 1)%N). rewrite Hp. apply list_elem_of_here. }
  destruct cb as [f s fc gm cp m|fc gm cp m|nf gm]; simpl in *.
  - assert (face <$> (highlightPair f s <$> cards (app w)) = face <$> cards (app w))
      as Hface.
    { apply fmap_fmap_proj. intros c. unfold highlightPair. by destruct (_ || _). }
    split; [|done]. split; simpl.
    + by apply (Paired_face (cards (app w))).
    + intros t cb fc' [= -> ->]%list_elem_of_singleton. simpl. intros [= <-].
      rewrite data_highlightPair. by apply Hfc.
    + rewrite credited_fmap; [done|]. intros c. unfold highlightPair.
      by destruct (_ || _).
  - assert (face <$> (markMatched fc <$> cards (app w)) = face <$> cards (app w))
      as Hface.
    { apply fmap_fmap_proj. intros c. unfold markMatched. by case_bool_decide. }
    destruct Hcapt as (-> & -> & _ & Hsame).
    (* the selected pieces carry the captured identity and are unresolved *)
    destruct (inv_sel _ HI a) as (ca & Hca & Hua & _ & Hma);
      [rewrite Hfl; apply list_elem_of_here|].
    assert (identity ca = identity fc) as Hida.
    { apply Hsame; [done|]. rewrite Hua. apply list_elem_of_here. }
    specialize (Hfc fc eq_refl).
    apply list_elem_of_fmap in Hfc as (c0 & Hd0 & Hc0).
    assert (∀ c, c ∈ cards (app w) → identity c = identity fc →
                 isMatched c = false ∧ data c = data fc) as Hfresh.
    { intros c Hc Hid. split.
      - rewrite <- Hma.
        apply (ps_uniform _ _ (ip_pairs _ HP) (shape c) (shape ca));
          [by apply list_elem_of_fmap_2 | by apply list_elem_of_fmap_2 |].
        simpl. congruence.
      - rewrite Hd0. apply (pa_data _ Hpa); try done.
        unfold identity in *. by rewrite <- Hd0. }
    assert (credited (markMatched fc <$> cards (app w)) =
            credited (cards (app w)) + cardPoints fc) as Hcr.
    { rewrite credited_markMatched by done.
      rewrite (countIf_once pieceKey); [lia|apply (pa_keys _ Hpa)|].
      rewrite <- Hida. by apply (pa_image _ Hpa). }
    assert (Settled
              (withApp (setFlippedCards []
                 (setScores (creditScore (gameMode (app w)) (currentPlayer (app w))
                                         (cardPoints fc))
                    (setMatchedCardId None
                       (setMatches (λ m, m + 1)
                          (setCards (fmap (markMatched fc)) (app w))))))
                 {| app := app w; pending := []; clock := clock w + 1 |})) as H.
    { split; simpl.
      - by apply (Paired_face (cards (app w))).
      - intros t cb fc' Hin. by apply elem_of_nil in Hin.
      - rewrite Hcr. unfold creditScore.
        destruct (gameMode (app w)), (currentPlayer (app w)); simpl; lia. }
    destruct (bool_decide (m + 1 = 6)); [|by split].
    split; [|done]. destruct H as [H1 H2 H3]. split; simpl in *; done.
  - assert (face <$> (flipBack nf <$> cards (app w)) = face <$> cards (app w))
      as Hface.
    { apply fmap_fmap_proj. intros c. unfold flipBack. by case_bool_decide. }
    assert (credited (flipBack nf <$> cards (app w)) = credited (cards (app w)))
      as Hcr.
    { apply credited_fmap. intros c. unfold flipBack. by case_bool_decide. }
    assert (∀ s, cards s = flipBack nf <$> cards (app w) →
                 scores s = scores (app w) →
                 Settled {| app := s; pending := []; clock := clock w + 1 |})
      as Hmk.
    { intros s Hcs Hss. split; simpl.
      - rewrite Hcs. by apply (Paired_face (cards (app w))).
      - intros t cb fc' Hin. by apply elem_of_nil in Hin.
      - by rewrite Hcs, Hss, Hcr. }
    destruct gm; (split; [by apply Hmk|done]).
Qed.

Lemma credited_all_resolved l :
  (∀ c, c ∈ l → isMatched c = true) →
  credited l = totalWorth ((face <$> l) ≫= imageCard).
Proof.
  induction l as [|c l IH]; intros Hl; [done|].
  rewrite fmap_cons, bind_cons. simpl.
  rewrite IH by (intros c' Hc'; apply Hl; by right).
  unfold credit, imageCard, face. rewrite (Hl c (list_elem_of_here _ _)). simpl.
  by destruct (cardType c).
Qed.

Lemma totalWorth_Permutation l1 l2 : l1 ≡ₚ l2 → totalWorth l1 = totalWorth l2.
Proof. induction 1; simpl; lia. Qed.

Lemma imageCard_gamePoolOf selected :
  (face <$> gamePoolOf selected) ≫= imageCard = selected.
Proof.
  unfold gamePoolOf. induction selected as [|d l IH]; [done|].
  rewrite bind_cons, fmap_app, bind_app, IH. done.
Qed.



(** * Clicks in any session *)

Lemma find_is_Some u l : u ∈ uniqueId <$> l → is_Some (find u l).
Proof.
  intros (c & -> & Hc)%list_elem_of_fmap. unfold find.
  destruct (list_find_elem_of (λ c', uniqueId c' = uniqueId c) l c Hc eq_refl)
    as [[j c'] ->]. by eexists.
Qed.

Lemma findIndex_is_Some u l : u ∈ uniqueId <$> l → is_Some (findIndex u l).
Proof.
  intros (c & -> & Hc)%list_elem_of_fmap. unfold findIndex.
  destruct (list_find_elem_of (λ c', uniqueId c' = uniqueId c) l c Hc eq_refl)
    as [[j c'] ->]. by eexists.
Qed.

Lemma handleCardClick_Selectable u w :
  u ∈ uniqueId <$> cards (app w) → Selectable (app w) →
  ∃ w', handleCardClick u w = Done w' ∧ Selectable (app w').
Proof.
  intros Hu [Hlen Hsel]. unfold handleCardClick. cbv zeta.
  case_bool_decide as H2; [by exists w|].
  destruct (findIndex_is_Some u _ Hu) as [j ->].
  change (alter (withIsFlipped true) j (cards (app w)))
    with (flipAt j (cards (app w))).
  assert (∀ a, a ∈ flippedCards (app w) ++ [u] →
               a ∈ uniqueId <$> flipAt j (cards (app w))) as Hnew.
  { intros a. rewrite uniqueId_flipAt.
    intros [Ha|Ha]%elem_of_app; [by apply Hsel|].
    apply list_elem_of_singleton in Ha as ->. done. }
  destruct (flippedCards (app w)) as [|a [|b l]] eqn:Hfl; simpl in *.
  - eexists. split; [done|]. split; simpl; [lia|done].
  - destruct (find_is_Some a (flipAt j (cards (app w)))) as [c1 Hc1];
      [apply Hnew; apply list_elem_of_here|].
    destruct (find_is_Some u (flipAt j (cards (app w)))) as [c2 Hc2];
      [apply Hnew; apply list_elem_of_further, list_elem_of_here|].
    rewrite Hc1, Hc2.
    case_bool_decide; (eexists; split; [done|]; split; simpl; [lia|done]).
  - exfalso. destruct l; simpl in *; [done|lia].
Qed.

Lemma clickCard_Selectable k w :
  Selectable (app w) →
  ∃ w', clickCard k w = Done w' ∧ Selectable (app w').
Proof.
  intros Hs. unfold clickCard.
  destruct (view (app w)); try by exists w.
  destruct (cards (app w) !! k) as [c|] eqn:Hk; [|by exists w].
  unfold Card_onClick. destruct (_ && _); [|by exists w].
  apply handleCardClick_Selectable; [|done].
  apply list_elem_of_fmap_2. by eapply list_elem_of_lookup_2.
Qed.

Lemma runCallback_Selectable cb w :
  Selectable (app w) → Selectable (app (runCallback cb w)).
Proof.
  intros [Hlen Hsel].
  destruct cb as [f s fc gm cp m|fc gm cp m|nf gm]; simpl.
  - split; simpl; [done|]. intros u Hu.
    rewrite fmap_fmap_proj by apply uniqueId_highlightPair. by apply Hsel.
  - destruct (bool_decide (m + 1 = 6)); (split; simpl; [lia|]);
      intros u Hu; by apply elem_of_nil in Hu.
  - destruct gm; (split; simpl; [lia|]); intros u Hu; by apply elem_of_nil in Hu.
Qed.

Lemma tick_Selectable w : Selectable (app w) → Selectable (app (tick w)).
Proof.
  unfold tick.
  generalize (filter (λ p, (p.1 ≤ clock w + 1)%N) (pending w)).
  generalize (filter (λ p, ¬ (p.1 ≤ clock w + 1)%N) (pending w)).
  intros rest due Hs.
  assert (Selectable (app {| app := app w; pending := rest; clock := clock w + 1 |}))
    as Hs' by done.
  revert Hs'. generalize {| app := app w; pending := rest; clock := (clock w + 1)%N |}.
  induction due as [|p due IH]; intros w' Hw'; [done|]. simpl.
  by apply IH, runCallback_Selectable.
Qed.

Lemma advance_Selectable n w :
  Selectable (app w) → Selectable (app (advance n w)).
Proof.
  intros Hs. induction n as [|n IH]; [done|]. rewrite advance_S.
  by apply tick_Selectable.
Qed.

Lemma initGame_async_Selectable rnd mode sv w :
  Selectable (app w) →
  Selectable (app (result_world (initGame_async rnd mode sv w))).
Proof.
  intros Hs. unfold initGame_async.
  destruct (loadCards sv) as [[allCards|]|]; simpl; [|done..].
  unfold initGame. case_bool_decide; simpl.
  - unfold handleAdminAccess. by destruct (isAdminAuth (app w)).
  - split; simpl; [lia|]. intros u Hu. by apply elem_of_nil in Hu.
Qed.

Lemma act_Selectable a p :
  Selectable (app (world p)) → Selectable (app (world (act a p))).
Proof.
  intros Hs. unfold act. destruct (rendered a p); simpl; [|done].
  destruct a; simpl; try done.
  - unfold handleAdminAccess. by destruct (isAdminAuth (app (world p))).
  - unfold handleAuth. by case_bool_decide.
  - by apply initGame_async_Selectable.
  - by apply initGame_async_Selectable.
  - by apply initGame_async_Selectable.
  - by apply initGame_async_Selectable.
  - destruct (clickCard_Selectable k (world p) Hs) as (w' & -> & Hw'). done.
  - by apply advance_Selectable.
Qed.


Lemma Indexed_fmap (f : GameCard → GameCard) s s' :
  (∀ c, uniqueId (f c) = uniqueId c) → cards s' = f <$> cards s →
  Indexed s → Indexed s'.
Proof.
  intros Hf Hc Hi i c. rewrite Hc, list_lookup_fmap.
  destruct (cards s !! i) as [c0|] eqn:Hk; simpl; [|done].
  intros [= <-]. rewrite Hf. by apply Hi.
Qed.

Lemma Indexed_flipAt j s s' :
  cards s' = flipAt j (cards s) → Indexed s → Indexed s'.
Proof.
  intros Hc Hi i c. rewrite Hc. unfold flipAt.
  destruct (decide (i = j)) as [->|Hne].
  - rewrite list_lookup_alter_eq.
    destruct (cards s !! j) as [c0|] eqn:Hk; simpl; [|done].
    intros [= <-]. exact (Hi j c0 Hk).
  - rewrite list_lookup_alter_ne by done. apply Hi.
Qed.

Lemma Indexed_NoDup s : Indexed s → NoDup (uniqueId <$> cards s).
Proof.
  intros Hi. apply NoDup_alt. intros i j u. rewrite !list_lookup_fmap.
  destruct (cards s !! i) as [ci|] eqn:Ei; simpl; [|done].
  destruct (cards s !! j) as [cj|] eqn:Ej; simpl; [|done].
  apply Hi in Ei, Ej. intros [= <-] [= Hu]. lia.
Qed.

Lemma handleCardClick_Indexed u w :
  Indexed (app w) → Indexed (app (world_of (handleCardClick u w))).
Proof.
  intros Hi. unfold handleCardClick. cbv zeta.
  case_bool_decide; [done|].
  destruct (findIndex u (cards (app w))) as [j|]; [|done].
  assert (∀ s', cards s' = flipAt j (cards (app w)) → Indexed s') as Hs
    by (intros s' Hc; by eapply Indexed_flipAt).
  repeat case_match; simpl; by apply Hs.
Qed.

Lemma clickCard_Indexed k w :
  Indexed (app w) → Indexed (app (world_of (clickCard k w))).
Proof.
  intros Hi. unfold clickCard. destruct (view (app w)); try done.
  destruct (cards (app w) !! k); [|done].
  unfold Card_onClick. destruct (_ && _); [|done].
  by apply handleCardClick_Indexed.
Qed.

Lemma runCallback_Indexed cb w :
  Indexed (app w) → Indexed (app (runCallback cb w)).
Proof.
  intros Hi. destruct cb as [f s fc gm cp m|fc gm cp m|nf gm]; simpl.
  - by apply (Indexed_fmap (highlightPair f s) (app w));
      [apply uniqueId_highlightPair|done|].
  - destruct (bool_decide (m + 1 = 6));
      by apply (Indexed_fmap (markMatched fc) (app w));
        [apply uniqueId_markMatched|done|].
  - destruct gm;
      by apply (Indexed_fmap (flipBack nf) (app w));
        [apply uniqueId_flipBack|done|].
Qed.

Lemma tick_Indexed w : Indexed (app w) → Indexed (app (tick w)).
Proof.
  unfold tick.
  generalize (filter (λ p, (p.1 ≤ clock w + 1)%N) (pending w)).
  generalize (filter (λ p, ¬ (p.1 ≤ clock w + 1)%N) (pending w)).
  intros rest due Hs.
  assert (Indexed (app {| app := app w; pending := rest; clock := clock w + 1 |}))
    as Hs' by done.
  revert Hs'. generalize {| app := app w; pending := rest; clock := (clock w + 1)%N |}.
  induction due as [|p due IH]; intros w' Hw'; [done|]. simpl.
  by apply IH, runCallback_Indexed.
Qed.

Lemma advance_Indexed n w : Indexed (app w) → Indexed (app (advance n w)).
Proof.
  intros Hs. induction n as [|n IH]; [done|]. rewrite advance_S.
  by apply tick_Indexed.
Qed.

Lemma initGame_async_Indexed rnd mode sv w :
  Indexed (app w) → Indexed (app (result_world (initGame_async rnd mode sv w))).
Proof.
  intros Hs. unfold initGame_async.
  destruct (loadCards sv) as [[allCards|]|]; simpl; [|done..].
  unfold initGame. case_bool_decide; simpl.
  - unfold handleAdminAccess. by destruct (isAdminAuth (app w)).
  - intros i c Hc. simpl in Hc. by apply buildDeck_lookup in Hc as [? _].
Qed.

Lemma act_Indexed a p :
  Indexed (app (world p)) → Indexed (app (world (act a p))).
Proof.
  intros Hs. unfold act. destruct (rendered a p); simpl; [|done].
  destruct a; simpl; try done.
  - unfold handleAdminAccess. by destruct (isAdminAuth (app (world p))).
  - unfold handleAuth. by case_bool_decide.
  - by apply initGame_async_Indexed.
  - by apply initGame_async_Indexed.
  - by apply initGame_async_Indexed.
  - by apply initGame_async_Indexed.
  - by apply clickCard_Indexed.
  - by apply advance_Indexed.
Qed.


